(** * Graph diameter by repeated breadth-first search

    A shallow embedding of package [diameter] (node.go): the symbol table
    from node names to ids, the pointer-linked adjacency structure, and the
    diameter computation that runs one BFS per node.

    Go's [*node] values are modelled as addresses into an explicit node
    store, so that the aliasing between [nodes], the [adj] maps and the BFS
    queue is the one the program has.  Go leaves the iteration order of
    [range] over a map unspecified; every [range] statement takes its order
    from a [rangeOrder], and all results hold for every choice of orders. *)

From Stdlib Require Import ZArith Lia.

From stdpp Require Import gmap strings list fin_maps sorting.

(** ** Machine integers *)

(** Conversion to [int32] (the representation of [nodeID]). *)
Definition int32 (x : Z) : Z :=
  ((x + 2147483648) mod 4294967296 - 2147483648)%Z.

(** Arithmetic on [int] (64 bits) wraps around. *)
Definition int (x : Z) : Z :=
  ((x + 9223372036854775808) mod 18446744073709551616 - 9223372036854775808)%Z.

Definition int32_range (x : Z) : Prop := (-2147483648 ≤ x < 2147483648)%Z.

(** ** Data model *)

(** [type nodeID int32], [type nodeName string]. *)
Abbreviation nodeID := Z (only parsing).

Abbreviation nodeName := string (only parsing).

(** A [*node] is an address in the node store. *)
Abbreviation ptr := nat (only parsing).

(** [type node struct { id nodeID; adj map[nodeID]*node }] *)
Record node := { id : nodeID; adj : gmap nodeID ptr }.

(** The node store: the nodes allocated so far, by address. *)
Abbreviation store := (list node) (only parsing).

(** [type symbolTable map[nodeName]nodeID] and [type nodes map[nodeID]*node],
    the two embedded fields of [Graph]. *)
Record Graph := {
  symbolTable : gmap nodeName nodeID;
  nodes : gmap nodeID ptr
}.

(** [type bfsNode struct { parent *node; depth int }]; a nil [parent] is
    [None]. *)
Record bfsNode := { parent : option ptr; depth : Z }.

(** Reading a missing key of a Go map yields the zero value. *)
Definition bfsZero : bfsNode := {| parent := None; depth := 0 |}.

Definition bfsGet (bfsData : gmap nodeID bfsNode) (i : nodeID) : bfsNode :=
  default bfsZero (bfsData !! i).

(** ** Iteration order of [range] over a map *)

Record rangeOrder := {
  pick :> list (nodeID * ptr) → list (nodeID * ptr);
  pick_perm : ∀ l, pick l ≡ₚ l
}.

(** One order for the [range] over [nodes] in [diameter], and one for each
    [range] over an [adj] map: the one executed by the BFS started at [start]
    when it dequeues its [k]-th node is [adjOrder start k]. *)
Record schedule := {
  nodesOrder : rangeOrder;
  adjOrder : nodeID → nat → rangeOrder
}.

Definition mapRange (o : rangeOrder) (m : gmap nodeID ptr) : list (nodeID * ptr) :=
  o (map_to_list m).

Definition idOrder : rangeOrder := {| pick := λ l, l; pick_perm := λ l, reflexivity l |}.

Definition revOrder : rangeOrder := {| pick := reverse; pick_perm := reverse_Permutation |}.

Definition idSchedule : schedule := {| nodesOrder := idOrder; adjOrder := λ _ _, idOrder |}.

Definition revSchedule : schedule := {| nodesOrder := revOrder; adjOrder := λ _ _, revOrder |}.

(** ** Symbol table *)

(** [func (s symbolTable) getID(name nodeName) nodeID] *)
Definition getID (s : gmap nodeName nodeID) (name : nodeName)
  : nodeID * gmap nodeName nodeID :=
  match s !! name with
  | Some i => (i, s)
  | None => let i := int32 (Z.of_nat (size s)) in (i, <[name := i]> s)
  end.

(** ** Graph construction *)

(** [func New() *Graph] *)
Definition New : store * Graph := ([], {| symbolTable := ∅; nodes := ∅ |}).

(** [func (n *node) add(adjNode *node)]: [n.adj[adjNode.id] = adjNode].
    Dereferencing an address that is not in the store has no result. *)
Definition add (h : store) (n adjNode : ptr) : option store :=
  a ← h !! adjNode;
  nd ← h !! n;
  Some (<[n := {| id := id nd; adj := <[id a := adjNode]> (adj nd) |}]> h).

(** [func (nodes nodes) get(id nodeID) *node] *)
Definition get (h : store) (ns : gmap nodeID ptr) (i : nodeID)
  : ptr * store * gmap nodeID ptr :=
  match ns !! i with
  | Some n => (n, h, ns)
  | None =>
      let n := length h in
      (n, h ++ [{| id := i; adj := ∅ |}], <[i := n]> ns)
  end.

(** [func (nodes *nodes) addEdge(a, b nodeID)] *)
Definition nodes_addEdge (h : store) (ns : gmap nodeID ptr) (a b : nodeID)
  : option (store * gmap nodeID ptr) :=
  let '(an, h1, ns1) := get h ns a in
  let '(bn, h2, ns2) := get h1 ns1 b in
  h3 ← add h2 an bn;
  h4 ← add h3 bn an;
  Some (h4, ns2).

(** [func (g *Graph) addEdge(a, b nodeName)] *)
Definition addEdge (w : store * Graph) (a b : nodeName) : option (store * Graph) :=
  let '(h, g) := w in
  let '(aid, s1) := getID (symbolTable g) a in
  let '(bid, s2) := getID s1 b in
  '(h', ns') ← nodes_addEdge h (nodes g) aid bid;
  Some (h', {| symbolTable := s2; nodes := ns' |}).

(** [func (e edgeList) build(g *Graph)] of the tests: the edges are inserted
    in list order. *)
Fixpoint build (w : store * Graph) (e : list (nodeName * nodeName))
  : option (store * Graph) :=
  match e with
  | [] => Some w
  | (a, b) :: e' => w' ← addEdge w a b; build w' e'
  end.

(** ** Diameter *)

(** The body of [for id, m := range n.adj] in [longestShortestPath], for the
    dequeued node at address [n] whose [id] field is [nid]. *)
Definition visit (n : ptr) (nid : nodeID)
    (st : gmap nodeID bfsNode * list ptr) (e : nodeID * ptr)
  : gmap nodeID bfsNode * list ptr :=
  let '(bfsData, q) := st in
  let '(i, m) := e in
  let bm := bfsGet bfsData i in
  match parent bm with
  | None =>
      (<[i := {| parent := Some n;
                 depth := int (depth (bfsGet bfsData nid) + 1) |}]> bfsData,
       q ++ [m])
  | Some _ => (bfsData, q)
  end.

(** One iteration of the [for { ... }] loop of [longestShortestPath] once
    [front] has been removed from the queue, leaving [q]: the [range] over
    [front.adj]. *)
Definition bfsIter (o : rangeOrder) (h : store) (front : ptr) (q : list ptr)
    (bfsData : gmap nodeID bfsNode)
  : option (gmap nodeID bfsNode * list ptr) :=
  nd ← h !! front;
  Some (foldl (visit front (id nd)) (bfsData, q) (mapRange o (adj nd))).

(** The [for { ... }] loop of [longestShortestPath]: [q] is the queue, [n] the
    node dequeued last, [k] the number of nodes dequeued so far.  Each
    iteration that dequeues a node uses one unit of [fuel]. *)
Fixpoint bfsLoop (ord : nat → rangeOrder) (fuel k : nat) (h : store)
    (q : list ptr) (bfsData : gmap nodeID bfsNode) (n : ptr)
  : option (ptr * gmap nodeID bfsNode) :=
  match q with
  | [] => Some (n, bfsData)
  | front :: q' =>
      match fuel with
      | O => None
      | S fuel' =>
          '(bfsData', q'') ← bfsIter (ord k) h front q' bfsData;
          bfsLoop ord fuel' (S k) h q'' bfsData' front
      end
  end.

(** [bfsData] after [bfsData[n.id] = bfsNode{parent: n, depth: 0}], for the
    start node at address [n] with id [nid]. *)
Definition bfsInit (n : ptr) (nid : nodeID) : gmap nodeID bfsNode :=
  <[nid := {| parent := Some n; depth := 0 |}]> ∅.

(** [func (nodes nodes) longestShortestPath(start nodeID) int].  [nodes.get]
    may allocate, so the store and the map are returned with the result. *)
Definition longestShortestPath (ord : nat → rangeOrder) (fuel : nat)
    (h : store) (ns : gmap nodeID ptr) (start : nodeID)
  : option (Z * store * gmap nodeID ptr) :=
  let '(n, h1, ns1) := get h ns start in
  nd ← h1 !! n;
  '(n', bfsData') ← bfsLoop ord fuel 0 h1 [n] (bfsInit n (id nd)) n;
  nd' ← h1 !! n';
  Some (depth (bfsGet bfsData' (id nd')), h1, ns1).

(** The body of [for id := range nodes] in [diameter], over the keys still to
    be visited.  The keys are those the map has when the loop starts: no
    iteration writes to [nodes] ([diameter_state] below). *)
Fixpoint diameterLoop (sch : schedule) (fuel : nat) (ids : list (nodeID * ptr))
    (diameter : Z) (h : store) (ns : gmap nodeID ptr)
  : option (Z * store * gmap nodeID ptr) :=
  match ids with
  | [] => Some (diameter, h, ns)
  | (i, _) :: ids' =>
      '(df, h', ns') ← longestShortestPath (adjOrder sch i) fuel h ns i;
      diameterLoop sch fuel ids' (if (df >? diameter)%Z then df else diameter) h' ns'
  end.

(** [func (nodes nodes) diameter() int] *)
Definition diameter (sch : schedule) (fuel : nat) (h : store) (ns : gmap nodeID ptr)
  : option (Z * store * gmap nodeID ptr) :=
  diameterLoop sch fuel (mapRange (nodesOrder sch) ns) 0 h ns.

(** [g.diameter()] on a graph built from an edge list, as the tests call it:
    the value returned. *)
Definition buildDiameter (sch : schedule) (fuel : nat) (e : list (nodeName * nodeName))
  : option Z :=
  '(h, g) ← build New e;
  r ← diameter sch fuel h (nodes g);
  Some r.1.1.

(** The queue operations of the same loop, for the statements about how often
    a node is enqueued and dequeued: one entry per dequeued node, with the
    nodes its iteration pushed at the back of the queue. *)
Fixpoint bfsTrace (ord : nat → rangeOrder) (fuel k : nat) (h : store)
    (q : list ptr) (bfsData : gmap nodeID bfsNode) : list (ptr * list ptr) :=
  match q, fuel with
  | front :: q', S fuel' =>
      match bfsIter (ord k) h front q' bfsData with
      | Some (bfsData', q'') =>
          (front, drop (length q') q'') :: bfsTrace ord fuel' (S k) h q'' bfsData'
      | None => []
      end
  | _, _ => []
  end.

(** The nodes dequeued by the search from the node at address [n] with id
    [nid], in order. *)
Definition dequeued (ord : nat → rangeOrder) (fuel : nat) (h : store) (n : ptr) (nid : nodeID)
  : list ptr :=
  (bfsTrace ord fuel 0 h [n] (bfsInit n nid)).*1.

(** The nodes it enqueued, in order: the start node, then the pushes. *)
Definition enqueued (ord : nat → rangeOrder) (fuel : nat) (h : store) (n : ptr) (nid : nodeID)
  : list ptr :=
  n :: concat (bfsTrace ord fuel 0 h [n] (bfsInit n nid)).*2.

(** [visit] with a record of what the [range] of the iteration goes through:
    for each entry of [n.adj] it handles, the id of [n] and the key of the
    entry are added to the log. *)
Definition visitLog (n : ptr) (nid : nodeID)
    (st : gmap nodeID bfsNode * list ptr * list (nodeID * nodeID)) (e : nodeID * ptr)
  : gmap nodeID bfsNode * list ptr * list (nodeID * nodeID) :=
  (visit n nid st.1 e, st.2 ++ [(nid, e.1)]).

(** [bfsLoop] with that record: the loop of [longestShortestPath], returning
    also the entries of the [adj] maps its [range] statements went through,
    in order. *)
Fixpoint bfsLoopLog (ord : nat → rangeOrder) (fuel k : nat) (h : store)
    (q : list ptr) (bfsData : gmap nodeID bfsNode) (n : ptr)
    (log : list (nodeID * nodeID))
  : option (ptr * gmap nodeID bfsNode * list (nodeID * nodeID)) :=
  match q with
  | [] => Some (n, bfsData, log)
  | front :: q' =>
      match fuel with
      | O => None
      | S fuel' =>
          nd ← h !! front;
          let '(bfsData', q'', log') :=
            foldl (visitLog front (id nd)) (bfsData, q', log) (mapRange (ord k) (adj nd)) in
          bfsLoopLog ord fuel' (S k) h q'' bfsData' front log'
      end
  end.

(** The edge an entry stands for, whichever endpoint holds the entry. *)
Definition undirected (x y : nodeID) : nodeID * nodeID := (Z.min x y, Z.max x y).

(** The depth recorded for node [x]. *)
Definition dep (bfsData : gmap nodeID bfsNode) (x : nodeID) : Z :=
  depth (bfsGet bfsData x).

(** ** The graph a state represents *)

(** [y] is a key of the [adj] map of the node registered under [x]. *)
Definition edge (h : store) (ns : gmap nodeID ptr) (x y : nodeID) : Prop :=
  ∃ p nd, ns !! x = Some p ∧ h !! p = Some nd ∧ is_Some (adj nd !! y).

(** Walks of [k] hops from [x] along a relation [E]. *)
Inductive walk {A : Type} (E : A → A → Prop) (x : A) : nat → A → Prop :=
| walk_nil : walk E x 0 x
| walk_snoc k y z : walk E x k y → E y z → walk E x (S k) z.

(** [d] is the shortest-path distance in hops from [x] to [y]. *)
Definition shortest {A : Type} (E : A → A → Prop) (x y : A) (d : nat) : Prop :=
  walk E x d y ∧ ∀ k, walk E x k y → d ≤ k.

(** [y] lies in the connected component of [x]. *)
Definition connected {A : Type} (E : A → A → Prop) (x y : A) : Prop :=
  ∃ k, walk E x k y.

(** [D] is the diameter of the graph with vertices [V] and edges [E]: the
    largest distance between two vertices of one component, and 0 when there
    is no vertex. *)
Definition diam {A : Type} (V : A → Prop) (E : A → A → Prop) (D : Z) : Prop :=
  (∀ x y d, V x → V y → shortest E x y d → (Z.of_nat d ≤ D)%Z) ∧
  ((∃ x y d, V x ∧ V y ∧ shortest E x y d ∧ D = Z.of_nat d)
   ∨ ((∀ x, ¬ V x) ∧ D = 0%Z)).

(** [e] is the eccentricity of [x]: the largest distance from [x] to a node
    it reaches. *)
Definition eccentricity (h : store) (ns : gmap nodeID ptr) (x : nodeID) (e : Z) : Prop :=
  (∀ y d, shortest (edge h ns) x y d → (Z.of_nat d ≤ e)%Z) ∧
  (∃ y d, shortest (edge h ns) x y d ∧ e = Z.of_nat d).

(** The nodes of a state are the keys of [nodes]. *)
Definition registered (ns : gmap nodeID ptr) (x : nodeID) : Prop := is_Some (ns !! x).

(** [D] is the diameter of the graph a state represents. *)
Definition graphDiameter (h : store) (ns : gmap nodeID ptr) (D : Z) : Prop :=
  diam (registered ns) (edge h ns) D.

(** Well-formed states: every registered node is allocated under its own id,
    the [adj] maps of registered nodes point to the registered nodes, and ids
    are [int32] values. *)
Record wf (h : store) (ns : gmap nodeID ptr) : Prop := {
  wf_node : ∀ i p, ns !! i = Some p → ∃ nd, h !! p = Some nd ∧ id nd = i;
  wf_adj : ∀ i p nd j m,
    ns !! i = Some p → h !! p = Some nd → adj nd !! j = Some m → ns !! j = Some m;
  wf_range : ∀ i, is_Some (ns !! i) → int32_range i
}.

(** ** Invariants of the search *)

Section bfsInvariants.
Context (h : store) (ns : gmap nodeID ptr) (s : nodeID).

(** A queue of addresses and the ids of the nodes it holds. *)
Definition holds (qi : list nodeID) (q : list ptr) : Prop :=
  Forall2 (λ i p, ns !! i = Some p) qi q.

(** All neighbours of [x] are discovered, at most one level deeper. *)
Definition closed (B : gmap nodeID bfsNode) (x : nodeID) : Prop :=
  ∀ y, edge h ns x y → is_Some (B !! y) ∧ (dep B y ≤ dep B x + 1)%Z.

(** The state of a search from [s]: [l] lists the discovered nodes in the
    order they entered the queue. *)
Record binv (l : list nodeID) (B : gmap nodeID bfsNode) : Prop := {
  bi_nodup : NoDup l;
  bi_dom : ∀ x, x ∈ l ↔ is_Some (B !! x);
  bi_par : ∀ x b, B !! x = Some b → is_Some (parent b);
  bi_ns : ∀ x, x ∈ l → is_Some (ns !! x);
  bi_sorted : StronglySorted (λ a b, (dep B a ≤ dep B b)%Z) l;
  bi_walk : ∀ x, is_Some (B !! x) →
    (0 ≤ dep B x)%Z ∧ walk (edge h ns) s (Z.to_nat (dep B x)) x;
  bi_start : is_Some (B !! s) ∧ dep B s = 0%Z;
  bi_size : ∀ x, is_Some (B !! x) → (dep B x < Z.of_nat (length l))%Z
}.

(** Between two iterations of the outer loop: [dn] are the nodes dequeued
    so far and [qi] the nodes in the queue. *)
Record oinv (dn qi : list nodeID) (B : gmap nodeID bfsNode) : Prop := {
  oi_binv : binv (dn ++ qi) B;
  oi_bound : ∀ x y, is_Some (B !! x) → y ∈ qi → (dep B x ≤ dep B y + 1)%Z;
  oi_closed : ∀ x, x ∈ dn → closed B x
}.

(** Inside the [range] over the neighbours of the dequeued node [cur]. *)
Record iinv (dn : list nodeID) (cur : nodeID) (qi : list nodeID)
    (B : gmap nodeID bfsNode) : Prop := {
  ii_binv : binv ((dn ++ [cur]) ++ qi) B;
  ii_bound : ∀ x, is_Some (B !! x) → (dep B x ≤ dep B cur + 1)%Z;
  ii_closed : ∀ x, x ∈ dn → closed B x
}.

End bfsInvariants.

(** ** Invariants of the graph *)

(** The state invariant of the node store under [nodes.addEdge]: registered
    and allocated nodes coincide, [adj] maps hold the registered address of
    each neighbour, and adjacency is mutual. *)
Record ninv (h : store) (ns : gmap nodeID ptr) : Prop := {
  ni_reg : ∀ i p, ns !! i = Some p → ∃ nd, h !! p = Some nd ∧ id nd = i;
  ni_alloc : ∀ p nd, h !! p = Some nd → ns !! id nd = Some p;
  ni_adj : ∀ p nd j m, h !! p = Some nd → adj nd !! j = Some m → ns !! j = Some m;
  ni_sym : ∀ p nd j m, h !! p = Some nd → adj nd !! j = Some m →
    ∃ nd', h !! m = Some nd' ∧ adj nd' !! id nd = Some p;
  ni_range : ∀ i, is_Some (ns !! i) → int32_range i
}.

(** The [adj] map of the node at address [p] after [an.add(bn); bn.add(an)],
    for nodes [an], [bn] with ids [a], [b]. *)
Definition linkAdj (an bn : ptr) (a b : nodeID) (p : ptr) (m : gmap nodeID ptr)
  : gmap nodeID ptr :=
  let m1 := if decide (p = an) then <[b:=bn]> m else m in
  if decide (p = bn) then <[a:=an]> m1 else m1.

(** The invariant of a [Graph]: the node store invariant, and the ids in the
    symbol table are exactly the registered nodes. *)
Record ginv (h : store) (g : Graph) : Prop := {
  gi_nodes : ninv h (nodes g);
  gi_tab : ∀ a i, symbolTable g !! a = Some i → registered (nodes g) i;
  gi_named : ∀ i, registered (nodes g) i → ∃ a, symbolTable g !! a = Some i
}.

(** The edge between the names [a] and [b] is in the graph. *)
Definition present (h : store) (g : Graph) (a b : nodeName) : Prop :=
  ∃ ia ib, symbolTable g !! a = Some ia ∧ symbolTable g !! b = Some ib ∧
           edge h (nodes g) ia ib.

(** Every two nodes are joined by a walk. *)
Definition connectedGraph (h : store) (ns : gmap nodeID ptr) : Prop :=
  ∀ x y, registered ns x → registered ns y → connected (edge h ns) x y.

(** The store in which the node at address [p] no longer lists itself in its
    [adj] map; everything else is as in [h]. *)
Definition withoutSelfAdj (h : store) (p : ptr) : store :=
  match h !! p with
  | Some nd => <[p := {| id := id nd; adj := delete (id nd) (adj nd) |}]> h
  | None => h
  end.

(** ** The graph on names *)

(** The graph on names that an edge list describes: its edges and its
    vertices. *)
Definition nameE (e : list (nodeName * nodeName)) (a b : nodeName) : Prop :=
  (a, b) ∈ e ∨ (b, a) ∈ e.

Definition nameV (e : list (nodeName * nodeName)) (a : nodeName) : Prop :=
  ∃ b, nameE e a b.

(** [R] relates the vertices of two graphs one to one, edges to edges. *)
Record giso {A B : Type} (V : A → Prop) (E : A → A → Prop)
    (V' : B → Prop) (E' : B → B → Prop) (R : A → B → Prop) : Prop := {
  iso_fun : ∀ a i i', R a i → R a i' → i = i';
  iso_inj : ∀ a a' i, R a i → R a' i → a = a';
  iso_tot : ∀ a, V a → ∃ i, R a i ∧ V' i;
  iso_sur : ∀ i, V' i → ∃ a, R a i ∧ V a;
  iso_edge : ∀ a b i j, R a i → R b j → (E a b ↔ E' i j);
  iso_cl : ∀ a b, V a → E a b → V b;
  iso_cl' : ∀ i j, V' i → E' i j → V' j
}.

(** The ids handed out so far are the [int32] images of 0, 1, ... below the
    size of the table, one per name. *)
Definition tabOK (s : gmap nodeName nodeID) : Prop :=
  (∀ a i, s !! a = Some i → ∃ k, k < size s ∧ i = int32 (Z.of_nat k)) ∧
  (∀ a a' i, s !! a = Some i → s !! a' = Some i → a = a').

(** The state reached after inserting the edges [done], as long as ids have
    not wrapped around: names and nodes correspond one to one, edges to
    edges. *)
Record named (done : list (nodeName * nodeName)) (h : store) (g : Graph) : Prop := {
  nm_ginv : ginv h g;
  nm_tab : tabOK (symbolTable g);
  nm_edge_l : ∀ a b, nameE done a b →
    ∃ ia ib, symbolTable g !! a = Some ia ∧ symbolTable g !! b = Some ib ∧
             edge h (nodes g) ia ib;
  nm_edge_r : ∀ ia ib, edge h (nodes g) ia ib →
    ∃ a b, symbolTable g !! a = Some ia ∧ symbolTable g !! b = Some ib ∧
           nameE done a b
}.

(** ** The search tree *)

(** [bfsData] is a tree rooted at the start node [s], which lives at address
    [ps]: the start is its own parent at depth 0, and every other recorded
    node has as parent a recorded node that holds it in its [adj] map, one
    level above. *)
Definition parentTree (h : store) (ns : gmap nodeID ptr) (s : nodeID) (ps : ptr)
    (B : gmap nodeID bfsNode) : Prop :=
  ∀ x b, B !! x = Some b →
    (x = s ∧ parent b = Some ps ∧ depth b = 0%Z) ∨
    (∃ y py bp, parent b = Some py ∧ ns !! y = Some py ∧ edge h ns y x ∧
                B !! y = Some bp ∧ depth b = (depth bp + 1)%Z).

(** ** Loading edge records *)

(** How [s.Scan()] came to return [false]: the input is at its end, or the
    scanner failed (a line of 64 KiB or more does not fit its buffer, or the
    file could not be read).  The two are told apart by [s.Err()] only. *)
Inductive scanStop : Type :=
| EndOfInput
| ScanFailed.

(** What the loading loop of [BenchmarkDiameter] ends with: the graph, or the
    graph built so far when a record is malformed ([b.Error] and [return]). *)
Inductive loaded : Type :=
| Loaded (w : store * Graph)
| Malformed (w : store * Graph).

(** The loop [for s.Scan() { ... }] of [BenchmarkDiameter].  The scanner and
    [strings.Fields] are library code: [scanned] holds, for each line for
    which [s.Scan()] returned [true], the fields [strings.Fields] returns for
    it, and [stop] says why [s.Scan()] returned [false] after them.  A line
    without fields is skipped, a line with two fields is an edge, any other
    line ends the loading.  When the scanner stops the loop is left and the
    code goes on with the graph it has: [s.Err()] is never called, so [stop]
    is not looked at. *)
Fixpoint loadEdges (w : store * Graph) (scanned : list (list string)) (stop : scanStop)
  : option loaded :=
  match scanned with
  | [] => Some (Loaded w)
  | edge :: rest =>
      match edge with
      | [] => loadEdges w rest stop
      | [a; b] => w' ← addEdge w a b; loadEdges w' rest stop
      | _ => Some (Malformed w)
      end
  end.

(** The edge a line with exactly two fields stands for. *)
Definition edgeOf (edge : list string) : option (nodeName * nodeName) :=
  match edge with
  | [a; b] => Some (a, b)
  | _ => None
  end.

(** A line the loop accepts: no field, or two. *)
Definition wellFormed (edge : list string) : Prop :=
  length edge = 0 ∨ length edge = 2.

(** * Proofs *)

(** ** Arithmetic and list facts *)

Lemma int_small (x : Z) : (0 ≤ x ≤ 4294967296)%Z → int x = x.
Proof.
  intros Hx. unfold int.
  rewrite Z.mod_small; lia.
Qed.

Lemma size_int32_keys {A} (m : gmap Z A) :
  (∀ i, is_Some (m !! i) → int32_range i) → (Z.of_nat (size m) ≤ 4294967296)%Z.
Proof.
  intros Hr.
  assert (Hsub : dom m ⊆ list_to_set (C := gset Z) (seqZ (-2147483648) 4294967296)).
  { intros i Hi. apply elem_of_dom in Hi. apply Hr in Hi.
    apply elem_of_list_to_set, elem_of_seqZ. unfold int32_range in Hi. lia. }
  apply subseteq_size in Hsub.
  rewrite size_dom in Hsub.
  rewrite size_list_to_set in Hsub by apply NoDup_seqZ.
  rewrite length_seqZ in Hsub. lia.
Qed.

Lemma StronglySorted_snoc {A} (R : relation A) (l : list A) (x : A) :
  StronglySorted R l → Forall (λ a, R a x) l → StronglySorted R (l ++ [x]).
Proof.
  intros Hs Hf. apply StronglySorted_app. split_and!.
  - intros a b Ha Hb. apply list_elem_of_singleton in Hb as ->.
    by eapply Forall_forall in Hf.
  - done.
  - repeat constructor.
Qed.

Lemma StronglySorted_ext {A} (R R' : relation A) (l : list A) :
  (∀ a b, a ∈ l → b ∈ l → R a b → R' a b) →
  StronglySorted R l → StronglySorted R' l.
Proof.
  induction l as [|x l IH]; intros Himp Hs; [constructor|].
  apply StronglySorted_cons in Hs as [Hf Hs].
  apply StronglySorted_cons. split.
  - apply Forall_forall. intros b Hb.
    apply Himp; [left | by right | by eapply Forall_forall in Hf].
  - apply IH; [|done]. intros a b Ha Hb. apply Himp; by right.
Qed.

Lemma StronglySorted_last {A} (R : relation A) `{!Reflexive R} (l : list A) (x c : A) :
  StronglySorted R l → last l = Some c → x ∈ l → R x c.
Proof.
  intros Hs Hl Hx. apply last_Some in Hl as [l' ->].
  apply elem_of_app in Hx as [Hx|Hx].
  - eapply StronglySorted_app_1_elem_of; [done..|]. by left.
  - by apply list_elem_of_singleton in Hx as ->.
Qed.

Lemma NoDup_length_le_size {A} (m : gmap Z A) (l : list Z) :
  NoDup l → (∀ x, x ∈ l → is_Some (m !! x)) → length l ≤ size m.
Proof.
  intros Hnd Hin.
  rewrite <-(size_list_to_set (C := gset Z) l), <-(size_dom (D := gset Z) m) by done.
  apply subseteq_size. intros x Hx.
  apply elem_of_list_to_set in Hx. by apply elem_of_dom, Hin.
Qed.

Lemma dep_lookup (B : gmap Z bfsNode) (x : Z) (b : bfsNode) :
  B !! x = Some b → dep B x = depth b.
Proof. intros Hb. unfold dep, bfsGet. by rewrite Hb. Qed.

Lemma dep_weaken (B B' : gmap Z bfsNode) (x : Z) :
  B ⊆ B' → is_Some (B !! x) → dep B' x = dep B x.
Proof.
  intros Hsub [b Hb]. rewrite (dep_lookup B x b Hb).
  apply dep_lookup. by eapply lookup_weaken.
Qed.

(** ** The breadth-first search *)

Section bfs.

Context (h : store) (ns : gmap nodeID ptr) (Hwf : wf h ns) (s : nodeID).

Lemma binv_length l B : binv h ns s l B → length l ≤ size ns.
Proof.
  intros Hb. apply NoDup_length_le_size; [apply Hb|]. apply Hb.
Qed.

Lemma closed_weaken B B' x :
  B ⊆ B' → is_Some (B !! x) → closed h ns B x → closed h ns B' x.
Proof.
  intros Hsub Hx Hc y Hy. destruct (Hc y Hy) as [[b Hb] Hle].
  split; [exists b; by eapply lookup_weaken|].
  rewrite !(dep_weaken B B') by eauto. done.
Qed.

Lemma oinv_dequeue dn x qi B : oinv h ns s dn (x :: qi) B → iinv h ns s dn x qi B.
Proof.
  intros [Hb Hbd Hcl]. split.
  - by rewrite <-app_assoc.
  - intros y Hy. apply Hbd; [done|left].
  - done.
Qed.

Lemma binv_init ps : ns !! s = Some ps → oinv h ns s [] [s] (bfsInit ps s).
Proof.
  intros Hs. unfold bfsInit.
  assert (Hd : ∀ x, is_Some ((<[s:={| parent := Some ps; depth := 0 |}]> ∅ : gmap Z bfsNode) !! x) → x = s).
  { intros x [b Hb]. apply lookup_insert_Some in Hb as [[-> _]|[_ Hb]]; [done|].
    by rewrite lookup_empty in Hb. }
  assert (Hs0 : dep (<[s:={| parent := Some ps; depth := 0 |}]> ∅) s = 0%Z).
  { erewrite dep_lookup; [|apply lookup_insert_eq]. done. }
  split; [split|..]; simpl.
  - apply NoDup_singleton.
  - intros x. rewrite list_elem_of_singleton. split.
    + intros ->. rewrite lookup_insert_eq. eauto.
    + apply Hd.
  - intros x b Hb. apply lookup_insert_Some in Hb as [[_ <-]|[_ Hb]]; [by eexists|].
    by rewrite lookup_empty in Hb.
  - intros x ->%list_elem_of_singleton. eauto.
  - repeat constructor.
  - intros x ->%Hd. rewrite Hs0. split; [done|]. constructor.
  - split; [|done]. rewrite lookup_insert_eq. eauto.
  - intros x ->%Hd. rewrite Hs0. lia.
  - intros x y ->%Hd ->%list_elem_of_singleton. lia.
  - intros x Hx. by apply elem_of_nil in Hx.
Qed.

Lemma visit_inv dn cur pc ndc qi q B y m :
  ns !! cur = Some pc → h !! pc = Some ndc → adj ndc !! y = Some m →
  iinv h ns s dn cur qi B → holds ns qi q →
  ∃ B' new newp,
    visit pc cur (B, q) (y, m) = (B', q ++ newp) ∧
    iinv h ns s dn cur (qi ++ new) B' ∧ holds ns new newp ∧
    B ⊆ B' ∧ is_Some (B' !! y).
Proof.
  intros Hcur Hpc Hadj [Hb Hbd Hcl] Hq.
  unfold visit, bfsGet. destruct (B !! y) as [b|] eqn:Hy; simpl.
  { destruct (bi_par _ _ _ _ _ Hb y b Hy) as [p' ->].
    exists B, [], []. rewrite !app_nil_r. split_and!; eauto.
    - by split.
    - constructor. }
  set (l := (dn ++ [cur]) ++ qi) in *.
  assert (Hcl' : cur ∈ l) by (unfold l; set_solver).
  assert (Hcd : is_Some (B !! cur)) by by apply (bi_dom _ _ _ _ _ Hb).
  destruct (bi_walk _ _ _ _ _ Hb cur Hcd) as [Hc0 Hcw].
  pose proof (bi_size _ _ _ _ _ Hb cur Hcd) as Hcs.
  pose proof (binv_length _ _ Hb) as Hlen.
  pose proof (size_int32_keys ns (wf_range _ _ Hwf)) as Hsz.
  fold (bfsGet B cur). fold (dep B cur).
  rewrite int_small by lia.
  set (B' := <[y:={| parent := Some pc; depth := dep B cur + 1 |}]> B).
  assert (Hsub : B ⊆ B') by by apply insert_subseteq.
  assert (Hyl : y ∉ l).
  { intros Hyl. apply (bi_dom _ _ _ _ _ Hb) in Hyl as [? ?]. congruence. }
  assert (Hdy : dep B' y = (dep B cur + 1)%Z).
  { unfold B'. erewrite dep_lookup; [|apply lookup_insert_eq]. done. }
  assert (Hdo : ∀ x, is_Some (B !! x) → dep B' x = dep B x).
  { intros x Hx. by apply dep_weaken. }
  assert (Hcases : ∀ x, is_Some (B' !! x) → x = y ∨ is_Some (B !! x)).
  { intros x Hx. apply lookup_insert_is_Some in Hx. naive_solver. }
  assert (Heyc : edge h ns cur y) by (exists pc, ndc; eauto).
  exists B', [y], [m]. split_and!; [done| |repeat constructor; by eapply wf_adj|done|].
  2:{ unfold B'. rewrite lookup_insert_eq. eauto. }
  split.
  - rewrite app_assoc. fold l. split.
    + apply NoDup_app. split_and!; [apply Hb| |apply NoDup_singleton].
      intros x Hx ->%list_elem_of_singleton. done.
    + intros x. rewrite elem_of_app, list_elem_of_singleton.
      unfold B'. rewrite lookup_insert_is_Some, <-(bi_dom _ _ _ _ _ Hb).
      destruct (decide (y = x)); naive_solver.
    + intros x b Hx. apply lookup_insert_Some in Hx as [[_ <-]|[_ Hx]]; [by eexists|].
      by eapply bi_par.
    + intros x [Hx| ->%list_elem_of_singleton]%elem_of_app; [by eapply bi_ns|].
      exists m. by eapply wf_adj.
    + apply StronglySorted_snoc.
      * eapply StronglySorted_ext; [|apply (bi_sorted _ _ _ _ _ Hb)].
        intros a b Ha Hb' Hab. simpl.
        rewrite !Hdo by by apply (bi_dom _ _ _ _ _ Hb). done.
      * apply Forall_forall. intros a Ha. simpl.
        apply (bi_dom _ _ _ _ _ Hb) in Ha. rewrite Hdy, Hdo by done. by apply Hbd.
    + intros x [->|Hx]%Hcases.
      * rewrite Hdy. split; [lia|].
        replace (Z.to_nat (dep B cur + 1)) with (S (Z.to_nat (dep B cur))) by lia.
        by econstructor.
      * rewrite Hdo by done. by apply (bi_walk _ _ _ _ _ Hb).
    + destruct (bi_start _ _ _ _ _ Hb) as [Hs1 Hs2]. split.
      * destruct Hs1 as [b Hs1]. exists b. by eapply lookup_weaken.
      * by rewrite Hdo.
    + intros x [->|Hx]%Hcases; rewrite length_app; simpl.
      * rewrite Hdy. lia.
      * rewrite Hdo by done. pose proof (bi_size _ _ _ _ _ Hb x Hx). lia.
  - intros x [->|Hx]%Hcases; rewrite (Hdo cur) by done.
    + rewrite Hdy. lia.
    + rewrite Hdo by done. by apply Hbd.
  - intros x Hx. eapply closed_weaken; [done| |by apply Hcl].
    apply (bi_dom _ _ _ _ _ Hb). unfold l. set_solver.
Qed.

Lemma visits_inv dn cur pc ndc L : ∀ qi q B,
  ns !! cur = Some pc → h !! pc = Some ndc →
  (∀ y m, (y, m) ∈ L → adj ndc !! y = Some m) →
  iinv h ns s dn cur qi B → holds ns qi q →
  ∃ B' new newp,
    foldl (visit pc cur) (B, q) L = (B', q ++ newp) ∧
    iinv h ns s dn cur (qi ++ new) B' ∧ holds ns new newp ∧
    B ⊆ B' ∧ ∀ y m, (y, m) ∈ L → is_Some (B' !! y).
Proof.
  induction L as [|[y m] L IH]; intros qi q B Hcur Hpc HL Hi Hq.
  { exists B, [], []. rewrite !app_nil_r. split_and!; [done..|constructor|done|].
    intros y m Hy. by apply elem_of_nil in Hy. }
  destruct (visit_inv dn cur pc ndc qi q B y m) as (B1 & new1 & newp1 & Hv & Hi1 & Hn1 & Hs1 & Hy1);
    [done|done|apply HL; left|done|done|].
  destruct (IH (qi ++ new1) (q ++ newp1) B1) as (B2 & new2 & newp2 & Hf & Hi2 & Hn2 & Hs2 & Hy2);
    [done|done|intros; apply HL; by right|done|by apply Forall2_app|].
  exists B2, (new1 ++ new2), (newp1 ++ newp2).
  change (foldl (visit pc cur) (B, q) ((y, m) :: L))
    with (foldl (visit pc cur) (visit pc cur (B, q) (y, m)) L).
  rewrite Hv, Hf, !app_assoc.
  split_and!; [done|done|by apply Forall2_app|by etrans|].
  intros y' m' [[= -> ->]|Hin]%elem_of_cons; [|by eapply Hy2].
  destruct Hy1 as [b Hb]. exists b. by eapply lookup_weaken.
Qed.

Lemma bfsIter_inv o dn x p qi q B :
  oinv h ns s dn (x :: qi) B → ns !! x = Some p → holds ns qi q →
  ∃ B' new newp,
    bfsIter o h p q B = Some (B', q ++ newp) ∧
    oinv h ns s (dn ++ [x]) (qi ++ new) B' ∧ holds ns new newp ∧ B ⊆ B'.
Proof.
  intros Ho Hx Hq.
  destruct (wf_node _ _ Hwf x p Hx) as (nd & Hnd & Hid).
  assert (HL : ∀ y m, (y, m) ∈ mapRange o (adj nd) → adj nd !! y = Some m).
  { intros y m Hin. unfold mapRange in Hin. rewrite (pick_perm o) in Hin.
    by apply elem_of_map_to_list in Hin. }
  destruct (visits_inv dn x p nd (mapRange o (adj nd)) qi q B)
    as (B' & new & newp & Hf & [Hb Hbd Hcl] & Hn & Hsub & Hall);
    [done|done|done|by apply oinv_dequeue|done|].
  exists B', new, newp. unfold bfsIter. rewrite Hnd. simpl. rewrite Hid, Hf.
  split_and!; [done| |done|done].
  split; [done|..].
  - intros a y Ha Hy. trans (dep B' x + 1)%Z; [by apply Hbd|].
    assert (dep B' x ≤ dep B' y)%Z; [|lia].
    eapply (StronglySorted_app_1_elem_of _ _ _ x y (bi_sorted _ _ _ _ _ Hb)); [|done].
    apply elem_of_app; right; left.
  - intros a [Ha| ->%list_elem_of_singleton]%elem_of_app; [by apply Hcl|].
    intros y (p' & nd' & Hp' & Hnd' & [m Hm]).
    assert (p' = p) as -> by congruence. assert (nd' = nd) as -> by congruence.
    assert (Hy : is_Some (B' !! y)).
    { apply (Hall y m). unfold mapRange. rewrite (pick_perm o).
      by apply elem_of_map_to_list. }
    split; [done|]. by apply Hbd.
Qed.

Lemma bfsLoop_inv ord fuel : ∀ k dn qi q B n,
  oinv h ns s dn qi B → holds ns qi q →
  (qi = [] → ∃ c, last dn = Some c ∧ ns !! c = Some n) →
  size ns ≤ fuel + length dn →
  ∃ n' B' tl c,
    bfsLoop ord fuel k h q B n = Some (n', B') ∧
    oinv h ns s (dn ++ tl) [] B' ∧
    last (dn ++ tl) = Some c ∧ ns !! c = Some n' ∧
    holds ns tl (bfsTrace ord fuel k h q B).*1 ∧
    (bfsTrace ord fuel k h q B).*1 = q ++ concat (bfsTrace ord fuel k h q B).*2.
Proof.
  induction fuel as [|fuel IH]; intros k dn qi q B n Ho Hq Hn Hfuel.
  - destruct Hq as [|x p qi q Hx Hq].
    + destruct Hn as (c & Hc & Hcn); [done|].
      exists n, B, [], c. rewrite app_nil_r. simpl.
      split_and!; done || constructor.
    + pose proof (binv_length _ _ (oi_binv _ _ _ _ _ _ Ho)) as Hlen.
      rewrite length_app in Hlen. simpl in Hlen. lia.
  - destruct Hq as [|x p qi q Hx Hq].
    + destruct Hn as (c & Hc & Hcn); [done|].
      exists n, B, [], c. rewrite app_nil_r. simpl.
      split_and!; done || constructor.
    + destruct (bfsIter_inv (ord k) dn x p qi q B)
        as (B1 & new & newp & Hit & Ho1 & Hn1 & Hsub); [done..|].
      destruct (IH (S k) (dn ++ [x]) (qi ++ new) (q ++ newp) B1 p)
        as (n' & B' & tl & c & Hloop & Ho' & Hlast & Hc & Htl & Htr);
        [done|by apply Forall2_app| |rewrite length_app; simpl; lia|].
      { intros _. exists x. by rewrite last_snoc. }
      exists n', B', (x :: tl), c. simpl. rewrite Hit. simpl.
      rewrite drop_app_length. rewrite <-app_assoc in Ho', Hlast. simpl in *.
      split_and!; [done..|by constructor|].
      rewrite Htr at 1. by rewrite <-app_assoc.
Qed.

(** Once the queue is empty, every node reached by a walk from [s] is
    discovered, at a depth no larger than the length of the walk. *)
Lemma final_walk dn B k y :
  oinv h ns s dn [] B → walk (edge h ns) s k y →
  is_Some (B !! y) ∧ (dep B y ≤ Z.of_nat k)%Z.
Proof.
  intros [Hb _ Hcl] Hw. rewrite app_nil_r in Hb.
  induction Hw as [|k y z Hw [IH1 IH2] He].
  - destruct (bi_start _ _ _ _ _ Hb) as [? ->]. done.
  - apply (bi_dom _ _ _ _ _ Hb) in IH1. destruct (Hcl y IH1 z He) as [Hz Hle].
    split; [done|lia].
Qed.

Lemma final_shortest dn B y :
  oinv h ns s dn [] B → is_Some (B !! y) → shortest (edge h ns) s y (Z.to_nat (dep B y)).
Proof.
  intros Ho Hy. pose proof (oi_binv _ _ _ _ _ _ Ho) as Hb.
  destruct (bi_walk _ _ _ _ _ Hb y Hy) as [H0 Hw]. split; [done|].
  intros k Hk. destruct (final_walk dn B k y Ho Hk) as [_ Hle]. lia.
Qed.

Lemma final_max dn B c x :
  oinv h ns s dn [] B → last dn = Some c → is_Some (B !! x) → (dep B x ≤ dep B c)%Z.
Proof.
  intros [Hb _ _] Hl Hx. rewrite app_nil_r in Hb.
  apply (bi_dom _ _ _ _ _ Hb) in Hx.
  assert (Hrefl : Reflexive (λ a b, (dep B a ≤ dep B b)%Z)) by (intros a; lia).
  by apply (StronglySorted_last _ dn x c (bi_sorted _ _ _ _ _ Hb)).
Qed.

Lemma final_eccentricity dn B c :
  oinv h ns s dn [] B → last dn = Some c → eccentricity h ns s (dep B c).
Proof.
  intros Ho Hl. pose proof (oi_binv _ _ _ _ _ _ Ho) as Hb. rewrite app_nil_r in Hb.
  assert (Hc : is_Some (B !! c)).
  { apply (bi_dom _ _ _ _ _ Hb). by apply last_Some_elem_of. }
  split.
  - intros y d [Hw Hmin].
    destruct (final_walk dn B d y Ho Hw) as [Hy _].
    destruct (final_shortest dn B y Ho Hy) as [Hw' _].
    apply Hmin in Hw'.
    pose proof (final_max dn B c y Ho Hl Hy).
    destruct (bi_walk _ _ _ _ _ Hb y Hy) as [? _]. lia.
  - exists c, (Z.to_nat (dep B c)). split; [by eapply final_shortest|].
    destruct (bi_walk _ _ _ _ _ Hb c Hc) as [? _]. lia.
Qed.

End bfs.

(** ** One search, from a registered node *)

Lemma get_present (h : store) (ns : gmap nodeID ptr) (i : nodeID) (p : ptr) :
  ns !! i = Some p → get h ns i = (p, h, ns).
Proof. intros Hp. unfold get. by rewrite Hp. Qed.

Lemma holds_inj (h : store) (ns : gmap nodeID ptr) (l : list nodeID) (q : list ptr) :
  wf h ns → holds ns l q → NoDup l → NoDup q.
Proof.
  intros Hwf Hq. induction Hq as [|x p l q Hx Hq IH]; intros Hnd; [constructor|].
  apply NoDup_cons in Hnd as [Hxl Hnd]. apply NoDup_cons. split; [|by apply IH].
  intros Hp. apply Hxl. clear IH Hnd Hxl.
  induction Hq as [|y p' l q Hy Hq IH]; [by apply elem_of_nil in Hp|].
  apply elem_of_cons in Hp as [->|Hp]; [|right; by apply IH].
  destruct (wf_node _ _ Hwf x p' Hx) as (nd & Hnd & <-).
  destruct (wf_node _ _ Hwf y p' Hy) as (nd' & Hnd' & <-).
  assert (nd' = nd) as -> by congruence. left.
Qed.

Lemma holds_last (ns : gmap nodeID ptr) (l : list nodeID) (q : list ptr) (c : nodeID) (p : ptr) :
  holds ns l q → last l = Some c → ns !! c = Some p → last q = Some p.
Proof.
  intros Hq Hl Hc. apply last_Some in Hl as [l' ->].
  apply Forall2_app_inv_l in Hq as (q1 & q2 & _ & Hq2 & ->).
  apply Forall2_cons_inv_l in Hq2 as (p' & q3 & Hp' & Hq3 & ->).
  apply Forall2_nil_inv_l in Hq3 as ->.
  assert (p' = p) as -> by congruence. apply last_snoc.
Qed.

(** Everything the development needs to know about one call of
    [longestShortestPath] from a registered node, with fuel for one dequeue
    per node. *)
Lemma longestShortestPath_run (h : store) (ns : gmap nodeID ptr)
    (ord : nat → rangeOrder) (fuel : nat) (s : nodeID) (ps : ptr) :
  wf h ns → ns !! s = Some ps → size ns ≤ fuel →
  ∃ n' B' nd',
    bfsLoop ord fuel 0 h [ps] (bfsInit ps s) ps = Some (n', B') ∧
    h !! n' = Some nd' ∧
    longestShortestPath ord fuel h ns s = Some (dep B' (id nd'), h, ns) ∧
    last (dequeued ord fuel h ps s) = Some n' ∧
    (∀ x, is_Some (B' !! x) → (dep B' x ≤ dep B' (id nd'))%Z) ∧
    is_Some (B' !! id nd') ∧
    eccentricity h ns s (dep B' (id nd')) ∧
    NoDup (dequeued ord fuel h ps s) ∧
    enqueued ord fuel h ps s = dequeued ord fuel h ps s ∧
    length (dequeued ord fuel h ps s) ≤ size ns.
Proof.
  intros Hwf Hs Hfuel.
  destruct (bfsLoop_inv h ns Hwf s ord fuel 0 [] [s] [ps] (bfsInit ps s) ps)
    as (n' & B' & tl & c & Hloop & Ho & Hlast & Hc & Htl & Htr);
    [by apply binv_init|by repeat constructor|done|simpl; lia|].
  simpl in Ho, Hlast.
  destruct (wf_node _ _ Hwf c n' Hc) as (nd' & Hnd' & Hid).
  destruct (wf_node _ _ Hwf s ps Hs) as (nds & Hnds & Hids).
  pose proof (oi_binv _ _ _ _ _ _ Ho) as Hb. rewrite app_nil_r in Hb.
  exists n', B', nd'. rewrite Hid. unfold dequeued, enqueued.
  split_and!; [done|done|..|by rewrite Htr|].
  - unfold longestShortestPath. rewrite (get_present h ns s ps Hs), Hnds. simpl.
    rewrite Hids, Hloop. simpl. rewrite Hnd'. simpl. by rewrite Hid.
  - by eapply holds_last.
  - intros x Hx. by eapply final_max.
  - apply (bi_dom _ _ _ _ _ Hb). by apply last_Some_elem_of.
  - by eapply final_eccentricity.
  - eapply holds_inj; [done..|apply Hb].
  - rewrite <-(Forall2_length _ _ _ Htl). by eapply binv_length.
Qed.

(** ** Distances *)

Lemma walk_registered (h : store) (ns : gmap nodeID ptr) (x y : nodeID) (k : nat) :
  wf h ns → is_Some (ns !! x) → walk (edge h ns) x k y → is_Some (ns !! y).
Proof.
  intros Hwf Hx Hw. induction Hw as [|k y z Hw IH (p & nd & Hp & Hnd & [m Hm])]; [done|].
  exists m. by eapply wf_adj.
Qed.

Lemma shortest_unique {A} (E : A → A → Prop) (x y : A) (d d' : nat) :
  shortest E x y d → shortest E x y d' → d = d'.
Proof.
  intros [Hw Hm] [Hw' Hm']. apply Hm in Hw'. apply Hm' in Hw. lia.
Qed.

Lemma eccentricity_unique (h : store) (ns : gmap nodeID ptr) (x : nodeID) (e e' : Z) :
  eccentricity h ns x e → eccentricity h ns x e' → e = e'.
Proof.
  intros [Hub (y & d & Hs & ->)] [Hub' (y' & d' & Hs' & ->)].
  apply Hub' in Hs. apply Hub in Hs'. lia.
Qed.

Lemma diam_unique {A} (V : A → Prop) (E : A → A → Prop) (D D' : Z) :
  diam V E D → diam V E D' → D = D'.
Proof.
  intros [Hub Hex] [Hub' Hex'].
  destruct Hex as [(x & y & d & Hx & Hy & Hs & ->)|[Hn ->]],
    Hex' as [(x' & y' & d' & Hx' & Hy' & Hs' & ->)|[Hn' ->]].
  - apply Hub' in Hs; [|done..]. apply Hub in Hs'; [|done..]. lia.
  - by apply Hn' in Hx.
  - by apply Hn in Hx'.
  - done.
Qed.

(** ** The reduction over all start nodes *)

Lemma diameterLoop_spec (h : store) (ns : gmap nodeID ptr) (sch : schedule)
    (fuel : nat) (ids : list (nodeID * ptr)) :
  wf h ns → size ns ≤ fuel →
  (∀ i p, (i, p) ∈ ids → ns !! i = Some p) →
  ∀ acc, ∃ D,
    diameterLoop sch fuel ids acc h ns = Some (D, h, ns) ∧
    (acc ≤ D)%Z ∧
    (∀ i p e, (i, p) ∈ ids → eccentricity h ns i e → (e ≤ D)%Z) ∧
    (D = acc ∨ ∃ i p, (i, p) ∈ ids ∧ eccentricity h ns i D).
Proof.
  intros Hwf Hfuel. induction ids as [|[i p] ids IH]; intros Hids acc.
  { exists acc. split_and!; [done|lia| |by left].
    intros i p e Hi. by apply elem_of_nil in Hi. }
  destruct (longestShortestPath_run h ns (adjOrder sch i) fuel i p)
    as (n' & B' & nd' & _ & _ & Hlsp & _ & _ & _ & Hecc & _); [done|apply Hids; left|done|].
  set (df := dep B' (id nd')) in *.
  destruct (IH (λ j q Hj, Hids j q (list_elem_of_further _ _ _ Hj))
              (if (df >? acc)%Z then df else acc)) as (D & Hrun & Hge & Hub & Hex).
  exists D. simpl. rewrite Hlsp. simpl. split_and!; [done|..].
  - destruct (Z.gtb_spec df acc); lia.
  - intros j q e [[= -> ->]|Hj]%elem_of_cons Hje; [|by eapply Hub].
    rewrite (eccentricity_unique _ _ _ _ _ Hje Hecc).
    destruct (Z.gtb_spec df acc); lia.
  - destruct Hex as [->|(j & q & Hj & Hje)].
    + destruct (Z.gtb_spec df acc); [|by left].
      right. exists i, p. split; [left|done].
    + right. exists j, q. split; [by right|done].
Qed.

(** [diameter] returns the diameter of the represented graph and leaves the
    state as it was. *)
Lemma diameter_spec (h : store) (ns : gmap nodeID ptr) (sch : schedule) (fuel : nat) :
  wf h ns → size ns ≤ fuel →
  ∃ D, diameter sch fuel h ns = Some (D, h, ns) ∧ graphDiameter h ns D.
Proof.
  intros Hwf Hfuel.
  assert (Hids : ∀ i p, (i, p) ∈ mapRange (nodesOrder sch) ns ↔ ns !! i = Some p).
  { intros i p. unfold mapRange. rewrite (pick_perm (nodesOrder sch)).
    apply elem_of_map_to_list. }
  destruct (diameterLoop_spec h ns sch fuel (mapRange (nodesOrder sch) ns) Hwf Hfuel
              (λ i p, proj1 (Hids i p)) 0%Z) as (D & Hrun & Hge & Hub & Hex).
  exists D. split; [done|]. split.
  - intros x y d [p Hx] Hy Hs.
    destruct (longestShortestPath_run h ns (adjOrder sch x) fuel x p)
      as (n' & B' & nd' & _ & _ & _ & _ & _ & _ & Hecc & _); [done..|].
    trans (dep B' (id nd')); [by apply (proj1 Hecc y d)|].
    eapply Hub; [by apply Hids|done].
  - destruct Hex as [->|(i & p & Hi & [_ (y & d & Hs & ->)])].
    + destruct (decide (ns = ∅)) as [->|Hne].
      * right. split; [|done]. intros x [p Hx]. by rewrite lookup_empty in Hx.
      * left. apply map_choose in Hne as (x & p & Hx).
        exists x, x, 0. unfold registered. split_and!; eauto.
        split; [constructor|lia].
    + left. apply Hids in Hi. exists i, y, d. unfold registered. split_and!; eauto.
      eapply walk_registered; [done|eauto|apply Hs].
Qed.

(** ** Graph construction *)

Lemma ninv_wf (h : store) (ns : gmap nodeID ptr) : ninv h ns → wf h ns.
Proof.
  intros Hn. split.
  - apply Hn.
  - intros i p nd j m _ Hp Hm. by eapply ni_adj.
  - apply Hn.
Qed.

Lemma ninv_empty : ninv [] ∅.
Proof.
  split.
  - intros i p Hp. by rewrite lookup_empty in Hp.
  - intros p nd Hp. by rewrite lookup_nil in Hp.
  - intros p nd j m Hp. by rewrite lookup_nil in Hp.
  - intros p nd j m Hp. by rewrite lookup_nil in Hp.
  - intros i [p Hp]. by rewrite lookup_empty in Hp.
Qed.

Lemma get_ninv (h : store) (ns : gmap nodeID ptr) (i : nodeID) :
  ninv h ns → int32_range i →
  ∃ p h' ns',
    get h ns i = (p, h', ns') ∧ ninv h' ns' ∧ ns' !! i = Some p ∧
    (∀ x, registered ns' x ↔ registered ns x ∨ x = i) ∧
    (∀ j q, ns !! j = Some q → ns' !! j = Some q) ∧
    (∀ x y, edge h' ns' x y ↔ edge h ns x y).
Proof.
  intros Hn Hi. unfold get. destruct (ns !! i) as [p|] eqn:Hp.
  { exists p, h, ns. split_and!; try done.
    intros x. unfold registered. split; [by left|]. intros [?| ->]; eauto. }
  set (nw := {| id := i; adj := ∅ |}).
  assert (Hnw : adj nw = ∅) by done.
  assert (Hold : ∀ j q, ns !! j = Some q → j ≠ i ∧ q < length h).
  { intros j q Hq. split; [congruence|].
    destruct (ni_reg _ _ Hn j q Hq) as (nd & Hnd & _). by eapply lookup_lt_Some. }
  assert (Hlk : ∀ q nd, (h ++ [nw]) !! q = Some nd ↔
                        h !! q = Some nd ∨ (q = length h ∧ nd = nw)).
  { intros q nd. rewrite lookup_snoc_Some. split.
    - intros [[_ ?]|[? ?]]; eauto.
    - intros [Hq|[? ?]]; [left|by right]. split; [by eapply lookup_lt_Some|done]. }
  exists (length h), (h ++ [nw]), (<[i:=length h]> ns).
  split_and!; [done| |apply lookup_insert_eq|..].
  - split.
    + intros j q [[<- <-]|[Hne Hq]]%lookup_insert_Some.
      * exists nw. split; [|done]. apply Hlk. by right.
      * destruct (ni_reg _ _ Hn j q Hq) as (nd & Hnd & Hid).
        exists nd. split; [|done]. apply Hlk. by left.
    + intros q nd [Hq|[-> ->]]%Hlk.
      * pose proof (ni_alloc _ _ Hn q nd Hq) as Hr.
        rewrite lookup_insert_ne; [done|]. by destruct (Hold _ _ Hr).
      * apply lookup_insert_eq.
    + intros q nd j m [Hq|[-> ->]]%Hlk Hm; [|by rewrite Hnw, lookup_empty in Hm].
      pose proof (ni_adj _ _ Hn q nd j m Hq Hm) as Hr.
      rewrite lookup_insert_ne; [done|]. by destruct (Hold _ _ Hr).
    + intros q nd j m [Hq|[-> ->]]%Hlk Hm; [|by rewrite Hnw, lookup_empty in Hm].
      destruct (ni_sym _ _ Hn q nd j m Hq Hm) as (nd' & Hnd' & Hback).
      exists nd'. split; [|done]. apply Hlk. by left.
    + intros j [->|[_ Hj]]%lookup_insert_is_Some; [done|]. by apply (ni_range _ _ Hn).
  - intros x. unfold registered. rewrite lookup_insert_is_Some.
    destruct (decide (i = x)); naive_solver.
  - intros j q Hq. rewrite lookup_insert_ne; [done|]. by destruct (Hold _ _ Hq).
  - intros x y. split.
    + intros (q & nd & [[<- <-]|[Hne Hq]]%lookup_insert_Some & Hnd%Hlk & Hy).
      * destruct Hnd as [Hnd|[_ ->]].
        -- apply lookup_lt_Some in Hnd. lia.
        -- destruct Hy as [m Hm]. by rewrite Hnw, lookup_empty in Hm.
      * destruct Hnd as [Hnd|[-> ->]]; [by exists q, nd|].
        destruct (Hold _ _ Hq). lia.
    + intros (q & nd & Hq & Hnd & Hy). exists q, nd. split_and!; [|by apply Hlk; left|done].
      rewrite lookup_insert_ne; [done|]. by destruct (Hold _ _ Hq).
Qed.

Lemma linkAdj_lookup (an bn : ptr) (a b : nodeID) (p : ptr) (m : gmap nodeID ptr)
    (j : nodeID) (q : ptr) :
  linkAdj an bn a b p m !! j = Some q ↔
    (p = bn ∧ j = a ∧ q = an) ∨
    (¬ (p = bn ∧ j = a) ∧
      ((p = an ∧ j = b ∧ q = bn) ∨ (¬ (p = an ∧ j = b) ∧ m !! j = Some q))).
Proof.
  unfold linkAdj. repeat case_decide; rewrite ?lookup_insert_Some; naive_solver.
Qed.

Lemma add_add_lookup (h : store) (an bn : ptr) (na nb : node) :
  h !! an = Some na → h !! bn = Some nb →
  ∃ h', (add h an bn ≫= λ h3, add h3 bn an) = Some h' ∧
    ∀ p, h' !! p =
         (λ nd, {| id := id nd; adj := linkAdj an bn (id na) (id nb) p (adj nd) |}) <$> (h !! p).
Proof.
  intros Ha Hb. unfold add. rewrite Ha, Hb. simpl.
  pose proof (lookup_lt_Some _ _ _ Ha) as Hla.
  pose proof (lookup_lt_Some _ _ _ Hb) as Hlb.
  rewrite list_lookup_insert_eq by done. simpl.
  destruct (decide (an = bn)) as [<-|Hne].
  - rewrite list_lookup_insert_eq by done. simpl.
    eexists. split; [done|]. intros p.
    assert (nb = na) as -> by congruence.
    rewrite list_insert_insert_eq.
    destruct (decide (p = an)) as [->|Hp].
    + rewrite list_lookup_insert_eq, Ha by done. simpl.
      unfold linkAdj. by rewrite !decide_True by done.
    + rewrite list_lookup_insert_ne by done.
      destruct (h !! p) as [nd|]; [|done]. simpl.
      unfold linkAdj. rewrite !decide_False by done. by destruct nd.
  - rewrite list_lookup_insert_ne, Hb by done. simpl.
    eexists. split; [done|]. intros p.
    destruct (decide (p = bn)) as [->|Hpb].
    + rewrite list_lookup_insert_eq by (by rewrite length_insert).
      rewrite Hb. simpl. unfold linkAdj.
      repeat case_decide; congruence.
    + rewrite list_lookup_insert_ne by done.
      destruct (decide (p = an)) as [->|Hpa].
      * rewrite list_lookup_insert_eq, Ha by done. simpl. unfold linkAdj.
        repeat case_decide; congruence.
      * rewrite list_lookup_insert_ne by done.
        destruct (h !! p) as [nd|]; [|done]. simpl.
        unfold linkAdj. rewrite !decide_False by done. by destruct nd.
Qed.

Lemma linkAdj_is_Some (an bn : ptr) (a b : nodeID) (p : ptr) (m : gmap nodeID ptr)
    (j : nodeID) :
  is_Some (linkAdj an bn a b p m !! j) ↔
    (p = bn ∧ j = a) ∨ (p = an ∧ j = b) ∨ is_Some (m !! j).
Proof.
  unfold linkAdj. repeat case_decide; rewrite ?lookup_insert_is_Some;
    destruct (decide (a = j)); destruct (decide (b = j)); naive_solver.
Qed.

Lemma link_ninv (h : store) (ns : gmap nodeID ptr) (a b : nodeID) (an bn : ptr) :
  ninv h ns → ns !! a = Some an → ns !! b = Some bn →
  ∃ h', (add h an bn ≫= λ h3, add h3 bn an) = Some h' ∧ ninv h' ns ∧
    (∀ x y, edge h' ns x y ↔ edge h ns x y ∨ (x = a ∧ y = b) ∨ (x = b ∧ y = a)).
Proof.
  intros Hn Ha Hb.
  destruct (ni_reg _ _ Hn a an Ha) as (na & Hna & Hida).
  destruct (ni_reg _ _ Hn b bn Hb) as (nb & Hnb & Hidb).
  destruct (add_add_lookup h an bn na nb Hna Hnb) as (h' & Hadd & Hlk).
  rewrite Hida, Hidb in Hlk.
  assert (Hnew : ∀ p nd', h' !! p = Some nd' ↔
    ∃ nd, h !! p = Some nd ∧ id nd' = id nd ∧ adj nd' = linkAdj an bn a b p (adj nd)).
  { intros p nd'. rewrite Hlk, fmap_Some. split.
    - intros (nd & Hnd & ->). by exists nd.
    - intros (nd & Hnd & Hi & Hadj). exists nd. split; [done|]. destruct nd'; simpl in *. by subst. }
  assert (Hfwd : ∀ p nd, h !! p = Some nd →
    h' !! p = Some {| id := id nd; adj := linkAdj an bn a b p (adj nd) |}).
  { intros p nd Hp. by rewrite Hlk, Hp. }
  assert (Hpa : ∀ p nd, h !! p = Some nd → (p = an ↔ id nd = a)).
  { intros p nd Hp. split; [intros ->; congruence|].
    intros Hi. apply (ni_alloc _ _ Hn) in Hp. congruence. }
  assert (Hpb : ∀ p nd, h !! p = Some nd → (p = bn ↔ id nd = b)).
  { intros p nd Hp. split; [intros ->; congruence|].
    intros Hi. apply (ni_alloc _ _ Hn) in Hp. congruence. }
  exists h'. split; [done|]. split; [split|].
  - intros i p Hp. destruct (ni_reg _ _ Hn i p Hp) as (nd & Hnd & Hid).
    eexists. split; [by apply Hfwd|done].
  - intros p nd' (nd & Hnd & -> & _)%Hnew. by apply (ni_alloc _ _ Hn).
  - intros p nd' j m (nd & Hnd & _ & Hadj)%Hnew. rewrite Hadj, linkAdj_lookup.
    intros [(_ & -> & ->)|[_ [(_ & -> & ->)|[_ Hm]]]]; [done..|].
    by eapply ni_adj.
  - intros p nd' j m (nd & Hnd & Hid & Hadj)%Hnew. rewrite Hadj, linkAdj_lookup, Hid.
    pose proof (Hpa p nd Hnd) as Hpa1. pose proof (Hpb p nd Hnd) as Hpb1.
    intros [(Hp & -> & ->)|[Hn1 [(Hp & -> & ->)|[Hn2 Hm]]]].
    + eexists. split; [by apply Hfwd|]. simpl.
      apply linkAdj_lookup. destruct (decide (an = bn)); naive_solver.
    + eexists. split; [by apply Hfwd|]. simpl.
      apply linkAdj_lookup. destruct (decide (an = bn)); naive_solver.
    + destruct (ni_sym _ _ Hn p nd j m Hnd Hm) as (nd2 & Hnd2 & Hback).
      eexists. split; [by apply Hfwd|]. simpl.
      apply linkAdj_lookup.
      destruct (decide (m = bn ∧ id nd = a)) as [[-> Hia]|Hc1]; [left; naive_solver|].
      right. split; [done|].
      destruct (decide (m = an ∧ id nd = b)) as [[-> Hib]|Hc2]; [left; naive_solver|].
      by right.
  - apply Hn.
  - intros x y. split.
    + intros (p & nd' & Hp & (nd & Hnd & Hid & Hadj)%Hnew & Hy).
      rewrite Hadj, linkAdj_is_Some in Hy.
      destruct (ni_reg _ _ Hn x p Hp) as (nd0 & Hnd0 & Hidx).
      assert (nd0 = nd) as -> by congruence.
      destruct Hy as [[-> ->]|[[-> ->]|Hy]].
      * right; right. split; [|done]. congruence.
      * right; left. split; [|done]. congruence.
      * left. by exists p, nd.
    + intros [(p & nd & Hp & Hnd & Hy)|[[-> ->]|[-> ->]]].
      * eexists p, _. split; [done|]. split; [by apply Hfwd|]. simpl.
        apply linkAdj_is_Some. eauto.
      * eexists an, _. split; [done|]. split; [by apply Hfwd|]. simpl.
        apply linkAdj_is_Some. eauto.
      * eexists bn, _. split; [done|]. split; [by apply Hfwd|]. simpl.
        apply linkAdj_is_Some. eauto.
Qed.

Lemma nodes_addEdge_spec (h : store) (ns : gmap nodeID ptr) (a b : nodeID) :
  ninv h ns → int32_range a → int32_range b →
  ∃ h' ns',
    nodes_addEdge h ns a b = Some (h', ns') ∧ ninv h' ns' ∧
    (∀ x, registered ns' x ↔ registered ns x ∨ x = a ∨ x = b) ∧
    (∀ j q, ns !! j = Some q → ns' !! j = Some q) ∧
    (∀ x y, edge h' ns' x y ↔ edge h ns x y ∨ (x = a ∧ y = b) ∨ (x = b ∧ y = a)).
Proof.
  intros Hn Ha Hb.
  destruct (get_ninv h ns a Hn Ha) as (an & h1 & ns1 & Hg1 & Hn1 & Han & Hr1 & Hk1 & He1).
  destruct (get_ninv h1 ns1 b Hn1 Hb) as (bn & h2 & ns2 & Hg2 & Hn2 & Hbn & Hr2 & Hk2 & He2).
  destruct (link_ninv h2 ns2 a b an bn Hn2 (Hk2 _ _ Han) Hbn) as (h' & Hadd & Hn' & He').
  exists h', ns2. unfold nodes_addEdge. rewrite Hg1, Hg2.
  split_and!.
  - unfold mbind, option_bind in *. destruct (add h2 an bn) as [h3|]; [|done].
    destruct (add h3 bn an); [|done]. congruence.
  - done.
  - intros x. rewrite Hr2, Hr1. tauto.
  - eauto.
  - intros x y. by rewrite He', He2, He1.
Qed.

Lemma int32_in_range (x : Z) : int32_range (int32 x).
Proof.
  unfold int32_range, int32.
  pose proof (Z.mod_pos_bound (x + 2147483648) 4294967296). lia.
Qed.

Lemma getID_spec (s : gmap nodeName nodeID) (a : nodeName) :
  ∃ i s', getID s a = (i, s') ∧ s' = <[a:=i]> s ∧ s ⊆ s' ∧
    (s !! a = Some i ∨ (s !! a = None ∧ i = int32 (Z.of_nat (size s)))).
Proof.
  unfold getID. destruct (s !! a) as [i|] eqn:Ha.
  - exists i, s. split_and!; [done|by rewrite insert_id|done|by left].
  - eexists _, _. split_and!; [done|done|by apply insert_subseteq|by right].
Qed.

Lemma addEdge_spec (h : store) (g : Graph) (a b : nodeName) :
  ginv h g →
  ∃ h' g' ia ib,
    addEdge (h, g) a b = Some (h', g') ∧ ginv h' g' ∧
    symbolTable g' = <[b:=ib]> (<[a:=ia]> (symbolTable g)) ∧
    symbolTable g ⊆ symbolTable g' ∧
    symbolTable g' !! a = Some ia ∧ symbolTable g' !! b = Some ib ∧
    (symbolTable g !! a = Some ia ∨
       (symbolTable g !! a = None ∧ ia = int32 (Z.of_nat (size (symbolTable g))))) ∧
    (<[a:=ia]> (symbolTable g) !! b = Some ib ∨
       (<[a:=ia]> (symbolTable g) !! b = None ∧
        ib = int32 (Z.of_nat (size (<[a:=ia]> (symbolTable g)))))) ∧
    (∀ x, registered (nodes g') x ↔ registered (nodes g) x ∨ x = ia ∨ x = ib) ∧
    (∀ j q, nodes g !! j = Some q → nodes g' !! j = Some q) ∧
    (∀ x y, edge h' (nodes g') x y ↔
            edge h (nodes g) x y ∨ (x = ia ∧ y = ib) ∨ (x = ib ∧ y = ia)).
Proof.
  intros [Hn Htab Hnamed].
  destruct (getID_spec (symbolTable g) a) as (ia & s1 & Hg1 & -> & Hsub1 & Hia).
  destruct (getID_spec (<[a:=ia]> (symbolTable g)) b) as (ib & s2 & Hg2 & -> & Hsub2 & Hib).
  assert (Hra : int32_range ia).
  { destruct Hia as [Hia|[_ ->]]; [|apply int32_in_range].
    by apply (ni_range _ _ Hn), (Htab a). }
  assert (Hrb : int32_range ib).
  { destruct Hib as [Hib|[_ ->]]; [|apply int32_in_range].
    apply lookup_insert_Some in Hib as [[_ <-]|[_ Hib]]; [done|].
    by apply (ni_range _ _ Hn), (Htab b). }
  destruct (nodes_addEdge_spec h (nodes g) ia ib Hn Hra Hrb)
    as (h' & ns' & Hadd & Hn' & Hreg & Hkeep & Hedge).
  exists h', {| symbolTable := <[b:=ib]> (<[a:=ia]> (symbolTable g)); nodes := ns' |}, ia, ib.
  assert (Hla : <[b:=ib]> (<[a:=ia]> (symbolTable g)) !! a = Some ia).
  { eapply lookup_weaken; [|done]. apply lookup_insert_eq. }
  simpl. split_and!; try done.
  - rewrite Hg1, Hg2, Hadd. done.
  - split; simpl.
    + done.
    + intros c i [[_ <-]|[_ [[_ <-]|[_ Hc]]%lookup_insert_Some]]%lookup_insert_Some;
        apply Hreg; eauto.
    + intros i [Hi|[->| ->]]%Hreg.
      * destruct (Hnamed i Hi) as (c & Hc). exists c.
        eapply lookup_weaken; [done|]. by etrans.
      * by exists a.
      * exists b. apply lookup_insert_eq.
  - by etrans.
  - apply lookup_insert_eq.
Qed.

Lemma ginv_New : ginv New.1 New.2.
Proof.
  split; simpl.
  - apply ninv_empty.
  - intros a i Ha. by rewrite lookup_empty in Ha.
  - intros i [p Hp]. by rewrite lookup_empty in Hp.
Qed.

Lemma build_ginv (e : list (nodeName * nodeName)) : ∀ h g,
  ginv h g → ∃ h' g', build (h, g) e = Some (h', g') ∧ ginv h' g'.
Proof.
  induction e as [|[a b] e IH]; intros h g Hg; [by exists h, g|].
  destruct (addEdge_spec h g a b Hg) as (h1 & g1 & ia & ib & Hadd & Hg1 & _).
  destruct (IH h1 g1 Hg1) as (h' & g' & Hb & Hg').
  exists h', g'. split; [|done].
  change (build (h, g) ((a, b) :: e)) with (addEdge (h, g) a b ≫= λ w', build w' e).
  by rewrite Hadd.
Qed.

Lemma build_New_ginv (e : list (nodeName * nodeName)) (h : store) (g : Graph) :
  build New e = Some (h, g) → ginv h g.
Proof.
  intros Hb. destruct (build_ginv e _ _ ginv_New) as (h' & g' & Hb' & Hg).
  change (New.1, New.2) with New in Hb'. congruence.
Qed.

Lemma build_New_wf (e : list (nodeName * nodeName)) (h : store) (g : Graph) :
  build New e = Some (h, g) → wf h (nodes g).
Proof. intros Hb. by apply ninv_wf, (gi_nodes _ _ (build_New_ginv e h g Hb)). Qed.

Lemma build_total (e : list (nodeName * nodeName)) : ∃ h g, build New e = Some (h, g).
Proof.
  destruct (build_ginv e _ _ ginv_New) as (h & g & Hb & _). by exists h, g.
Qed.

(** ** The state is left alone *)

Lemma longestShortestPath_state (ord : nat → rangeOrder) (fuel : nat) (h : store)
    (ns : gmap nodeID ptr) (s : nodeID) (r : Z) (h' : store) (ns' : gmap nodeID ptr) :
  registered ns s →
  longestShortestPath ord fuel h ns s = Some (r, h', ns') → h' = h ∧ ns' = ns.
Proof.
  intros [p Hp]. unfold longestShortestPath. rewrite (get_present h ns s p Hp).
  intros Hr. destruct (h !! p) as [nd|]; [|done]. simpl in Hr.
  destruct (bfsLoop _ _ _ _ _ _ _) as [[n' B']|]; [|done]. simpl in Hr.
  destruct (h !! n') as [nd'|]; [|done]. simpl in Hr. by injection Hr as _ <- <-.
Qed.

Lemma diameterLoop_state (sch : schedule) (fuel : nat) (ids : list (nodeID * ptr)) :
  ∀ acc h ns r h' ns',
  (∀ i p, (i, p) ∈ ids → registered ns i) →
  diameterLoop sch fuel ids acc h ns = Some (r, h', ns') → h' = h ∧ ns' = ns.
Proof.
  induction ids as [|[i p] ids IH]; intros acc h ns r h' ns' Hids Hr; simpl in Hr.
  { by injection Hr as _ <- <-. }
  destruct (longestShortestPath _ _ _ _ _) as [[[df h1] ns1]|] eqn:Hlsp; [|done].
  simpl in Hr.
  apply longestShortestPath_state in Hlsp as [-> ->]; [|eapply Hids; left].
  eapply IH; [|done]. intros j q Hj. eapply Hids. by right.
Qed.

Lemma diameter_state (sch : schedule) (fuel : nat) (h : store) (ns : gmap nodeID ptr)
    (r : Z) (h' : store) (ns' : gmap nodeID ptr) :
  diameter sch fuel h ns = Some (r, h', ns') → h' = h ∧ ns' = ns.
Proof.
  apply diameterLoop_state. intros i p Hi. unfold mapRange in Hi.
  rewrite (pick_perm (nodesOrder sch)) in Hi.
  apply elem_of_map_to_list in Hi. by exists p.
Qed.

Lemma diameter_empty (sch : schedule) (fuel : nat) (h : store) :
  diameter sch fuel h ∅ = Some (0%Z, h, ∅).
Proof.
  unfold diameter, mapRange. rewrite map_to_list_empty.
  pose proof (pick_perm (nodesOrder sch) []) as Hp.
  apply Permutation_nil_r in Hp. by rewrite Hp.
Qed.

(** The value of [diameter] does not depend on the iteration orders. *)
Lemma diameter_order_irrelevant (h : store) (ns : gmap nodeID ptr)
    (sch sch' : schedule) (fuel fuel' : nat) (D : Z) :
  wf h ns → size ns ≤ fuel → size ns ≤ fuel' →
  diameter sch fuel h ns = Some (D, h, ns) →
  diameter sch' fuel' h ns = Some (D, h, ns).
Proof.
  intros Hwf Hf Hf' Hd.
  destruct (diameter_spec h ns sch fuel Hwf Hf) as (D1 & Hd1 & HD1).
  destruct (diameter_spec h ns sch' fuel' Hwf Hf') as (D2 & Hd2 & HD2).
  rewrite Hd2. assert (D1 = D) as -> by congruence.
  by rewrite (diam_unique _ _ _ _ HD1 HD2).
Qed.

Lemma buildDiameter_order_irrelevant (e : list (nodeName * nodeName))
    (sch : schedule) (fuel : nat) (D : Z) :
  buildDiameter idSchedule (2 * length e) e = Some D →
  (∀ h g, build New e = Some (h, g) → size (nodes g) ≤ 2 * length e ∧ size (nodes g) ≤ fuel) →
  buildDiameter sch fuel e = Some D.
Proof.
  unfold buildDiameter. generalize (2 * length e). intros N Hd Hsz.
  destruct (build New e) as [[h g]|] eqn:Hb; [|done]. simpl in *.
  destruct (Hsz h g eq_refl) as [Hs1 Hs2].
  pose proof (build_New_wf e h g Hb) as Hwf.
  destruct (diameter_spec h (nodes g) idSchedule N Hwf Hs1) as (D1 & Hd1 & _).
  rewrite Hd1 in Hd. simpl in Hd. injection Hd as ->.
  by rewrite (diameter_order_irrelevant h (nodes g) _ sch _ fuel D Hwf Hs1 Hs2 Hd1).
Qed.

(** ** Inserting an edge again *)

Lemma edge_sym (h : store) (ns : gmap nodeID ptr) (x y : nodeID) :
  ninv h ns → edge h ns x y → edge h ns y x.
Proof.
  intros Hn (p & nd & Hp & Hnd & [m Hm]).
  destruct (ni_sym _ _ Hn p nd y m Hnd Hm) as (nd' & Hnd' & Hback).
  destruct (ni_reg _ _ Hn x p Hp) as (nd0 & Hnd0 & Hid).
  assert (nd0 = nd) as -> by congruence.
  exists m, nd'. split_and!; [by eapply ni_adj|done|]. rewrite <-Hid. eauto.
Qed.

Lemma build_cons (w : store * Graph) (a b : nodeName) (e : list (nodeName * nodeName)) :
  build w ((a, b) :: e) = addEdge w a b ≫= λ w', build w' e.
Proof. done. Qed.

Lemma build_app (e1 e2 : list (nodeName * nodeName)) : ∀ w,
  build w (e1 ++ e2) = build w e1 ≫= λ w', build w' e2.
Proof.
  induction e1 as [|[a b] e1 IH]; intros w; [done|].
  simpl. destruct (addEdge w a b) as [w'|]; [|done]. simpl. apply IH.
Qed.

Lemma addEdge_present (h : store) (g : Graph) (a b : nodeName) (h' : store) (g' : Graph) :
  ginv h g → addEdge (h, g) a b = Some (h', g') → present h' g' a b.
Proof.
  intros Hg Hadd.
  destruct (addEdge_spec h g a b Hg)
    as (h1 & g1 & ia & ib & Hadd1 & _ & _ & _ & Ha & Hb & _ & _ & _ & _ & He).
  assert (h1 = h' ∧ g1 = g') as [-> ->] by (split; congruence).
  exists ia, ib. split_and!; [done..|]. apply He. right; left. done.
Qed.

Lemma addEdge_keeps_present (h : store) (g : Graph) (c d a b : nodeName)
    (h' : store) (g' : Graph) :
  ginv h g → addEdge (h, g) c d = Some (h', g') → present h g a b → present h' g' a b.
Proof.
  intros Hg Hadd (ia & ib & Ha & Hb & Hedge).
  destruct (addEdge_spec h g c d Hg)
    as (h1 & g1 & ic & id' & Hadd1 & _ & _ & Hsub & _ & _ & _ & _ & _ & _ & He).
  assert (h1 = h' ∧ g1 = g') as [-> ->] by (split; congruence).
  exists ia, ib. split_and!; [by eapply lookup_weaken..|]. apply He. by left.
Qed.

Lemma build_keeps_present (e : list (nodeName * nodeName)) (a b : nodeName) :
  ∀ h g h' g', ginv h g → build (h, g) e = Some (h', g') →
    present h g a b → present h' g' a b.
Proof.
  induction e as [|[c d] e IH]; intros h g h' g' Hg Hb Hp.
  { simpl in Hb. by injection Hb as <- <-. }
  destruct (addEdge_spec h g c d Hg) as (h1 & g1 & ic & id' & Hadd1 & Hg1 & _).
  change (build (h, g) ((c, d) :: e)) with (addEdge (h, g) c d ≫= λ w', build w' e) in Hb.
  rewrite Hadd1 in Hb. simpl in Hb.
  apply (IH h1 g1); [done..|]. by apply (addEdge_keeps_present h g c d a b h1 g1).
Qed.

Lemma add_known (h : store) (ns : gmap nodeID ptr) (x y : nodeID) (px py : ptr) :
  ninv h ns → ns !! x = Some px → ns !! y = Some py → edge h ns x y →
  add h px py = Some h.
Proof.
  intros Hn Hx Hy (p & nd & Hp & Hnd & [m Hm]).
  assert (p = px) as -> by congruence.
  destruct (ni_reg _ _ Hn y py Hy) as (ndy & Hndy & Hidy).
  pose proof (ni_adj _ _ Hn px nd y m Hnd Hm) as Hm'.
  assert (m = py) as -> by congruence.
  unfold add. rewrite Hndy, Hnd. simpl. rewrite Hidy.
  rewrite (insert_id (adj nd)) by done.
  destruct nd as [i ad]. simpl. by rewrite list_insert_id.
Qed.

Lemma addEdge_again (h : store) (g : Graph) (a b : nodeName) :
  ginv h g → present h g a b → addEdge (h, g) a b = Some (h, g).
Proof.
  intros Hg (ia & ib & Ha & Hb & Hedge).
  pose proof (gi_nodes _ _ Hg) as Hn.
  destruct (gi_tab _ _ Hg a ia Ha) as [pa Hpa].
  destruct (gi_tab _ _ Hg b ib Hb) as [pb Hpb].
  unfold addEdge, getID. rewrite Ha, Hb.
  unfold nodes_addEdge. rewrite (get_present _ _ _ _ Hpa), (get_present _ _ _ _ Hpb).
  rewrite (add_known h (nodes g) ia ib pa pb) by done. simpl.
  rewrite (add_known h (nodes g) ib ia pb pa) by (done || by apply edge_sym).
  simpl. by destruct g.
Qed.

(** Building [e1], then the edge [(a, b)], then [e2], gives a state in which
    inserting [(a, b)] once more changes nothing at all. *)
Lemma build_again (e1 e2 : list (nodeName * nodeName)) (a b : nodeName) :
  ∃ h g, build New (e1 ++ (a, b) :: e2) = Some (h, g) ∧ ginv h g ∧
         addEdge (h, g) a b = Some (h, g).
Proof.
  destruct (build_ginv e1 _ _ ginv_New) as (h1 & g1 & Hb1 & Hg1).
  change (New.1, New.2) with New in Hb1.
  destruct (addEdge_spec h1 g1 a b Hg1) as (h2 & g2 & ia & ib & Hadd & Hg2 & _).
  destruct (build_ginv e2 _ _ Hg2) as (h & g & Hb2 & Hg).
  exists h, g. split_and!; [|done|].
  - rewrite build_app, Hb1.
    change (build (h1, g1) ((a, b) :: e2) = Some (h, g)).
    by rewrite build_cons, Hadd.
  - apply addEdge_again; [done|].
    apply (build_keeps_present e2 a b h2 g2); [done..|]. by apply (addEdge_present h1 g1 a b h2 g2).
Qed.

(** ** Graphs that differ by edges *)

Lemma walk_mono {A} (E E' : A → A → Prop) (x y : A) (k : nat) :
  (∀ u v, E u v → E' u v) → walk E x k y → walk E' x k y.
Proof.
  intros Hsub Hw. induction Hw as [|k y z Hw IH He]; [constructor|].
  econstructor; [done|]. by apply Hsub.
Qed.

Lemma walk_drop_loops {A} (E E' : A → A → Prop) (x y : A) (k : nat) :
  (∀ u v, E' u v → E u v ∨ u = v) → walk E' x k y →
  ∃ k', k' ≤ k ∧ walk E x k' y.
Proof.
  intros Hl Hw. induction Hw as [|k y z Hw (k' & Hle & IH) He].
  { exists 0. split; [done|constructor]. }
  destruct (Hl y z He) as [He'| ->].
  - exists (S k'). split; [lia|]. by econstructor.
  - exists k'. split; [lia|done].
Qed.

Lemma shortest_loops {A} (E E' : A → A → Prop) (x y : A) (d : nat) :
  (∀ u v, E u v → E' u v) → (∀ u v, E' u v → E u v ∨ u = v) →
  shortest E' x y d ↔ shortest E x y d.
Proof.
  intros Hsub Hl. split; intros [Hw Hmin].
  - destruct (walk_drop_loops E E' x y d Hl Hw) as (k' & Hle & Hw').
    pose proof (Hmin k' (walk_mono E E' x y k' Hsub Hw')) as Hge.
    assert (k' = d) as -> by lia. split; [done|].
    intros k Hk. apply Hmin. by eapply walk_mono.
  - split; [by eapply walk_mono|].
    intros k Hk. destruct (walk_drop_loops E E' x y k Hl Hk) as (k' & Hle & Hw').
    apply Hmin in Hw'. lia.
Qed.

Lemma diam_ext {A} (V V' : A → Prop) (E E' : A → A → Prop) (D : Z) :
  (∀ x, V x ↔ V' x) → (∀ x y d, shortest E x y d ↔ shortest E' x y d) →
  diam V E D → diam V' E' D.
Proof.
  intros HV HS [Hub Hex]. split.
  - intros x y d Hx Hy Hs. apply (Hub x y d); [by apply HV..|by apply HS].
  - destruct Hex as [(x & y & d & Hx & Hy & Hs & ->)|[Hn ->]].
    + left. exists x, y, d. split_and!; [by apply HV..|by apply HS|done].
    + right. split; [|done]. intros x Hx. apply (Hn x). by apply HV.
Qed.

Lemma diam_nonneg {A} (V : A → Prop) (E : A → A → Prop) (D : Z) :
  diam V E D → (0 ≤ D)%Z.
Proof. intros [_ [(x & y & d & _ & _ & _ & ->)|[_ ->]]]; lia. Qed.

(** A node reached by some walk has a shortest-path distance: the search
    from [x] finds it. *)
Lemma shortest_exists (h : store) (ns : gmap nodeID ptr) (x y : nodeID) (k : nat) :
  wf h ns → registered ns x → walk (edge h ns) x k y →
  ∃ d, shortest (edge h ns) x y d.
Proof.
  intros Hwf [p Hp] Hw.
  destruct (bfsLoop_inv h ns Hwf x (λ _, idOrder) (size ns) 0 [] [x] [p] (bfsInit p x) p)
    as (n' & B' & tl & c & _ & Ho & _);
    [by apply binv_init|by repeat constructor|done|simpl; lia|].
  simpl in Ho. destruct (final_walk h ns x tl B' k y Ho Hw) as [Hy _].
  eexists. by eapply final_shortest.
Qed.

(** On a connected graph, more edges on the same nodes give a diameter that
    is no larger. *)
Lemma graphDiameter_more_edges (h h' : store) (ns ns' : gmap nodeID ptr) (D D' : Z) :
  wf h ns → connectedGraph h ns →
  (∀ x, registered ns' x ↔ registered ns x) →
  (∀ x y, edge h ns x y → edge h' ns' x y) →
  graphDiameter h ns D → graphDiameter h' ns' D' → (D' ≤ D)%Z.
Proof.
  intros Hwf Hconn Hreg Hsub HD HD'.
  destruct HD' as [_ [(x & y & d' & Hx & Hy & [Hw' Hmin'] & ->)|[_ ->]]];
    [|by eapply diam_nonneg].
  apply Hreg in Hx, Hy. destruct (Hconn x y Hx Hy) as [k Hk].
  destruct (shortest_exists h ns x y k Hwf Hx Hk) as [d Hd].
  pose proof (proj1 HD x y d Hx Hy Hd) as Hle.
  destruct Hd as [Hw _]. apply (walk_mono _ (edge h' ns')) in Hw; [|done].
  apply Hmin' in Hw. lia.
Qed.

Lemma walk_trans {A} (E : A → A → Prop) (x y z : A) (k l : nat) :
  walk E x k y → walk E y l z → walk E x (k + l) z.
Proof.
  intros Hxy Hyz. induction Hyz as [|l z w Hyz IH He].
  - by rewrite Nat.add_0_r.
  - rewrite Nat.add_succ_r. by econstructor.
Qed.

Lemma connected_trans {A} (E : A → A → Prop) (x y z : A) :
  connected E x y → connected E y z → connected E x z.
Proof. intros [k Hk] [l Hl]. exists (k + l). by eapply walk_trans. Qed.

Lemma connected_mono {A} (E E' : A → A → Prop) (x y : A) :
  (∀ u v, E u v → E' u v) → connected E x y → connected E' x y.
Proof. intros Hsub [k Hk]. exists k. by eapply walk_mono. Qed.

Lemma connected_edge {A} (E : A → A → Prop) (x y : A) : E x y → connected E x y.
Proof. intros He. exists 1. econstructor; [constructor|done]. Qed.

(** An edge with an endpoint that is already a node (or the first edge of
    all) keeps the graph connected. *)
Lemma addEdge_connected (h : store) (g : Graph) (a b : nodeName) (h' : store) (g' : Graph) :
  ginv h g → connectedGraph h (nodes g) →
  is_Some (symbolTable g !! a) ∨ is_Some (symbolTable g !! b) ∨ nodes g = ∅ →
  addEdge (h, g) a b = Some (h', g') → connectedGraph h' (nodes g').
Proof.
  intros Hg Hconn Hcase Hadd.
  destruct (addEdge_spec h g a b Hg)
    as (h1 & g1 & ia & ib & Hadd1 & _ & _ & _ & _ & _ & Hia & Hib & Hreg & _ & He).
  assert (h1 = h' ∧ g1 = g') as [-> ->] by (split; congruence).
  set (E' := edge h' (nodes g')).
  assert (Hsub : ∀ u v, edge h (nodes g) u v → E' u v) by (intros; apply He; by left).
  assert (Hab : E' ia ib) by (apply He; right; by left).
  assert (Hba : E' ib ia) by (apply He; right; by right).
  assert (Hanchor : ∃ c, (c = ia ∨ c = ib) ∧
    ∀ x, registered (nodes g) x → connected E' c x ∧ connected E' x c).
  { destruct Hcase as [[i Ha]|[[i Hb]|Hemp]].
    - exists ia. split; [by left|]. intros x Hx.
      assert (registered (nodes g) ia).
      { destruct Hia as [Hia|[Hia _]]; [by eapply gi_tab|congruence]. }
      split; eapply connected_mono; eauto.
    - exists ib. split; [by right|]. intros x Hx.
      assert (registered (nodes g) ib).
      { destruct Hib as [Hib|[Hib _]].
        - apply lookup_insert_Some in Hib as [[-> <-]|[_ Hib]]; [|by eapply gi_tab].
          destruct Hia as [Hia|[Hia _]]; [by eapply gi_tab|congruence].
        - apply lookup_insert_None in Hib as [Hib _]. congruence. }
      split; eapply connected_mono; eauto.
    - exists ia. split; [by left|]. intros x [p Hx]. rewrite Hemp in Hx.
      by rewrite lookup_empty in Hx. }
  destruct Hanchor as (c & Hc & Hreach).
  assert (Hall : ∀ x, registered (nodes g') x → connected E' c x ∧ connected E' x c).
  { intros x [Hx|[->| ->]]%Hreg; [by apply Hreach|..].
    - destruct Hc as [->| ->]; [split; by exists 0; constructor|].
      split; by apply connected_edge.
    - destruct Hc as [->| ->]; [|split; by exists 0; constructor].
      split; by apply connected_edge. }
  intros x y Hx Hy. eapply connected_trans; [apply (Hall x Hx)|apply (Hall y Hy)].
Qed.

Lemma build_snoc (e : list (nodeName * nodeName)) (a b : nodeName) (w : store * Graph) :
  build New e = Some w → build New (e ++ [(a, b)]) = addEdge w a b.
Proof.
  intros Hb. rewrite build_app, Hb.
  change (build w [(a, b)] = addEdge w a b). rewrite build_cons.
  by destruct (addEdge w a b).
Qed.

Lemma build_snoc_connected (e : list (nodeName * nodeName)) (a b : nodeName)
    (h : store) (g : Graph) (h' : store) (g' : Graph) :
  build New e = Some (h, g) → connectedGraph h (nodes g) →
  is_Some (symbolTable g !! a) ∨ is_Some (symbolTable g !! b) ∨ nodes g = ∅ →
  build New (e ++ [(a, b)]) = Some (h', g') → connectedGraph h' (nodes g').
Proof.
  intros Hb Hconn Hcase Hb'. rewrite (build_snoc e a b _ Hb) in Hb'.
  eapply addEdge_connected; [by eapply build_New_ginv|done..].
Qed.

Lemma New_connected : connectedGraph New.1 (nodes New.2).
Proof. intros x y [p Hx]. simpl in Hx. by rewrite lookup_empty in Hx. Qed.

(** ** Self-adjacency *)

Lemma withoutSelfAdj_spec (h : store) (ns : gmap nodeID ptr) (ia : nodeID) (pa : ptr) :
  wf h ns → ns !! ia = Some pa →
  wf (withoutSelfAdj h pa) ns ∧
  ∀ x y, edge (withoutSelfAdj h pa) ns x y ↔ edge h ns x y ∧ ¬ (x = ia ∧ y = ia).
Proof.
  intros Hwf Hia. destruct (wf_node _ _ Hwf ia pa Hia) as (na & Hna & Hid).
  unfold withoutSelfAdj. rewrite Hna, Hid.
  set (nw := {| id := ia; adj := delete ia (adj na) |}).
  assert (Hnw : adj nw = delete ia (adj na)) by done.
  pose proof (lookup_lt_Some _ _ _ Hna) as Hlt.
  assert (Hlk : ∀ p nd, <[pa:=nw]> h !! p = Some nd ↔
                        (p = pa ∧ nd = nw) ∨ (p ≠ pa ∧ h !! p = Some nd)).
  { intros p nd. rewrite list_lookup_insert_Some. naive_solver. }
  assert (Hpa : ∀ x, ns !! x = Some pa → x = ia).
  { intros x Hx. destruct (wf_node _ _ Hwf x pa Hx) as (nd & Hnd & <-). congruence. }
  split; [split|].
  - intros i p Hp. destruct (decide (p = pa)) as [->|Hne].
    + exists nw. split; [apply Hlk; by left|]. by rewrite (Hpa i Hp).
    + destruct (wf_node _ _ Hwf i p Hp) as (nd & Hnd & Hi).
      exists nd. split; [apply Hlk; by right|done].
  - intros i p nd j m Hp [[-> ->]|[Hne Hnd]]%Hlk Hm.
    + rewrite Hnw in Hm. apply lookup_delete_Some in Hm as [_ Hm]. by eapply (wf_adj _ _ Hwf i pa na).
    + by eapply (wf_adj _ _ Hwf i p nd).
  - apply Hwf.
  - intros x y. split.
    + intros (p & nd & Hp & [[-> ->]|[Hne Hnd]]%Hlk & [m Hm]).
      * rewrite Hnw in Hm. apply lookup_delete_Some in Hm as [Hy Hm]. rewrite (Hpa x Hp). split.
        -- exists pa, na. eauto.
        -- intros [_ ->]. done.
      * split; [by exists p, nd; eauto|]. intros [-> _]. congruence.
    + intros [(p & nd & Hp & Hnd & [m Hm]) Hno].
      destruct (decide (p = pa)) as [->|Hne].
      * exists pa, nw. split_and!; [done|apply Hlk; by left|].
        assert (nd = na) as -> by congruence.
        exists m. rewrite Hnw. apply lookup_delete_Some. split; [|done].
        intros <-. apply Hno. split; [by apply Hpa|done].
      * exists p, nd. split_and!; [done|apply Hlk; by right|eauto].
Qed.

(** ** Insertion order *)

Lemma giso_sym {A B} (V : A → Prop) (E : A → A → Prop) (V' : B → Prop)
    (E' : B → B → Prop) (R : A → B → Prop) :
  giso V E V' E' R → giso V' E' V E (λ i a, R a i).
Proof.
  intros [Hf Hi Ht Hs He Hc Hc']. split; eauto.
  intros i j a b Hi' Hj'. symmetry. by apply He.
Qed.

Lemma iso_walk {A B} (V : A → Prop) (E : A → A → Prop) (V' : B → Prop)
    (E' : B → B → Prop) (R : A → B → Prop) (a b : A) (i : B) (k : nat) :
  giso V E V' E' R → V a → R a i → walk E a k b →
  ∃ j, R b j ∧ V b ∧ walk E' i k j.
Proof.
  intros Hiso Ha Hai Hw. induction Hw as [|k y z Hw (j & Hyj & Hy & IH) He].
  { exists i. split_and!; [done..|constructor]. }
  pose proof (iso_cl _ _ _ _ _ Hiso y z Hy He) as Hz.
  destruct (iso_tot _ _ _ _ _ Hiso z Hz) as (l & Hzl & _).
  exists l. split_and!; [done..|]. econstructor; [done|].
  by apply (iso_edge _ _ _ _ _ Hiso y z j l).
Qed.

Lemma iso_shortest {A B} (V : A → Prop) (E : A → A → Prop) (V' : B → Prop)
    (E' : B → B → Prop) (R : A → B → Prop) (a b : A) (i j : B) (d : nat) :
  giso V E V' E' R → V a → V' i → R a i → R b j →
  shortest E a b d → shortest E' i j d.
Proof.
  intros Hiso Ha Hi Hai Hbj [Hw Hmin]. split.
  - destruct (iso_walk V E V' E' R a b i d Hiso Ha Hai Hw) as (j' & Hbj' & _ & Hw').
    by rewrite (iso_fun _ _ _ _ _ Hiso b j j').
  - intros k Hk.
    destruct (iso_walk V' E' V E (λ i a, R a i) i j a k (giso_sym _ _ _ _ _ Hiso) Hi Hai Hk)
      as (b' & Hb' & _ & Hw').
    apply Hmin. by rewrite (iso_inj _ _ _ _ _ Hiso b b' j).
Qed.

Lemma iso_diam {A B} (V : A → Prop) (E : A → A → Prop) (V' : B → Prop)
    (E' : B → B → Prop) (R : A → B → Prop) (D : Z) :
  giso V E V' E' R → diam V E D → diam V' E' D.
Proof.
  intros Hiso [Hub Hex]. pose proof (giso_sym _ _ _ _ _ Hiso) as Hiso'. split.
  - intros i j d Hi Hj Hs.
    destruct (iso_sur _ _ _ _ _ Hiso i Hi) as (a & Hai & Ha).
    destruct (iso_sur _ _ _ _ _ Hiso j Hj) as (b & Hbj & Hb).
    apply (Hub a b d Ha Hb).
    by apply (iso_shortest V' E' V E (λ i a, R a i) i j a b d).
  - destruct Hex as [(a & b & d & Ha & Hb & Hs & ->)|[Hn ->]].
    + left. destruct (iso_tot _ _ _ _ _ Hiso a Ha) as (i & Hai & Hi).
      destruct (iso_tot _ _ _ _ _ Hiso b Hb) as (j & Hbj & Hj).
      exists i, j, d. split_and!; [done..| |done].
      by apply (iso_shortest V E V' E' R a b i j d).
    + right. split; [|done]. intros i Hi.
      destruct (iso_sur _ _ _ _ _ Hiso i Hi) as (a & _ & Ha). by apply (Hn a).
Qed.

Lemma nameE_snoc (e : list (nodeName * nodeName)) (a b c d : nodeName) :
  nameE (e ++ [(a, b)]) c d ↔ nameE e c d ∨ (c = a ∧ d = b) ∨ (c = b ∧ d = a).
Proof.
  unfold nameE. rewrite !elem_of_app, !list_elem_of_singleton. naive_solver.
Qed.

Lemma nameV_snoc (e : list (nodeName * nodeName)) (a b c : nodeName) :
  nameV (e ++ [(a, b)]) c ↔ nameV e c ∨ c = a ∨ c = b.
Proof.
  unfold nameV. setoid_rewrite nameE_snoc. naive_solver.
Qed.



Lemma int32_inj (k k' : Z) :
  (0 ≤ k < 4294967296)%Z → (0 ≤ k' < 4294967296)%Z → int32 k = int32 k' → k = k'.
Proof.
  unfold int32. intros Hk Hk' Heq. Z.div_mod_to_equations. lia.
Qed.

Lemma tabOK_insert (s : gmap nodeName nodeID) (a : nodeName) (i : nodeID) :
  tabOK s →
  s !! a = Some i ∨ (s !! a = None ∧ i = int32 (Z.of_nat (size s))) →
  (Z.of_nat (size (<[a:=i]> s)) ≤ 4294967296)%Z →
  tabOK (<[a:=i]> s).
Proof.
  intros [Hval Hinj] [Ha|[Ha ->]] Hsz; [by rewrite insert_id|].
  unfold tabOK. rewrite map_size_insert_None in Hsz |- * by done.
  assert (Hfresh : ∀ c, s !! c ≠ Some (int32 (Z.of_nat (size s)))).
  { intros c Hc. destruct (Hval c _ Hc) as (k & Hk & Heq).
    apply int32_inj in Heq; lia. }
  split.
  - intros c j [[<- <-]|[_ Hc]]%lookup_insert_Some.
    + exists (size s). split; [lia|done].
    + destruct (Hval c j Hc) as (k & Hk & ->). exists k. split; [lia|done].
  - intros c c' j [[<- <-]|[Hne Hc]]%lookup_insert_Some
      [[<- Heq]|[Hne' Hc']]%lookup_insert_Some; try done.
    + by destruct (Hfresh c').
    + subst j. by destruct (Hfresh c).
    + by eapply Hinj.
Qed.

Lemma named_New : named [] New.1 New.2.
Proof.
  split.
  - apply ginv_New.
  - split; simpl; intros a; intros; by rewrite lookup_empty in *.
  - intros a b [Hin|Hin]; by apply elem_of_nil in Hin.
  - intros ia ib (p & nd & Hp & _). simpl in Hp. by rewrite lookup_empty in Hp.
Qed.

Lemma addEdge_named (done : list (nodeName * nodeName)) (h : store) (g : Graph)
    (a b : nodeName) (h' : store) (g' : Graph) :
  named done h g → addEdge (h, g) a b = Some (h', g') →
  (Z.of_nat (size (symbolTable g')) ≤ 4294967296)%Z →
  named (done ++ [(a, b)]) h' g'.
Proof.
  intros [Hg Htab Hl Hr] Hadd Hsz.
  destruct (addEdge_spec h g a b Hg)
    as (h1 & g1 & ia & ib & Hadd1 & Hg' & Hst & Hsub & Ha & Hb & Hia & Hib & _ & _ & He).
  assert (h1 = h' ∧ g1 = g') as [-> ->] by (split; congruence).
  assert (Hsub1 : <[a:=ia]> (symbolTable g) ⊆ symbolTable g').
  { rewrite Hst. destruct Hib as [Hib|[Hib _]]; [by rewrite (insert_id _ b ib Hib)|].
    by apply insert_subseteq. }
  split; [done| |..].
  - rewrite Hst. apply tabOK_insert; [|done|by rewrite <-Hst].
    apply tabOK_insert; [done..|].
    apply map_subseteq_size in Hsub1. lia.
  - intros c d [Hcd|[[-> ->]|[-> ->]]]%nameE_snoc.
    + destruct (Hl c d Hcd) as (ic & id' & Hc & Hd & Hedge).
      exists ic, id'. split_and!; [by eapply lookup_weaken..|]. apply He. by left.
    + exists ia, ib. split_and!; [done..|]. apply He. right; by left.
    + exists ib, ia. split_and!; [done..|]. apply He. right; by right.
  - intros x y [Hxy|[[-> ->]|[-> ->]]]%He.
    + destruct (Hr x y Hxy) as (c & d & Hc & Hd & Hcd).
      exists c, d. split_and!; [by eapply lookup_weaken..|]. apply nameE_snoc. by left.
    + exists a, b. split_and!; [done..|]. apply nameE_snoc. right; by left.
    + exists b, a. split_and!; [done..|]. apply nameE_snoc. right; by right.
Qed.

Lemma build_tab_mono (e : list (nodeName * nodeName)) : ∀ h g h' g',
  ginv h g → build (h, g) e = Some (h', g') → symbolTable g ⊆ symbolTable g'.
Proof.
  induction e as [|[a b] e IH]; intros h g h' g' Hg Hb.
  { simpl in Hb. by injection Hb as <- <-. }
  destruct (addEdge_spec h g a b Hg) as (h1 & g1 & ia & ib & Hadd & Hg1 & _ & Hsub & _).
  rewrite build_cons, Hadd in Hb. simpl in Hb.
  etrans; [done|]. by apply (IH h1 g1 h' g').
Qed.

Lemma build_named (e : list (nodeName * nodeName)) : ∀ done h g h' g',
  named done h g → build (h, g) e = Some (h', g') →
  (Z.of_nat (size (symbolTable g')) ≤ 4294967296)%Z →
  named (done ++ e) h' g'.
Proof.
  induction e as [|[a b] e IH]; intros done h g h' g' Hn Hb Hsz.
  { simpl in Hb. injection Hb as <- <-. by rewrite app_nil_r. }
  pose proof (nm_ginv _ _ _ Hn) as Hg.
  destruct (addEdge_spec h g a b Hg) as (h1 & g1 & ia & ib & Hadd & Hg1 & _).
  rewrite build_cons, Hadd in Hb. simpl in Hb.
  rewrite (cons_middle (a, b) done e), app_assoc.
  apply (IH _ h1 g1); [|done..].
  apply (addEdge_named done h g a b); [done..|].
  pose proof (map_subseteq_size _ _ (build_tab_mono e h1 g1 h' g' Hg1 Hb)). lia.
Qed.

(** The names in the symbol table are the endpoints of the edges inserted,
    whatever the ids. *)
Lemma build_names (e : list (nodeName * nodeName)) : ∀ done h g h' g',
  ginv h g → (∀ c, is_Some (symbolTable g !! c) ↔ nameV done c) →
  build (h, g) e = Some (h', g') →
  ∀ c, is_Some (symbolTable g' !! c) ↔ nameV (done ++ e) c.
Proof.
  induction e as [|[a b] e IH]; intros done h g h' g' Hg Hdom Hb.
  { simpl in Hb. injection Hb as <- <-. by rewrite app_nil_r. }
  destruct (addEdge_spec h g a b Hg) as (h1 & g1 & ia & ib & Hadd & Hg1 & Hst & _).
  rewrite build_cons, Hadd in Hb. simpl in Hb.
  rewrite (cons_middle (a, b) done e), app_assoc.
  apply (IH _ h1 g1 h' g'); [done| |done].
  intros c. rewrite Hst, !lookup_insert_is_Some, nameV_snoc, Hdom.
  destruct (decide (b = c)); destruct (decide (a = c)); naive_solver.
Qed.

Lemma build_New_names (e : list (nodeName * nodeName)) (h : store) (g : Graph) :
  build New e = Some (h, g) → ∀ c, is_Some (symbolTable g !! c) ↔ nameV e c.
Proof.
  intros Hb. apply (build_names e [] New.1 New.2 h g ginv_New); [|done].
  intros c. simpl. rewrite lookup_empty. split.
  - by intros [? ?].
  - intros [d [Hin|Hin]]; by apply elem_of_nil in Hin.
Qed.

(** Without wrap-around, the built graph is the graph on names. *)
Lemma build_giso (e : list (nodeName * nodeName)) (h : store) (g : Graph) :
  build New e = Some (h, g) →
  (Z.of_nat (size (symbolTable g)) ≤ 4294967296)%Z →
  giso (nameV e) (nameE e) (registered (nodes g)) (edge h (nodes g))
       (λ a i, symbolTable g !! a = Some i).
Proof.
  intros Hb Hsz.
  pose proof (build_named e [] New.1 New.2 h g named_New Hb Hsz) as [Hg [_ Hinj] Hl Hr].
  pose proof (build_New_names e h g Hb) as Hdom. simpl in *.
  split.
  - congruence.
  - intros a a' i. apply Hinj.
  - intros a [i Ha]%Hdom. exists i. split; [done|]. by eapply gi_tab.
  - intros i Hi. destruct (gi_named _ _ Hg i Hi) as (a & Ha).
    exists a. split; [done|]. apply Hdom. eauto.
  - intros a b i j Ha Hb'. split.
    + intros (i' & j' & Ha' & Hb'' & He)%Hl. congruence.
    + intros (a' & b' & Ha' & Hb'' & He)%Hr.
      by rewrite (Hinj a a' i), (Hinj b b' j).
  - intros a b _ [Hab|Hab]; exists a; [by right|by left].
  - intros i j _ (p & nd & Hp & Hnd & [m Hm]). exists m.
    by eapply (ni_adj _ _ (gi_nodes _ _ Hg)).
Qed.

(** ** Graphs of self-edges *)

Lemma walk_loops {A} (E : A → A → Prop) (x y : A) (k : nat) :
  (∀ u v, E u v → u = v) → walk E x k y → y = x.
Proof.
  intros Hl Hw. induction Hw as [|k y z Hw IH He]; [done|].
  rewrite <-IH. symmetry. by apply Hl.
Qed.

(** ** The entries a search goes through *)

Lemma visitLog_foldl (p : ptr) (i : nodeID) (L : list (nodeID * ptr)) :
  ∀ (st : gmap nodeID bfsNode * list ptr) (log : list (nodeID * nodeID)),
    foldl (visitLog p i) (st, log) L =
    (foldl (visit p i) st L, log ++ ((λ e, (i, e.1)) <$> L)).
Proof.
  induction L as [|e L IH]; intros st log.
  - simpl. by rewrite app_nil_r.
  - change (foldl (visitLog p i) (st, log) (e :: L))
      with (foldl (visitLog p i) (visit p i st e, log ++ [(i, e.1)]) L).
    rewrite IH, <-app_assoc. done.
Qed.

(** The record changes nothing: without it, [bfsLoopLog] is [bfsLoop]. *)
Lemma bfsLoopLog_erase (ord : nat → rangeOrder) (fuel : nat) (h : store) :
  ∀ k q B n log,
    (λ r, r.1) <$> bfsLoopLog ord fuel k h q B n log = bfsLoop ord fuel k h q B n.
Proof.
  induction fuel as [|fuel IH]; intros k q B n log; destruct q as [|p q]; try done.
  simpl. unfold bfsIter. destruct (h !! p) as [nd|]; [|done]. simpl.
  rewrite visitLog_foldl.
  destruct (foldl (visit p (id nd)) (B, q) (mapRange (ord k) (adj nd))) as [B1 q1].
  apply IH.
Qed.

Lemma bfsLoopLog_returns (ord : nat → rangeOrder) (fuel k : nat) (h : store)
    (q : list ptr) (B : gmap nodeID bfsNode) (n : ptr) (log : list (nodeID * nodeID))
    (n' : ptr) (B' : gmap nodeID bfsNode) :
  bfsLoop ord fuel k h q B n = Some (n', B') →
  ∃ scans, bfsLoopLog ord fuel k h q B n log = Some (n', B', scans).
Proof.
  intros Hloop. rewrite <-(bfsLoopLog_erase ord fuel h k q B n log) in Hloop.
  destruct (bfsLoopLog ord fuel k h q B n log) as [[[n1 B1] scans]|]; [|done].
  injection Hloop as -> ->. by exists scans.
Qed.

(** The entries recorded are the entries of the dequeued nodes, each recorded
    once. *)
Lemma bfsLoopLog_inv (h : store) (ns : gmap nodeID ptr) (s : nodeID)
    (ord : nat → rangeOrder) (fuel : nat) :
  wf h ns → ∀ k dn qi q B n log r,
    oinv h ns s dn qi B → holds ns qi q → NoDup log →
    (∀ x j, (x, j) ∈ log ↔ x ∈ dn ∧ edge h ns x j) →
    bfsLoopLog ord fuel k h q B n log = Some r →
    ∃ dn', oinv h ns s dn' [] r.1.2 ∧ NoDup r.2 ∧
           ∀ x j, (x, j) ∈ r.2 ↔ x ∈ dn' ∧ edge h ns x j.
Proof.
  intros Hwf.
  induction fuel as [|fuel IH]; intros k dn qi q B n log r Ho Hq Hnd Hlog Hr.
  - destruct Hq as [|x p qi q Hx Hq]; [|done]. injection Hr as <-. simpl. by exists dn.
  - destruct Hq as [|x p qi q Hx Hq].
    { injection Hr as <-. simpl. by exists dn. }
    destruct (wf_node _ _ Hwf x p Hx) as (nd & Hp & Hid).
    destruct (bfsIter_inv h ns Hwf s (ord k) dn x p qi q B Ho Hx Hq)
      as (B1 & new & newp & Hit & Ho1 & Hn1 & _).
    unfold bfsIter in Hit. rewrite Hp in Hit. simpl in Hit. injection Hit as Hit.
    change (bfsLoopLog ord (S fuel) k h (p :: q) B n log)
      with (nd0 ← h !! p;
            let '(B', q'', log') :=
              foldl (visitLog p (id nd0)) (B, q, log) (mapRange (ord k) (adj nd0)) in
            bfsLoopLog ord fuel (S k) h q'' B' p log') in Hr.
    rewrite Hp in Hr. simpl in Hr. rewrite visitLog_foldl, Hit, Hid in Hr.
    assert (HL : ∀ j m, (j, m) ∈ mapRange (ord k) (adj nd) ↔ adj nd !! j = Some m).
    { intros j m. unfold mapRange. rewrite (pick_perm (ord k)).
      apply elem_of_map_to_list. }
    assert (HLnd : NoDup (mapRange (ord k) (adj nd)).*1).
    { unfold mapRange. rewrite (pick_perm (ord k)). apply NoDup_fst_map_to_list. }
    assert (Hxdn : x ∉ dn).
    { pose proof (bi_nodup _ _ _ _ _ (oi_binv _ _ _ _ _ _ Ho)) as Hnd'.
      apply NoDup_app in Hnd' as (_ & Hdis & _). intros Hin.
      apply (Hdis x Hin). left. }
    apply (IH (S k) (dn ++ [x]) (qi ++ new) (q ++ newp) B1 p
             (log ++ ((λ e, (x, e.1)) <$> mapRange (ord k) (adj nd))) r);
      [done|by apply Forall2_app| | |done].
    + apply NoDup_app. split_and!; [done| |].
      * intros [y j] Hin ((j' & m) & [= -> ->] & _)%list_elem_of_fmap.
        apply Hlog in Hin as [Hin _]. done.
      * replace ((λ e : nodeID * ptr, (x, e.1)) <$> mapRange (ord k) (adj nd))
          with ((λ j, (x, j)) <$> (mapRange (ord k) (adj nd)).*1)
          by (by rewrite <-list_fmap_compose).
        apply NoDup_fmap_2; [|done]. by intros j j' [= ->].
    + intros y j. rewrite !elem_of_app, Hlog, list_elem_of_fmap. split.
      * intros [[Hin He]|((j' & m) & [= -> ->] & Hin)]; [by auto|].
        split; [right; left|].
        exists p, nd. split_and!; [done..|]. exists m. by apply HL.
      * intros [[Hin| ->%list_elem_of_singleton] He]; [by left|]. right.
        destruct He as (p' & nd' & Hp' & Hnd' & [m Hm]).
        assert (p' = p) as -> by congruence. assert (nd' = nd) as -> by congruence.
        exists (j, m). split; [done|]. by apply HL.
Qed.

Lemma undirected_eq (x y u v : nodeID) :
  undirected u v = undirected x y → (u, v) = (x, y) ∨ (u, v) = (y, x).
Proof.
  unfold undirected. intros [= Hmin Hmax].
  assert ((u = x ∧ v = y) ∨ (u = y ∧ v = x)) as [[-> ->]|[-> ->]] by lia; auto.
Qed.

(** Among entries recorded once each, an edge is met at most twice. *)
Lemma scans_twice (scans : list (nodeID * nodeID)) (x y : nodeID) :
  NoDup scans →
  length (filter (λ sc, undirected sc.1 sc.2 = undirected x y) scans) ≤ 2.
Proof.
  intros Hnd.
  assert (Hsub : filter (λ sc, undirected sc.1 sc.2 = undirected x y) scans
                   ⊆+ [(x, y); (y, x)]).
  { apply NoDup_submseteq; [by apply NoDup_filter|].
    intros [u v] [Heq _]%list_elem_of_filter. simpl in Heq.
    destruct (undirected_eq x y u v Heq) as [-> | ->]; set_solver. }
  apply submseteq_length in Hsub. done.
Qed.

(** * Properties of the specification *)

(** C1: for every graph built by a sequence of [addEdge] calls, [diameter]
    returns the maximum, over the pairs of nodes of one connected component,
    of their shortest-path distance in hops; with no node it returns 0.
    The build always succeeds, and the result holds for every iteration
    order once the fuel allows one dequeue per node. *)
Theorem diameter_is_longest_shortest_path (e : list (nodeName * nodeName)) :
  (∃ h g, build New e = Some (h, g)) ∧
  (∀ h g, build New e = Some (h, g) →
    ∀ sch fuel, size (nodes g) ≤ fuel →
      ∃ D, diameter sch fuel h (nodes g) = Some (D, h, nodes g) ∧
           graphDiameter h (nodes g) D) ∧
  (∀ sch fuel, buildDiameter sch fuel [] = Some 0%Z).
Proof.
  split_and!.
  - apply build_total.
  - intros h g Hb sch fuel Hf.
    apply diameter_spec; [by eapply build_New_wf|done].
  - intros sch fuel. unfold buildDiameter. simpl. by rewrite diameter_empty.
Qed.

Lemma diameter_is_longest_shortest_path_witness :
  ∃ h g, build New [("a", "b"); ("b", "c")]%string = Some (h, g) ∧
    ∃ D, diameter revSchedule 3 h (nodes g) = Some (D, h, nodes g) ∧
         graphDiameter h (nodes g) D.
Proof.
  destruct (build New [("a", "b"); ("b", "c")]%string) as [[h g]|] eqn:Hb;
    [|by vm_compute in Hb].
  exists h, g. split; [done|].
  apply (proj1 (proj2 (diameter_is_longest_shortest_path
                         [("a", "b"); ("b", "c")]%string)) h g Hb revSchedule 3).
  vm_compute in Hb. injection Hb as <- <-. vm_compute. lia.
Defined.

(** C2: for a node [v] of the graph, [longestShortestPath v] returns the depth
    recorded for the node dequeued last; no recorded depth is larger; and the
    value is the eccentricity of [v]. *)
Theorem longestShortestPath_is_eccentricity (e : list (nodeName * nodeName))
    (h : store) (g : Graph) (v : nodeID) (pv : ptr)
    (ord : nat → rangeOrder) (fuel : nat) :
  build New e = Some (h, g) → nodes g !! v = Some pv → size (nodes g) ≤ fuel →
  ∃ n' bfsData' nd',
    bfsLoop ord fuel 0 h [pv] (bfsInit pv v) pv = Some (n', bfsData') ∧
    last (dequeued ord fuel h pv v) = Some n' ∧
    h !! n' = Some nd' ∧
    longestShortestPath ord fuel h (nodes g) v
      = Some (depth (bfsGet bfsData' (id nd')), h, nodes g) ∧
    (∀ x b, bfsData' !! x = Some b → (depth b ≤ depth (bfsGet bfsData' (id nd')))%Z) ∧
    is_Some (bfsData' !! id nd') ∧
    eccentricity h (nodes g) v (depth (bfsGet bfsData' (id nd'))).
Proof.
  intros Hb Hv Hf.
  destruct (longestShortestPath_run h (nodes g) ord fuel v pv)
    as (n' & B' & nd' & Hloop & Hnd' & Hlsp & Hlast & Hmax & Hin & Hecc & _);
    [by eapply build_New_wf|done..|].
  exists n', B', nd'. split_and!; try done.
  intros x b Hx. rewrite <-(dep_lookup B' x b Hx). apply Hmax. eauto.
Qed.

Lemma longestShortestPath_is_eccentricity_witness :
  ∃ h g pv, build New [("a", "b"); ("b", "c")]%string = Some (h, g) ∧
    nodes g !! 0%Z = Some pv ∧
    longestShortestPath (λ _, idOrder) 3 h (nodes g) 0 = Some (2%Z, h, nodes g) ∧
    eccentricity h (nodes g) 0 2.
Proof.
  destruct (build New [("a", "b"); ("b", "c")]%string) as [[h g]|] eqn:Hb;
    [|by vm_compute in Hb].
  assert (Hv : nodes g !! 0%Z = Some 0).
  { vm_compute in Hb. by injection Hb as <- <-. }
  assert (Hf : size (nodes g) ≤ 3).
  { vm_compute in Hb. injection Hb as <- <-. vm_compute. lia. }
  destruct (longestShortestPath_is_eccentricity _ h g 0%Z 0 (λ _, idOrder) 3 Hb Hv Hf)
    as (n' & B' & nd' & _ & _ & _ & Hlsp & _ & _ & Hecc).
  assert (Hval : longestShortestPath (λ _, idOrder) 3 h (nodes g) 0
                 = Some (2%Z, h, nodes g)).
  { vm_compute in Hb. injection Hb as <- <-. by vm_compute. }
  exists h, g, 0. split_and!; [done..|].
  rewrite Hval in Hlsp. injection Hlsp as Hd. by rewrite Hd.
Defined.

(** C3: the seven scenarios of the tests, for every iteration order. *)
Theorem diameter_scenarios (sch : schedule) (fuel : nat) :
  5 ≤ fuel →
  buildDiameter sch fuel [] = Some 0%Z ∧
  buildDiameter sch fuel [("a", "b")]%string = Some 1%Z ∧
  buildDiameter sch fuel [("a", "b"); ("b", "c")]%string = Some 2%Z ∧
  buildDiameter sch fuel [("a", "b"); ("b", "c"); ("c", "d")]%string = Some 3%Z ∧
  buildDiameter sch fuel [("a", "b"); ("b", "c"); ("a", "c")]%string = Some 1%Z ∧
  buildDiameter sch fuel [("a", "b"); ("b", "c"); ("c", "d"); ("a", "d")]%string
    = Some 2%Z ∧
  buildDiameter sch fuel
    [("a", "b"); ("b", "c"); ("c", "a"); ("c", "d"); ("d", "e"); ("e", "c")]%string
    = Some 2%Z.
Proof.
  intros Hf.
  split_and!; apply buildDiameter_order_irrelevant; try (by vm_compute);
    intros h g Hb; vm_compute in Hb; injection Hb as <- <-; vm_compute; lia.
Qed.

Lemma diameter_scenarios_witness :
  buildDiameter revSchedule 5
    [("a", "b"); ("b", "c"); ("c", "a"); ("c", "d"); ("d", "e"); ("e", "c")]%string
    = Some 2%Z.
Proof.
  apply (diameter_scenarios revSchedule 5). lia.
Defined.

(** C4: once the edge [(a, b)] has been inserted, inserting it again leaves
    the whole state as it is; so [diameter] returns what it returned before,
    for all iteration orders, and the number of nodes is the same. *)
Theorem addEdge_idempotent (e1 e2 : list (nodeName * nodeName)) (a b : nodeName) :
  ∃ h g,
    build New (e1 ++ (a, b) :: e2) = Some (h, g) ∧
    build New ((e1 ++ (a, b) :: e2) ++ [(a, b)]) = Some (h, g) ∧
    ∀ sch sch' fuel fuel',
      size (nodes g) ≤ fuel → size (nodes g) ≤ fuel' →
      ∃ D, buildDiameter sch fuel (e1 ++ (a, b) :: e2) = Some D ∧
           buildDiameter sch' fuel' ((e1 ++ (a, b) :: e2) ++ [(a, b)]) = Some D.
Proof.
  destruct (build_again e1 e2 a b) as (h & g & Hb & Hg & Hadd).
  assert (Hb' : build New ((e1 ++ (a, b) :: e2) ++ [(a, b)]) = Some (h, g)).
  { rewrite build_app, Hb.
    change (build (h, g) [(a, b)] = Some (h, g)).
    by rewrite build_cons, Hadd. }
  exists h, g. split_and!; [done..|].
  intros sch sch' fuel fuel' Hf Hf'.
  pose proof (ninv_wf _ _ (gi_nodes _ _ Hg)) as Hwf.
  destruct (diameter_spec h (nodes g) sch fuel Hwf Hf) as (D & Hd & _).
  exists D. unfold buildDiameter. rewrite Hb, Hb'. simpl.
  rewrite Hd, (diameter_order_irrelevant h (nodes g) sch sch' fuel fuel' D); done.
Qed.

Lemma addEdge_idempotent_witness :
  buildDiameter idSchedule 3 [("a", "b"); ("b", "c")]%string = Some 2%Z ∧
  buildDiameter revSchedule 4 [("a", "b"); ("b", "c"); ("a", "b")]%string = Some 2%Z.
Proof.
  destruct (addEdge_idempotent [] [("b", "c")]%string "a" "b")
    as (h & g & Hb & _ & Hd).
  destruct (Hd idSchedule revSchedule 3 4) as (D & Hd1 & Hd2).
  - vm_compute in Hb. injection Hb as <- <-. vm_compute. lia.
  - vm_compute in Hb. injection Hb as <- <-. vm_compute. lia.
  - assert (HD : D = 2%Z) by (vm_compute in Hd1; congruence).
    rewrite HD in Hd1, Hd2. split; [exact Hd1|exact Hd2].
Defined.

(** C5: after every sequence of [addEdge] calls on a new graph, adjacency is
    mutual: if the [adj] map of node A holds node B, then B is the node
    registered under that key and its [adj] map holds A under A's id. *)
Theorem adjacency_symmetric (e : list (nodeName * nodeName)) :
  ∃ h g, build New e = Some (h, g) ∧
    ∀ pa na b pb, h !! pa = Some na → adj na !! b = Some pb →
      ∃ nb, nodes g !! b = Some pb ∧ h !! pb = Some nb ∧ id nb = b ∧
            nodes g !! id na = Some pa ∧ adj nb !! id na = Some pa.
Proof.
  destruct (build_total e) as (h & g & Hb). exists h, g. split; [done|].
  pose proof (gi_nodes _ _ (build_New_ginv e h g Hb)) as Hn.
  intros pa na b pb Hpa Hadj.
  destruct (ni_sym _ _ Hn pa na b pb Hpa Hadj) as (nb & Hnb & Hback).
  pose proof (ni_adj _ _ Hn pa na b pb Hpa Hadj) as Hreg.
  destruct (ni_reg _ _ Hn b pb Hreg) as (nb' & Hnb' & Hid).
  assert (nb' = nb) as -> by congruence.
  exists nb. split_and!; try done. by apply (ni_alloc _ _ Hn).
Qed.

Lemma adjacency_symmetric_witness :
  ∃ h g nb, build New [("a", "b")]%string = Some (h, g) ∧
    h !! 0 = Some {| id := 0; adj := {[1%Z := 1]} |} ∧
    h !! 1 = Some nb ∧ id nb = 1%Z ∧ adj nb !! 0%Z = Some 0.
Proof.
  destruct (adjacency_symmetric [("a", "b")]%string) as (h & g & Hb & Hsym).
  assert (Hh : h !! 0 = Some {| id := 0; adj := {[1%Z := 1]} |}).
  { vm_compute in Hb. injection Hb as <- <-. vm_compute. reflexivity. }
  destruct (Hsym 0 _ 1%Z 1 Hh) as (nb & _ & Hnb & Hid & _ & Hback);
    [vm_compute; reflexivity|].
  exists h, g, nb. split_and!; [exact Hb|exact Hh|exact Hnb|exact Hid|exact Hback].
Defined.



(** C7 as stated fails: the path a–b is connected and has diameter 1; one
    more [addEdge] call, for (b, c), gives diameter 2. *)
Lemma addEdge_can_increase_diameter :
  ¬ (∀ (e : list (nodeName * nodeName)) (a b : nodeName) (h : store) (g : Graph)
       (sch : schedule) (fuel : nat) (D D' : Z),
       build New e = Some (h, g) → connectedGraph h (nodes g) →
       buildDiameter sch fuel e = Some D →
       buildDiameter sch fuel (e ++ [(a, b)]) = Some D' → (D' ≤ D)%Z).
Proof.
  intros Hstated.
  destruct (build New [("a", "b")]%string) as [[h g]|] eqn:Hb; [|by vm_compute in Hb].
  assert (Hconn : connectedGraph h (nodes g)).
  { apply (build_snoc_connected [] "a" "b" New.1 New.2 h g);
      [done|apply New_connected|by right; right|done]. }
  specialize (Hstated [("a", "b")]%string "b"%string "c"%string h g idSchedule 3 1%Z 2%Z
                Hb Hconn).
  assert (2 ≤ 1)%Z; [|lia].
  apply Hstated; by vm_compute.
Qed.

(** C7, amended: on a connected graph, an [addEdge] call between two names
    that are both already in the graph never increases the value returned
    by [diameter]. *)
Theorem addEdge_between_nodes_does_not_increase_diameter
    (e : list (nodeName * nodeName)) (a b : nodeName) (h : store) (g : Graph) :
  build New e = Some (h, g) → connectedGraph h (nodes g) →
  is_Some (symbolTable g !! a) → is_Some (symbolTable g !! b) →
  ∃ h' g', build New (e ++ [(a, b)]) = Some (h', g') ∧
    ∀ sch sch' fuel fuel', size (nodes g) ≤ fuel → size (nodes g') ≤ fuel' →
      ∃ D D', diameter sch fuel h (nodes g) = Some (D, h, nodes g) ∧
              diameter sch' fuel' h' (nodes g') = Some (D', h', nodes g') ∧
              (D' ≤ D)%Z.
Proof.
  intros Hb Hconn [ia0 Ha] [ib0 Hb0].
  pose proof (build_New_ginv e h g Hb) as Hg.
  destruct (addEdge_spec h g a b Hg)
    as (h' & g' & ia & ib & Hadd & Hg' & _ & _ & _ & _ & Hia & Hib & Hreg & _ & He).
  exists h', g'. split; [by rewrite (build_snoc e a b _ Hb)|].
  intros sch sch' fuel fuel' Hf Hf'.
  pose proof (ninv_wf _ _ (gi_nodes _ _ Hg)) as Hwf.
  pose proof (ninv_wf _ _ (gi_nodes _ _ Hg')) as Hwf'.
  destruct (diameter_spec h (nodes g) sch fuel Hwf Hf) as (D & Hd & HD).
  destruct (diameter_spec h' (nodes g') sch' fuel' Hwf' Hf') as (D' & Hd' & HD').
  exists D, D'. split_and!; [done..|].
  assert (Hra : registered (nodes g) ia).
  { destruct Hia as [Hia|[Hia _]]; [by eapply gi_tab|congruence]. }
  assert (Hrb : registered (nodes g) ib).
  { destruct Hib as [Hib|[Hib _]].
    - apply lookup_insert_Some in Hib as [[_ <-]|[_ Hib]]; [done|by eapply gi_tab].
    - apply lookup_insert_None in Hib as [Hib _]. congruence. }
  eapply (graphDiameter_more_edges h h' (nodes g) (nodes g')); [done..| | |done|done].
  - intros x. rewrite Hreg. split; [|by left]. by intros [?|[->| ->]].
  - intros x y Hxy. apply He. by left.
Qed.

Lemma addEdge_between_nodes_does_not_increase_diameter_witness :
  ∃ D D',
    buildDiameter idSchedule 3 [("a", "b"); ("b", "c")]%string = Some D ∧
    buildDiameter revSchedule 3 [("a", "b"); ("b", "c"); ("a", "c")]%string = Some D' ∧
    (D' ≤ D)%Z.
Proof.
  destruct (build New [("a", "b")]%string) as [[h1 g1]|] eqn:Hb1; [|by vm_compute in Hb1].
  destruct (build New ([("a", "b")]%string ++ [("b", "c")]%string)) as [[h g]|] eqn:Hb;
    [|by vm_compute in Hb].
  assert (Hc1 : connectedGraph h1 (nodes g1)).
  { apply (build_snoc_connected [] "a" "b" New.1 New.2 h1 g1);
      [reflexivity|apply New_connected|by right; right|exact Hb1]. }
  assert (Hc : connectedGraph h (nodes g)).
  { apply (build_snoc_connected [("a", "b")]%string "b" "c" h1 g1 h g);
      [exact Hb1|exact Hc1| |exact Hb].
    left. vm_compute in Hb1. injection Hb1 as <- <-. vm_compute. eauto. }
  destruct (addEdge_between_nodes_does_not_increase_diameter
              ([("a", "b")]%string ++ [("b", "c")]%string) "a" "c" h g Hb Hc)
    as (h' & g' & Hb' & Hd).
  - vm_compute in Hb. injection Hb as <- <-. vm_compute. eauto.
  - vm_compute in Hb. injection Hb as <- <-. vm_compute. eauto.
  - destruct (Hd idSchedule revSchedule 3 3) as (D & D' & Hd1 & Hd2 & Hle).
    + vm_compute in Hb. injection Hb as <- <-. vm_compute. lia.
    + vm_compute in Hb'. injection Hb' as <- <-. vm_compute. lia.
    + exists D, D'. unfold buildDiameter.
      change [("a", "b"); ("b", "c"); ("a", "c")]%string
        with (([("a", "b")]%string ++ [("b", "c")]%string) ++ [("a", "c")]%string).
      change [("a", "b"); ("b", "c")]%string with ([("a", "b")]%string ++ [("b", "c")]%string).
      rewrite Hb, Hb'. simpl. rewrite Hd1, Hd2. simpl. split_and!; [done..|exact Hle].
Defined.

(** C8: [addEdge a a] is accepted and leaves the node of [a] adjacent to
    itself; [diameter] returns the same value on the resulting graph and on
    the same graph with that node's self-adjacency removed. *)
Theorem self_edge_does_not_change_diameter (e : list (nodeName * nodeName))
    (a : nodeName) (h : store) (g : Graph) :
  build New e = Some (h, g) →
  ∃ h' g' ia pa na,
    addEdge (h, g) a a = Some (h', g') ∧
    symbolTable g' !! a = Some ia ∧ nodes g' !! ia = Some pa ∧
    h' !! pa = Some na ∧ id na = ia ∧ adj na !! ia = Some pa ∧
    (∀ x y, edge (withoutSelfAdj h' pa) (nodes g') x y ↔
            edge h' (nodes g') x y ∧ ¬ (x = ia ∧ y = ia)) ∧
    ∀ sch sch' fuel fuel', size (nodes g') ≤ fuel → size (nodes g') ≤ fuel' →
      ∃ D, diameter sch fuel h' (nodes g') = Some (D, h', nodes g') ∧
           diameter sch' fuel' (withoutSelfAdj h' pa) (nodes g')
             = Some (D, withoutSelfAdj h' pa, nodes g').
Proof.
  intros Hb. pose proof (build_New_ginv e h g Hb) as Hg.
  destruct (addEdge_spec h g a a Hg)
    as (h' & g' & ia & ib & Hadd & Hg' & _ & _ & Ha & Ha' & _ & _ & _ & _ & He).
  assert (ib = ia) as -> by congruence.
  pose proof (gi_nodes _ _ Hg') as Hn'. pose proof (ninv_wf _ _ Hn') as Hwf'.
  destruct (gi_tab _ _ Hg' a ia Ha) as [pa Hpa].
  destruct (ni_reg _ _ Hn' ia pa Hpa) as (na & Hna & Hid).
  assert (Hself : adj na !! ia = Some pa).
  { destruct (proj2 (He ia ia)) as (p & nd & Hp & Hnd & [m Hm]); [right; by left|].
    assert (p = pa) as -> by congruence. assert (nd = na) as -> by congruence.
    pose proof (ni_adj _ _ Hn' pa na ia m Hna Hm). congruence. }
  destruct (withoutSelfAdj_spec h' (nodes g') ia pa Hwf' Hpa) as [Hwf0 He0].
  exists h', g', ia, pa, na. split_and!; [done..|].
  intros sch sch' fuel fuel' Hf Hf'.
  destruct (diameter_spec h' (nodes g') sch fuel Hwf' Hf) as (D & Hd & HD).
  destruct (diameter_spec _ (nodes g') sch' fuel' Hwf0 Hf') as (D0 & Hd0 & HD0).
  exists D. split; [done|]. rewrite Hd0. do 3 f_equal.
  eapply diam_unique; [done|].
  eapply diam_ext; [done| |exact HD].
  intros x y d. apply shortest_loops.
  - intros u v Huv. by apply He0 in Huv as [? _].
  - intros u v Huv. destruct (decide (u = v)) as [->|Hne]; [by right|left].
    apply He0. split; [done|]. intros [-> ->]. done.
Qed.

Lemma self_edge_does_not_change_diameter_witness :
  ∃ h' g', addEdge New "a" "a" = Some (h', g') ∧
    diameter idSchedule 1 h' (nodes g') = Some (0%Z, h', nodes g') ∧
    diameter revSchedule 1 (withoutSelfAdj h' 0) (nodes g')
      = Some (0%Z, withoutSelfAdj h' 0, nodes g').
Proof.
  destruct (self_edge_does_not_change_diameter [] "a" New.1 New.2 eq_refl)
    as (h' & g' & ia & pa & na & Hadd & _ & Hpa & _ & _ & _ & _ & Hd).
  exists h', g'. split; [exact Hadd|].
  assert (Hp : pa = 0).
  { vm_compute in Hadd. injection Hadd as <- <-. vm_compute in Hpa.
    destruct ia as [|[]|[]]; try discriminate Hpa. by injection Hpa as <-. }
  destruct (Hd idSchedule revSchedule 1 1) as (D & Hd1 & Hd2).
  - vm_compute in Hadd. injection Hadd as <- <-. vm_compute. lia.
  - vm_compute in Hadd. injection Hadd as <- <-. vm_compute. lia.
  - assert (HD : D = 0%Z).
    { vm_compute in Hadd. injection Hadd as <- <-. vm_compute in Hd1. congruence. }
    rewrite HD, Hp in *. split; [exact Hd1|exact Hd2].
Defined.

(** C9: [diameter] leaves the graph as it was: whenever it returns, the node
    store (every node with its [adj] map) and the [nodes] map are the ones it
    was called with, and the symbol table is not an argument of it; with
    fuel for one dequeue per node it does return. *)
Theorem diameter_does_not_mutate (e : list (nodeName * nodeName))
    (h : store) (g : Graph) (sch : schedule) (fuel : nat) :
  build New e = Some (h, g) →
  (∀ r h' ns', diameter sch fuel h (nodes g) = Some (r, h', ns') →
     h' = h ∧ ns' = nodes g ∧
     {| symbolTable := symbolTable g; nodes := ns' |} = g) ∧
  (size (nodes g) ≤ fuel → ∃ D, diameter sch fuel h (nodes g) = Some (D, h, nodes g)).
Proof.
  intros Hb. split.
  - intros r h' ns' Hd. apply diameter_state in Hd as [-> ->]. by destruct g.
  - intros Hf. destruct (diameter_spec h (nodes g) sch fuel) as (D & Hd & _);
      [by eapply build_New_wf|done|by exists D].
Qed.

Lemma diameter_does_not_mutate_witness :
  ∃ h g, build New [("a", "b"); ("b", "c")]%string = Some (h, g) ∧
    diameter idSchedule 3 h (nodes g) = Some (2%Z, h, nodes g).
Proof.
  destruct (build New [("a", "b"); ("b", "c")]%string) as [[h g]|] eqn:Hb;
    [|by vm_compute in Hb].
  exists h, g. split; [done|].
  destruct (diameter idSchedule 3 h (nodes g)) as [[[r h'] ns']|] eqn:Hd.
  - destruct (proj1 (diameter_does_not_mutate _ h g idSchedule 3 Hb) r h' ns' Hd)
      as (-> & -> & _).
    vm_compute in Hb. injection Hb as <- <-. vm_compute in Hd.
    injection Hd as <-. reflexivity.
  - vm_compute in Hb. injection Hb as <- <-. by vm_compute in Hd.
Defined.

(** C10 as stated fails where it has the search visit each edge at most once.
    An edge between two nodes is an entry in the [adj] map of each of them,
    and the search goes through the [adj] map of every node it dequeues: from
    ["a"] in the graph of the one edge ["a"]-["b"] it meets that edge at
    ["a"] and again at ["b"]. *)
Lemma search_meets_an_edge_at_both_ends :
  ¬ (∀ (e : list (nodeName * nodeName)) (h : store) (g : Graph) (v : nodeID) (pv : ptr)
       (ord : nat → rangeOrder) (fuel : nat) (n' : ptr) (bfsData' : gmap nodeID bfsNode)
       (scans : list (nodeID * nodeID)),
       build New e = Some (h, g) → nodes g !! v = Some pv →
       bfsLoopLog ord fuel 0 h [pv] (bfsInit pv v) pv [] = Some (n', bfsData', scans) →
       NoDup ((λ sc, undirected sc.1 sc.2) <$> scans)).
Proof.
  intros Hstated.
  destruct (build New [("a", "b")]%string) as [[h g]|] eqn:Hb; [|by vm_compute in Hb].
  assert (Hs : ∃ n' B' scans,
    bfsLoopLog (λ _, idOrder) 2 0 h [0] (bfsInit 0 0) 0 [] = Some (n', B', scans) ∧
    (λ sc, undirected sc.1 sc.2) <$> scans = [(0, 1); (0, 1)]%Z).
  { vm_compute in Hb. injection Hb as <- <-. vm_compute. eauto. }
  destruct Hs as (n' & B' & scans & Hloop & Hsc).
  assert (Hv : nodes g !! 0%Z = Some 0).
  { vm_compute in Hb. injection Hb as <- <-. reflexivity. }
  pose proof (Hstated _ h g 0%Z 0 (λ _, idOrder) 2 n' B' scans Hb Hv Hloop) as Hnd.
  rewrite Hsc in Hnd. apply NoDup_cons in Hnd as [Hin _]. apply Hin. left.
Qed.

(** C10, amended: on a finite graph each search ends, and so does [diameter]:
    with fuel for one dequeue per node, the loop leaves with an empty queue,
    no node is dequeued twice, no node is enqueued twice, every enqueued node
    is dequeued, and at most as many nodes are dequeued as the graph has.
    The search goes through the entries of the [adj] maps of the nodes it
    reaches, each entry once: it meets an edge at most once from each of its
    ends, so at most twice. *)
Theorem diameter_terminates (e : list (nodeName * nodeName))
    (h : store) (g : Graph) (sch : schedule) (fuel : nat) :
  build New e = Some (h, g) → size (nodes g) ≤ fuel →
  (∃ D, diameter sch fuel h (nodes g) = Some (D, h, nodes g)) ∧
  (∀ v pv ord, nodes g !! v = Some pv →
     is_Some (bfsLoop ord fuel 0 h [pv] (bfsInit pv v) pv) ∧
     is_Some (longestShortestPath ord fuel h (nodes g) v) ∧
     NoDup (dequeued ord fuel h pv v) ∧
     NoDup (enqueued ord fuel h pv v) ∧
     enqueued ord fuel h pv v = dequeued ord fuel h pv v ∧
     length (dequeued ord fuel h pv v) ≤ size (nodes g) ∧
     ∃ n' bfsData' scans,
       bfsLoopLog ord fuel 0 h [pv] (bfsInit pv v) pv [] = Some (n', bfsData', scans) ∧
       bfsLoop ord fuel 0 h [pv] (bfsInit pv v) pv = Some (n', bfsData') ∧
       NoDup scans ∧
       (∀ x y, (x, y) ∈ scans ↔ connected (edge h (nodes g)) v x ∧ edge h (nodes g) x y) ∧
       (∀ x y, length (filter (λ sc, undirected sc.1 sc.2 = undirected x y) scans) ≤ 2)).
Proof.
  intros Hb Hf. pose proof (build_New_wf e h g Hb) as Hwf. split.
  - destruct (diameter_spec h (nodes g) sch fuel Hwf Hf) as (D & Hd & _). by exists D.
  - intros v pv ord Hv.
    destruct (longestShortestPath_run h (nodes g) ord fuel v pv Hwf Hv Hf)
      as (n' & B' & nd' & Hloop & _ & Hlsp & _ & _ & _ & _ & Hnd & Heq & Hlen).
    split_and!; [by rewrite Hloop|by rewrite Hlsp|done|by rewrite Heq|done|done|].
    destruct (bfsLoopLog_returns ord fuel 0 h [pv] (bfsInit pv v) pv [] n' B' Hloop)
      as (scans & Hlog).
    destruct (bfsLoopLog_inv h (nodes g) v ord fuel Hwf 0 [] [v] [pv] (bfsInit pv v) pv []
                (n', B', scans)) as (dn & Ho & Hsnd & Hsc);
      [by apply binv_init|by repeat constructor|constructor| |done|].
    { intros x j. rewrite !elem_of_nil. naive_solver. }
    simpl in Ho, Hsnd, Hsc.
    pose proof (oi_binv _ _ _ _ _ _ Ho) as Hbi. rewrite app_nil_r in Hbi.
    exists n', B', scans. split_and!; [done..| |].
    + intros x y. rewrite Hsc, (bi_dom _ _ _ _ _ Hbi x).
      assert (Hcn : is_Some (B' !! x) ↔ connected (edge h (nodes g)) v x); [|by rewrite Hcn].
      split.
      * intros Hx. destruct (bi_walk _ _ _ _ _ Hbi x Hx) as [_ Hw]. by eexists.
      * intros [k Hk]. by destruct (final_walk h (nodes g) v dn B' k x Ho Hk).
    + intros x y. by apply scans_twice.
Qed.

Lemma diameter_terminates_witness :
  ∃ h g, build New [("a", "b"); ("b", "c")]%string = Some (h, g) ∧
    (∃ D, diameter idSchedule 3 h (nodes g) = Some (D, h, nodes g)) ∧
    ∃ n' bfsData' scans,
      bfsLoopLog (λ _, idOrder) 3 0 h [0] (bfsInit 0 0) 0 [] = Some (n', bfsData', scans) ∧
      NoDup scans ∧ length scans = 4.
Proof.
  destruct (build New [("a", "b"); ("b", "c")]%string) as [[h g]|] eqn:Hb;
    [|by vm_compute in Hb].
  destruct (diameter_terminates _ h g idSchedule 3 Hb) as [HD Hsearch].
  - vm_compute in Hb. injection Hb as <- <-. vm_compute. lia.
  - destruct (Hsearch 0%Z 0 (λ _, idOrder))
      as (_ & _ & _ & _ & _ & _ & n' & B' & scans & Hlog & _ & Hnd & _).
    + vm_compute in Hb. injection Hb as <- <-. reflexivity.
    + exists h, g. split; [reflexivity|]. split; [exact HD|].
      exists n', B', scans. split; [exact Hlog|]. split; [exact Hnd|].
      vm_compute in Hb. injection Hb as <- <-. vm_compute in Hlog.
      injection Hlog as _ _ <-. reflexivity.
Defined.

(** * Further properties of the code *)

(** ** What a built graph holds *)

Lemma build_present (e : list (nodeName * nodeName)) (h : store) (g : Graph)
    (a b : nodeName) :
  build New e = Some (h, g) → (a, b) ∈ e → present h g a b.
Proof.
  intros Hb Hin. apply list_elem_of_split in Hin as (e1 & e2 & ->).
  destruct (build_ginv e1 _ _ ginv_New) as (h1 & g1 & Hb1 & Hg1).
  change (New.1, New.2) with New in Hb1.
  destruct (addEdge_spec h1 g1 a b Hg1) as (h2 & g2 & ia & ib & Hadd & Hg2 & _).
  rewrite build_app, Hb1 in Hb.
  change (build (h1, g1) ((a, b) :: e2) = Some (h, g)) in Hb.
  rewrite build_cons, Hadd in Hb. simpl in Hb.
  apply (build_keeps_present e2 a b h2 g2); [done..|].
  by apply (addEdge_present h1 g1 a b h2 g2).
Qed.

(** X1: the names in the symbol table are exactly the endpoints of the
    inserted edges. *)
Theorem symbolTable_holds_the_endpoints (e : list (nodeName * nodeName))
    (h : store) (g : Graph) (c : nodeName) :
  build New e = Some (h, g) →
  is_Some (symbolTable g !! c) ↔ ∃ d, (c, d) ∈ e ∨ (d, c) ∈ e.
Proof. intros Hb. apply (build_New_names e h g Hb c). Qed.

Lemma symbolTable_holds_the_endpoints_witness :
  ∃ h g, build New [("a", "b"); ("b", "c")]%string = Some (h, g) ∧
    is_Some (symbolTable g !! "c"%string) ∧ ¬ is_Some (symbolTable g !! "d"%string).
Proof.
  destruct (build New [("a", "b"); ("b", "c")]%string) as [[h g]|] eqn:Hb;
    [|by vm_compute in Hb].
  exists h, g. split; [reflexivity|]. split.
  - apply (symbolTable_holds_the_endpoints _ h g "c"%string Hb).
    exists "b"%string. right. apply list_elem_of_In. right. left. reflexivity.
  - intros Hd. apply (symbolTable_holds_the_endpoints _ h g "d"%string Hb) in Hd.
    destruct Hd as [d [Hd|Hd]]; apply list_elem_of_In in Hd;
      repeat (destruct Hd as [Hd|Hd]; [discriminate Hd|]); destruct Hd.
Defined.

(** X2: every inserted edge is there afterwards: both names have ids, both
    ids have nodes, and each node's [adj] map holds the other node under
    the other's id. *)
Theorem inserted_edge_is_adjacent (e : list (nodeName * nodeName))
    (h : store) (g : Graph) (a b : nodeName) :
  build New e = Some (h, g) → (a, b) ∈ e →
  ∃ ia ib pa pb na nb,
    symbolTable g !! a = Some ia ∧ symbolTable g !! b = Some ib ∧
    nodes g !! ia = Some pa ∧ nodes g !! ib = Some pb ∧
    h !! pa = Some na ∧ h !! pb = Some nb ∧
    adj na !! ib = Some pb ∧ adj nb !! ia = Some pa.
Proof.
  intros Hb Hin.
  destruct (build_present e h g a b Hb Hin) as (ia & ib & Ha & Hb' & Hedge).
  pose proof (gi_nodes _ _ (build_New_ginv e h g Hb)) as Hn.
  destruct Hedge as (pa & na & Hpa & Hna & [m Hm]).
  pose proof (ni_adj _ _ Hn pa na ib m Hna Hm) as Hpb.
  destruct (ni_sym _ _ Hn pa na ib m Hna Hm) as (nb & Hnb & Hback).
  destruct (ni_reg _ _ Hn ia pa Hpa) as (na' & Hna' & Hid).
  assert (na' = na) as -> by congruence.
  exists ia, ib, pa, m, na, nb. rewrite Hid in Hback. by split_and!.
Qed.

Lemma inserted_edge_is_adjacent_witness :
  ∃ h g ia ib pa pb na nb,
    build New [("a", "b"); ("b", "c")]%string = Some (h, g) ∧
    symbolTable g !! "b"%string = Some ia ∧ symbolTable g !! "c"%string = Some ib ∧
    nodes g !! ia = Some pa ∧ nodes g !! ib = Some pb ∧
    h !! pa = Some na ∧ h !! pb = Some nb ∧
    adj na !! ib = Some pb ∧ adj nb !! ia = Some pa.
Proof.
  destruct (build New [("a", "b"); ("b", "c")]%string) as [[h g]|] eqn:Hb;
    [|by vm_compute in Hb].
  destruct (inserted_edge_is_adjacent _ h g "b"%string "c"%string Hb)
    as (ia & ib & pa & pb & na & nb & H).
  - apply list_elem_of_In. right. left. reflexivity.
  - exists h, g, ia, ib, pa, pb, na, nb. split; [reflexivity|exact H].
Defined.

(** X3: in a built graph the symbol table, the [nodes] map and the store
    agree: the registered ids are the ids some name has, each id is
    registered with the one node that carries it in its [id] field, and ids
    are [int32] values. *)
Theorem table_nodes_and_store_agree (e : list (nodeName * nodeName))
    (h : store) (g : Graph) :
  build New e = Some (h, g) →
  (∀ i, is_Some (nodes g !! i) ↔ ∃ a, symbolTable g !! a = Some i) ∧
  (∀ i p, nodes g !! i = Some p ↔ ∃ nd, h !! p = Some nd ∧ id nd = i) ∧
  (∀ i, is_Some (nodes g !! i) → int32_range i).
Proof.
  intros Hb. pose proof (build_New_ginv e h g Hb) as Hg.
  pose proof (gi_nodes _ _ Hg) as Hn. split_and!.
  - intros i. split; [apply (gi_named _ _ Hg)|].
    intros [a Ha]. by apply (gi_tab _ _ Hg a).
  - intros i p. split; [apply (ni_reg _ _ Hn)|].
    intros (nd & Hnd & <-). by apply (ni_alloc _ _ Hn).
  - apply (ni_range _ _ Hn).
Qed.

Lemma table_nodes_and_store_agree_witness :
  ∃ h g, build New [("a", "b")]%string = Some (h, g) ∧
    (∀ i p, nodes g !! i = Some p ↔ ∃ nd, h !! p = Some nd ∧ id nd = i).
Proof.
  destruct (build New [("a", "b")]%string) as [[h g]|] eqn:Hb; [|by vm_compute in Hb].
  exists h, g. split; [reflexivity|].
  apply (table_nodes_and_store_agree _ h g Hb).
Defined.

(** X4: one [addEdge] call on a built graph succeeds and adds exactly one
    undirected edge: the nodes are the old ones and the two endpoints, the
    adjacencies are the old ones and the two between the endpoints, and no
    other name's id changes. *)
Theorem addEdge_adds_one_edge (e : list (nodeName * nodeName))
    (h : store) (g : Graph) (a b : nodeName) :
  build New e = Some (h, g) →
  ∃ h' g' ia ib,
    addEdge (h, g) a b = Some (h', g') ∧
    symbolTable g' !! a = Some ia ∧ symbolTable g' !! b = Some ib ∧
    (∀ c, c ≠ a → c ≠ b → symbolTable g' !! c = symbolTable g !! c) ∧
    (∀ c i, symbolTable g !! c = Some i → symbolTable g' !! c = Some i) ∧
    (∀ x, registered (nodes g') x ↔ registered (nodes g) x ∨ x = ia ∨ x = ib) ∧
    (∀ x p, nodes g !! x = Some p → nodes g' !! x = Some p) ∧
    (∀ x y, edge h' (nodes g') x y ↔
            edge h (nodes g) x y ∨ (x = ia ∧ y = ib) ∨ (x = ib ∧ y = ia)).
Proof.
  intros Hb. pose proof (build_New_ginv e h g Hb) as Hg.
  destruct (addEdge_spec h g a b Hg)
    as (h' & g' & ia & ib & Hadd & _ & Hst & Hsub & Ha & Hb' & _ & _ & Hreg & Hkeep & He).
  exists h', g', ia, ib. split_and!; try done.
  - intros c Hca Hcb. by rewrite Hst, !lookup_insert_ne.
  - intros c i Hc. by eapply lookup_weaken.
Qed.

Lemma addEdge_adds_one_edge_witness :
  ∃ h g h' g' ia ib,
    build New [("a", "b")]%string = Some (h, g) ∧
    addEdge (h, g) "b" "c" = Some (h', g') ∧
    symbolTable g' !! "b"%string = Some ia ∧ symbolTable g' !! "c"%string = Some ib ∧
    (∀ x y, edge h' (nodes g') x y ↔
            edge h (nodes g) x y ∨ (x = ia ∧ y = ib) ∨ (x = ib ∧ y = ia)).
Proof.
  destruct (build New [("a", "b")]%string) as [[h g]|] eqn:Hb; [|by vm_compute in Hb].
  destruct (addEdge_adds_one_edge _ h g "b"%string "c"%string Hb)
    as (h' & g' & ia & ib & Hadd & Ha & Hc & _ & _ & _ & _ & He).
  exists h, g, h', g', ia, ib. split_and!; [reflexivity|exact Hadd|exact Ha|exact Hc|exact He].
Defined.

(** ** A search from an id that is not in the graph *)

(** X5: [longestShortestPath] on an id that [nodes] does not hold registers
    a new node without neighbours under that id, at the next free address,
    and returns 0. *)
Theorem longestShortestPath_unknown_start (ord : nat → rangeOrder) (fuel : nat)
    (h : store) (ns : gmap nodeID ptr) (s : nodeID) :
  ns !! s = None → 1 ≤ fuel →
  longestShortestPath ord fuel h ns s
    = Some (0%Z, h ++ [{| id := s; adj := ∅ |}], <[s:=length h]> ns).
Proof.
  intros Hs Hf. destruct fuel as [|fuel]; [lia|].
  unfold longestShortestPath, get. rewrite Hs.
  assert (Hnew : (h ++ [{| id := s; adj := ∅ |}]) !! length h
                 = Some {| id := s; adj := ∅ |}) by by apply list_lookup_middle.
  rewrite Hnew. simpl. unfold bfsIter. rewrite Hnew. simpl.
  unfold mapRange. rewrite map_to_list_empty.
  pose proof (pick_perm (ord 0) []) as Hp. apply Permutation_nil_r in Hp.
  rewrite Hp. simpl.
  assert (Hloop : ∀ B, bfsLoop ord fuel 1 (h ++ [{| id := s; adj := ∅ |}]) [] B (length h)
                       = Some (length h, B)) by (intros B; by destruct fuel).
  rewrite Hloop. simpl. rewrite Hnew. simpl.
  unfold bfsGet, bfsInit. by rewrite lookup_insert_eq.
Qed.

Lemma longestShortestPath_unknown_start_witness :
  longestShortestPath (λ _, revOrder) 1 [] ∅ 7
    = Some (0%Z, [{| id := 7; adj := ∅ |}], <[7%Z:=0]> ∅).
Proof.
  apply (longestShortestPath_unknown_start (λ _, revOrder) 1 [] ∅ 7).
  - reflexivity.
  - lia.
Defined.

(** ** Ids *)

Lemma int32_small (k : Z) : (0 ≤ k < 2147483648)%Z → int32 k = k.
Proof. intros Hk. unfold int32. rewrite Z.mod_small; lia. Qed.

Lemma dense_insert (s : gmap nodeName nodeID) (a : nodeName) (i : nodeID) :
  (∀ k, k < size s → ∃ c, s !! c = Some (int32 (Z.of_nat k))) →
  s !! a = Some i ∨ (s !! a = None ∧ i = int32 (Z.of_nat (size s))) →
  ∀ k, k < size (<[a:=i]> s) → ∃ c, <[a:=i]> s !! c = Some (int32 (Z.of_nat k)).
Proof.
  intros Hd [Ha|[Ha ->]]; [by rewrite insert_id|].
  rewrite map_size_insert_None by done. intros k Hk.
  destruct (decide (k = size s)) as [->|Hne].
  - exists a. apply lookup_insert_eq.
  - destruct (Hd k) as (c & Hc); [lia|]. exists c.
    rewrite lookup_insert_ne; [done|]. intros <-. congruence.
Qed.

Lemma build_dense (e : list (nodeName * nodeName)) : ∀ h g h' g',
  ginv h g →
  (∀ k, k < size (symbolTable g) → ∃ c, symbolTable g !! c = Some (int32 (Z.of_nat k))) →
  build (h, g) e = Some (h', g') →
  ∀ k, k < size (symbolTable g') → ∃ c, symbolTable g' !! c = Some (int32 (Z.of_nat k)).
Proof.
  induction e as [|[a b] e IH]; intros h g h' g' Hg Hd Hb.
  { simpl in Hb. by injection Hb as <- <-. }
  destruct (addEdge_spec h g a b Hg)
    as (h1 & g1 & ia & ib & Hadd & Hg1 & Hst & _ & _ & _ & Hia & Hib & _).
  rewrite build_cons, Hadd in Hb. simpl in Hb.
  apply (IH h1 g1 h' g'); [done| |done].
  rewrite Hst. apply dense_insert; [|done]. by apply dense_insert.
Qed.

(** X6: as long as at most 2^31 names have been seen, the ids are the numbers
    from 0 up to the number of names, one name per id and one id per name. *)
Theorem ids_are_dense_and_distinct (e : list (nodeName * nodeName))
    (h : store) (g : Graph) :
  build New e = Some (h, g) →
  (Z.of_nat (size (symbolTable g)) ≤ 2147483648)%Z →
  (∀ a i, symbolTable g !! a = Some i → (0 ≤ i < Z.of_nat (size (symbolTable g)))%Z) ∧
  (∀ a a' i, symbolTable g !! a = Some i → symbolTable g !! a' = Some i → a = a') ∧
  (∀ i, (0 ≤ i < Z.of_nat (size (symbolTable g)))%Z → ∃ a, symbolTable g !! a = Some i).
Proof.
  intros Hb Hsz.
  assert (Hsz' : (Z.of_nat (size (symbolTable g)) ≤ 4294967296)%Z) by lia.
  pose proof (build_named e [] New.1 New.2 h g named_New Hb Hsz') as [_ [Hval Hinj] _ _].
  simpl in *. split_and!.
  - intros a i Ha. destruct (Hval a i Ha) as (k & Hk & ->).
    rewrite int32_small; lia.
  - done.
  - intros i Hi.
    destruct (build_dense e New.1 New.2 h g ginv_New) with (k := Z.to_nat i) as (c & Hc);
      [intros k Hk; simpl in Hk; rewrite map_size_empty in Hk; lia|done|lia|].
    exists c. rewrite Z2Nat.id, int32_small in Hc; [done|lia..].
Qed.

Lemma ids_are_dense_and_distinct_witness :
  ∃ h g, build New [("a", "b"); ("b", "c")]%string = Some (h, g) ∧
    (∀ a a' i, symbolTable g !! a = Some i → symbolTable g !! a' = Some i → a = a') ∧
    (∀ i, (0 ≤ i < 3)%Z → ∃ a, symbolTable g !! a = Some i).
Proof.
  destruct (build New [("a", "b"); ("b", "c")]%string) as [[h g]|] eqn:Hb;
    [|by vm_compute in Hb].
  assert (Hsz : size (symbolTable g) = 3).
  { vm_compute in Hb. injection Hb as <- <-. reflexivity. }
  destruct (ids_are_dense_and_distinct _ h g Hb) as (_ & Hinj & Hsur).
  - rewrite Hsz. lia.
  - exists h, g. split; [reflexivity|]. split; [exact Hinj|].
    intros i Hi. apply Hsur. rewrite Hsz. exact Hi.
Defined.

(** ** Nothing is removed *)

Lemma get_store_grows (h : store) (ns : gmap nodeID ptr) (i : nodeID)
    (p : ptr) (h' : store) (ns' : gmap nodeID ptr) :
  get h ns i = (p, h', ns') → ∀ q nd, h !! q = Some nd → h' !! q = Some nd.
Proof.
  unfold get. destruct (ns !! i); intros [= <- <- <-] q nd Hq; [done|].
  by apply lookup_app_l_Some.
Qed.

Lemma addEdge_store_grows (h : store) (g : Graph) (a b : nodeName)
    (h' : store) (g' : Graph) :
  ginv h g → addEdge (h, g) a b = Some (h', g') →
  ∀ p nd, h !! p = Some nd →
    ∃ nd', h' !! p = Some nd' ∧ id nd' = id nd ∧ adj nd ⊆ adj nd'.
Proof.
  intros Hg Hadd p nd Hp. pose proof (gi_nodes _ _ Hg) as Hn.
  destruct (getID_spec (symbolTable g) a) as (ia & s1 & Hg1 & -> & _ & Hia).
  destruct (getID_spec (<[a:=ia]> (symbolTable g)) b) as (ib & s2 & Hg2 & -> & _ & Hib).
  assert (Hra : int32_range ia).
  { destruct Hia as [Hia|[_ ->]]; [|apply int32_in_range].
    by apply (ni_range _ _ Hn), (gi_tab _ _ Hg a). }
  assert (Hrb : int32_range ib).
  { destruct Hib as [Hib|[_ ->]]; [|apply int32_in_range].
    apply lookup_insert_Some in Hib as [[_ <-]|[_ Hib]]; [done|].
    by apply (ni_range _ _ Hn), (gi_tab _ _ Hg b). }
  destruct (get_ninv h (nodes g) ia Hn Hra) as (an & h1 & ns1 & Hget1 & Hn1 & Han & _ & Hk1 & _).
  destruct (get_ninv h1 ns1 ib Hn1 Hrb) as (bn & h2 & ns2 & Hget2 & Hn2 & Hbn & _ & Hk2 & _).
  pose proof (Hk2 _ _ Han) as Han2.
  destruct (ni_reg _ _ Hn2 ia an Han2) as (na & Hna & Hida).
  destruct (ni_reg _ _ Hn2 ib bn Hbn) as (nb & Hnb & Hidb).
  destruct (add_add_lookup h2 an bn na nb Hna Hnb) as (h4 & Hadd4 & Hlk).
  assert (Hh' : h' = h4).
  { unfold addEdge in Hadd. rewrite Hg1, Hg2 in Hadd.
    unfold nodes_addEdge in Hadd. rewrite Hget1, Hget2 in Hadd.
    unfold mbind, option_bind in *.
    destruct (add h2 an bn) as [h3|]; [|done].
    destruct (add h3 bn an); [|done]. simpl in Hadd. congruence. }
  subst h'.
  pose proof (get_store_grows _ _ _ _ _ _ Hget2 p nd
                (get_store_grows _ _ _ _ _ _ Hget1 p nd Hp)) as Hp2.
  eexists. split; [by rewrite Hlk, Hp2|]. split; [done|]. simpl.
  apply map_subseteq_spec. intros j m Hm. apply linkAdj_lookup.
  pose proof (ni_adj _ _ Hn2 p nd j m Hp2 Hm) as Hj.
  rewrite Hida, Hidb.
  destruct (decide (p = bn ∧ j = ia)) as [[-> ->]|Hc1]; [left; naive_solver|].
  right. split; [done|].
  destruct (decide (p = an ∧ j = ib)) as [[-> ->]|Hc2]; [left; naive_solver|].
  by right.
Qed.

(** X7: inserting more edges never takes anything away: every name keeps its
    id, every id keeps its node, and every node keeps its address, its [id]
    and all entries of its [adj] map. *)
Theorem build_only_grows (e e' : list (nodeName * nodeName))
    (h : store) (g : Graph) (h' : store) (g' : Graph) :
  build New e = Some (h, g) → build (h, g) e' = Some (h', g') →
  symbolTable g ⊆ symbolTable g' ∧ nodes g ⊆ nodes g' ∧
  ∀ p nd, h !! p = Some nd →
    ∃ nd', h' !! p = Some nd' ∧ id nd' = id nd ∧ adj nd ⊆ adj nd'.
Proof.
  intros Hb Hb'. pose proof (build_New_ginv e h g Hb) as Hg. clear Hb.
  revert h g Hg Hb'. induction e' as [|[a b] e' IH]; intros h g Hg Hb'.
  { simpl in Hb'. injection Hb' as <- <-. split_and!; [done..|]. eauto. }
  destruct (addEdge_spec h g a b Hg)
    as (h1 & g1 & ia & ib & Hadd & Hg1 & _ & Hsub & _ & _ & _ & _ & _ & Hkeep & _).
  rewrite build_cons, Hadd in Hb'. simpl in Hb'.
  destruct (IH h1 g1 Hg1 Hb') as (Hs & Hns & Hst). split_and!.
  - by etrans.
  - etrans; [|done]. apply map_subseteq_spec. apply Hkeep.
  - intros p nd Hp.
    destruct (addEdge_store_grows h g a b h1 g1 Hg Hadd p nd Hp) as (nd1 & Hp1 & Hid1 & Hadj1).
    destruct (Hst p nd1 Hp1) as (nd' & Hp' & Hid' & Hadj').
    exists nd'. split_and!; [done|congruence|by etrans].
Qed.

Lemma build_only_grows_witness :
  ∃ h g h' g', build New [("a", "b")]%string = Some (h, g) ∧
    build (h, g) [("b", "c"); ("c", "a")]%string = Some (h', g') ∧
    symbolTable g ⊆ symbolTable g' ∧ nodes g ⊆ nodes g'.
Proof.
  destruct (build New [("a", "b")]%string) as [[h g]|] eqn:Hb; [|by vm_compute in Hb].
  destruct (build (h, g) [("b", "c"); ("c", "a")]%string) as [[h' g']|] eqn:Hb'.
  - destruct (build_only_grows _ _ h g h' g' Hb Hb') as (Hs & Hn & _).
    exists h, g, h', g'. split_and!; [reflexivity|exact Hb'|exact Hs|exact Hn].
  - vm_compute in Hb. injection Hb as <- <-. by vm_compute in Hb'.
Defined.

(** ** The two endpoints of an edge *)

Lemma linkAdj_swap (an bn : ptr) (a b : nodeID) (p : ptr) (m : gmap nodeID ptr) :
  (an = bn → a = b) → linkAdj an bn a b p m = linkAdj bn an b a p m.
Proof.
  intros Hab. unfold linkAdj. repeat case_decide; subst; try done.
  by rewrite (Hab eq_refl).
Qed.

(** X8: between two names the graph already has, [addEdge a b] and
    [addEdge b a] give the same state. *)
Theorem addEdge_endpoints_commute (e : list (nodeName * nodeName))
    (h : store) (g : Graph) (a b : nodeName) :
  build New e = Some (h, g) →
  is_Some (symbolTable g !! a) → is_Some (symbolTable g !! b) →
  addEdge (h, g) a b = addEdge (h, g) b a.
Proof.
  intros Hb [ia Ha] [ib Hb']. pose proof (build_New_ginv e h g Hb) as Hg.
  pose proof (gi_nodes _ _ Hg) as Hn.
  destruct (gi_tab _ _ Hg a ia Ha) as [pa Hpa].
  destruct (gi_tab _ _ Hg b ib Hb') as [pb Hpb].
  destruct (ni_reg _ _ Hn ia pa Hpa) as (na & Hna & Hida).
  destruct (ni_reg _ _ Hn ib pb Hpb) as (nb & Hnb & Hidb).
  unfold addEdge, getID. rewrite Ha, Hb', Ha.
  unfold nodes_addEdge.
  rewrite !(get_present _ _ _ _ Hpa), !(get_present _ _ _ _ Hpb), (get_present _ _ _ _ Hpa).
  destruct (add_add_lookup h pa pb na nb Hna Hnb) as (h1 & Hadd1 & Hlk1).
  destruct (add_add_lookup h pb pa nb na Hnb Hna) as (h2 & Hadd2 & Hlk2).
  assert (h1 = h2) as ->.
  { apply list_eq. intros p. rewrite Hlk1, Hlk2.
    destruct (h !! p) as [nd|]; [|done]. simpl. do 2 f_equal.
    apply linkAdj_swap. intros ->. congruence. }
  unfold mbind, option_bind in *.
  destruct (add h pa pb) as [h3|]; [|done]. destruct (add h pb pa) as [h3'|]; [|done].
  by rewrite Hadd1, Hadd2.
Qed.

Lemma addEdge_endpoints_commute_witness :
  ∃ h g, build New [("a", "b"); ("c", "d")]%string = Some (h, g) ∧
    addEdge (h, g) "a" "d" = addEdge (h, g) "d" "a".
Proof.
  destruct (build New [("a", "b"); ("c", "d")]%string) as [[h g]|] eqn:Hb;
    [|by vm_compute in Hb].
  exists h, g. split; [reflexivity|].
  apply (addEdge_endpoints_commute _ h g "a"%string "d"%string Hb).
  - vm_compute in Hb. injection Hb as <- <-. vm_compute. eauto.
  - vm_compute in Hb. injection Hb as <- <-. vm_compute. eauto.
Defined.

(** ** What a search records *)

(** The final [bfsData] of a search from a registered node: the recorded
    nodes are the reachable ones, and each depth is a shortest distance. *)
Lemma bfsLoop_final (h : store) (ns : gmap nodeID ptr) (ord : nat → rangeOrder)
    (fuel : nat) (v : nodeID) (pv : ptr) :
  wf h ns → ns !! v = Some pv → size ns ≤ fuel →
  ∃ n' B', bfsLoop ord fuel 0 h [pv] (bfsInit pv v) pv = Some (n', B') ∧
    (∀ x, is_Some (B' !! x) ↔ connected (edge h ns) v x) ∧
    (∀ x b, B' !! x = Some b →
       (0 ≤ depth b < Z.of_nat (size ns))%Z ∧
       shortest (edge h ns) v x (Z.to_nat (depth b))).
Proof.
  intros Hwf Hv Hf.
  destruct (bfsLoop_inv h ns Hwf v ord fuel 0 [] [v] [pv] (bfsInit pv v) pv)
    as (n' & B' & tl & c & Hloop & Ho & _);
    [by apply binv_init|by repeat constructor|done|simpl; lia|].
  simpl in Ho. pose proof (oi_binv _ _ _ _ _ _ Ho) as Hb. rewrite app_nil_r in Hb.
  exists n', B'. split_and!; [done|..].
  - intros x. split.
    + intros Hx. destruct (bi_walk _ _ _ _ _ Hb x Hx) as [_ Hw]. by eexists.
    + intros [k Hk]. by destruct (final_walk h ns v tl B' k x Ho Hk).
  - intros x b Hx. assert (Hx' : is_Some (B' !! x)) by eauto.
    rewrite <-(dep_lookup B' x b Hx). split_and!.
    + by destruct (bi_walk _ _ _ _ _ Hb x Hx').
    + pose proof (bi_size _ _ _ _ _ Hb x Hx'). pose proof (binv_length _ _ _ _ _ Hb). lia.
    + by eapply final_shortest.
Qed.

(** X9: when a search from a node of the graph ends, [bfsData] holds exactly
    the nodes reachable from the start, each with its shortest-path distance
    from the start as depth. *)
Theorem bfs_depths_are_distances (e : list (nodeName * nodeName))
    (h : store) (g : Graph) (v : nodeID) (pv : ptr)
    (ord : nat → rangeOrder) (fuel : nat) :
  build New e = Some (h, g) → nodes g !! v = Some pv → size (nodes g) ≤ fuel →
  ∃ n' bfsData',
    bfsLoop ord fuel 0 h [pv] (bfsInit pv v) pv = Some (n', bfsData') ∧
    (∀ x, is_Some (bfsData' !! x) ↔ connected (edge h (nodes g)) v x) ∧
    (∀ x b, bfsData' !! x = Some b →
       (0 ≤ depth b)%Z ∧ shortest (edge h (nodes g)) v x (Z.to_nat (depth b))).
Proof.
  intros Hb Hv Hf.
  destruct (bfsLoop_final h (nodes g) ord fuel v pv (build_New_wf e h g Hb) Hv Hf)
    as (n' & B' & Hloop & Hdom & Hdep).
  exists n', B'. split_and!; [done..|].
  intros x b Hx. destruct (Hdep x b Hx) as [[? _] ?]. done.
Qed.

Lemma bfs_depths_are_distances_witness :
  ∃ h g n' bfsData' b,
    build New [("a", "b"); ("b", "c")]%string = Some (h, g) ∧
    bfsLoop (λ _, idOrder) 3 0 h [0] (bfsInit 0 0) 0 = Some (n', bfsData') ∧
    bfsData' !! 2%Z = Some b ∧ depth b = 2%Z ∧
    shortest (edge h (nodes g)) 0%Z 2%Z 2.
Proof.
  destruct (build New [("a", "b"); ("b", "c")]%string) as [[h g]|] eqn:Hb;
    [|by vm_compute in Hb].
  destruct (bfs_depths_are_distances _ h g 0%Z 0 (λ _, idOrder) 3 Hb)
    as (n' & B' & Hloop & _ & Hdep).
  - vm_compute in Hb. injection Hb as <- <-. reflexivity.
  - vm_compute in Hb. injection Hb as <- <-. vm_compute. lia.
  - assert (Hx : ∃ b, B' !! 2%Z = Some b ∧ depth b = 2%Z).
    { vm_compute in Hb. injection Hb as <- <-. vm_compute in Hloop.
      injection Hloop as <- <-. eexists. split; reflexivity. }
    destruct Hx as (b & Hx & Hd).
    exists h, g, n', B', b. split_and!; [reflexivity|exact Hloop|exact Hx|exact Hd|].
    destruct (Hdep 2%Z b Hx) as [_ Hs]. rewrite Hd in Hs. exact Hs.
Defined.

Lemma walk_cons {A} (E : A → A → Prop) (x y z : A) (k : nat) :
  E x y → walk E y k z → walk E x (S k) z.
Proof.
  intros He Hw. induction Hw as [|k z w Hw IH He'].
  - econstructor; [constructor|done].
  - econstructor; [exact IH|done].
Qed.

Lemma walk_rev {A} (E : A → A → Prop) (x y : A) (k : nat) :
  (∀ u v, E u v → E v u) → walk E x k y → walk E y k x.
Proof.
  intros Hsym Hw. induction Hw as [|k y z Hw IH He]; [constructor|].
  eapply walk_cons; [by apply Hsym|done].
Qed.

Lemma shortest_sym {A} (E : A → A → Prop) (x y : A) (d : nat) :
  (∀ u v, E u v → E v u) → shortest E x y d → shortest E y x d.
Proof.
  intros Hsym [Hw Hmin]. split; [by apply walk_rev|].
  intros k Hk. apply Hmin. by apply walk_rev.
Qed.

(** X10: searches agree in both directions: the depth a search from [x]
    records for [y] is the depth a search from [y] records for [x], and
    neither records the other if the two are not connected. *)
Theorem bfs_depth_symmetric (e : list (nodeName * nodeName))
    (h : store) (g : Graph) (x y : nodeID) (px py : ptr)
    (ord ord' : nat → rangeOrder) (fuel : nat) :
  build New e = Some (h, g) →
  nodes g !! x = Some px → nodes g !! y = Some py → size (nodes g) ≤ fuel →
  ∃ nx Bx ny By,
    bfsLoop ord fuel 0 h [px] (bfsInit px x) px = Some (nx, Bx) ∧
    bfsLoop ord' fuel 0 h [py] (bfsInit py y) py = Some (ny, By) ∧
    depth <$> Bx !! y = depth <$> By !! x.
Proof.
  intros Hb Hx Hy Hf. pose proof (build_New_wf e h g Hb) as Hwf.
  pose proof (gi_nodes _ _ (build_New_ginv e h g Hb)) as Hn.
  assert (Hsym : ∀ u v, edge h (nodes g) u v → edge h (nodes g) v u)
    by (intros u v; by apply edge_sym).
  destruct (bfsLoop_final h (nodes g) ord fuel x px Hwf Hx Hf) as (nx & Bx & Hlx & Hdx & Hsx).
  destruct (bfsLoop_final h (nodes g) ord' fuel y py Hwf Hy Hf) as (ny & By & Hly & Hdy & Hsy).
  exists nx, Bx, ny, By. split_and!; [done..|].
  assert (Hone : ∀ (u v : Z) (Bu Bv : gmap Z bfsNode),
    (∀ w, is_Some (Bu !! w) ↔ connected (edge h (nodes g)) u w) →
    (∀ w, is_Some (Bv !! w) ↔ connected (edge h (nodes g)) v w) →
    (∀ w b, Bu !! w = Some b → (0 ≤ depth b < Z.of_nat (size (nodes g)))%Z ∧
                               shortest (edge h (nodes g)) u w (Z.to_nat (depth b))) →
    (∀ w b, Bv !! w = Some b → (0 ≤ depth b < Z.of_nat (size (nodes g)))%Z ∧
                               shortest (edge h (nodes g)) v w (Z.to_nat (depth b))) →
    ∀ b, Bu !! v = Some b → depth <$> Bv !! u = Some (depth b)).
  { intros u v Bu Bv Hdu Hdv Hsu Hsv b Hb'.
    destruct (Hsu v b Hb') as [[H0 _] Hs].
    assert (Hc : is_Some (Bv !! u)).
    { apply Hdv. destruct Hs as [Hw _]. exists (Z.to_nat (depth b)). by apply walk_rev. }
    destruct Hc as [b' Hb'']. rewrite Hb''. simpl. f_equal.
    destruct (Hsv u b' Hb'') as [[H0' _] Hs'].
    pose proof (shortest_unique _ _ _ _ _ (shortest_sym _ _ _ _ Hsym Hs) Hs'). lia. }
  destruct (Bx !! y) as [b|] eqn:Hbx.
  - simpl. symmetry. by apply (Hone x y Bx By).
  - destruct (By !! x) as [b'|] eqn:Hby; [|done].
    pose proof (Hone y x By Bx Hdy Hdx Hsy Hsx b' Hby) as Hc.
    rewrite Hbx in Hc. done.
Qed.

Lemma bfs_depth_symmetric_witness :
  ∃ h g nx Bx ny By,
    build New [("a", "b"); ("b", "c")]%string = Some (h, g) ∧
    bfsLoop (λ _, idOrder) 3 0 h [0] (bfsInit 0 0) 0 = Some (nx, Bx) ∧
    bfsLoop (λ _, revOrder) 3 0 h [2] (bfsInit 2 2) 2 = Some (ny, By) ∧
    depth <$> Bx !! 2%Z = depth <$> By !! 0%Z.
Proof.
  destruct (build New [("a", "b"); ("b", "c")]%string) as [[h g]|] eqn:Hb;
    [|by vm_compute in Hb].
  destruct (bfs_depth_symmetric _ h g 0%Z 2%Z 0 2 (λ _, idOrder) (λ _, revOrder) 3 Hb)
    as (nx & Bx & ny & By & H).
  - vm_compute in Hb. injection Hb as <- <-. reflexivity.
  - vm_compute in Hb. injection Hb as <- <-. reflexivity.
  - vm_compute in Hb. injection Hb as <- <-. vm_compute. lia.
  - exists h, g, nx, Bx, ny, By. split; [reflexivity|exact H].
Defined.

(** X11: [diameter] is never negative and stays below the number of nodes
    (it is 0 on the empty graph). *)
Theorem diameter_is_bounded (e : list (nodeName * nodeName))
    (h : store) (g : Graph) (sch : schedule) (fuel : nat) :
  build New e = Some (h, g) → size (nodes g) ≤ fuel →
  ∃ D, diameter sch fuel h (nodes g) = Some (D, h, nodes g) ∧
       (0 ≤ D)%Z ∧ (D < Z.of_nat (size (nodes g)) ∨ (nodes g = ∅ ∧ D = 0))%Z.
Proof.
  intros Hb Hf. pose proof (build_New_wf e h g Hb) as Hwf.
  destruct (diameter_spec h (nodes g) sch fuel Hwf Hf) as (D & Hd & HD).
  exists D. split; [done|]. split; [by eapply diam_nonneg|].
  destruct HD as [_ [(x & y & d & [px Hx] & _ & Hs & ->)|[Hnone ->]]].
  - left.
    destruct (bfsLoop_final h (nodes g) (adjOrder sch x) fuel x px Hwf Hx Hf)
      as (n' & B' & _ & Hdom & Hdep).
    assert (Hy : is_Some (B' !! y)) by (apply Hdom; destruct Hs as [Hw _]; by eexists).
    destruct Hy as [b Hy]. destruct (Hdep y b Hy) as [[H0 Hlt] Hs'].
    pose proof (shortest_unique _ _ _ _ _ Hs Hs'). lia.
  - right. split; [|done]. apply map_empty. intros i.
    destruct (nodes g !! i) eqn:Hi; [|done]. destruct (Hnone i). by eexists.
Qed.

Lemma diameter_is_bounded_witness :
  ∃ h g D, build New [("a", "b"); ("b", "c")]%string = Some (h, g) ∧
    diameter revSchedule 3 h (nodes g) = Some (D, h, nodes g) ∧ (0 ≤ D < 3)%Z.
Proof.
  destruct (build New [("a", "b"); ("b", "c")]%string) as [[h g]|] eqn:Hb;
    [|by vm_compute in Hb].
  assert (Hsz : size (nodes g) = 3).
  { vm_compute in Hb. injection Hb as <- <-. reflexivity. }
  destruct (diameter_is_bounded _ h g revSchedule 3 Hb) as (D & Hd & H0 & Hlt).
  - rewrite Hsz. lia.
  - exists h, g, D. split; [reflexivity|]. split; [exact Hd|].
    destruct Hlt as [Hlt|[Hemp _]].
    + rewrite Hsz in Hlt. lia.
    + rewrite Hemp in Hsz. discriminate Hsz.
Defined.

(** ** The parents a search records *)

Lemma visit_parentTree (h : store) (ns : gmap nodeID ptr) (s : nodeID) (ps : ptr)
    (dn : list nodeID) (cur : nodeID) (pc : ptr) (ndc : node)
    (qi : list nodeID) (q : list ptr) (B : gmap nodeID bfsNode) (y : nodeID) (m : ptr) :
  wf h ns → ns !! cur = Some pc → h !! pc = Some ndc → adj ndc !! y = Some m →
  iinv h ns s dn cur qi B → parentTree h ns s ps B →
  parentTree h ns s ps (visit pc cur (B, q) (y, m)).1.
Proof.
  intros Hwf Hcur Hpc Hadj [Hb Hbd _] Ht.
  unfold visit, bfsGet. destruct (B !! y) as [b|] eqn:Hy; simpl.
  { by destruct (bi_par _ _ _ _ _ Hb y b Hy) as [p' ->]. }
  assert (Hcd : is_Some (B !! cur)).
  { apply (bi_dom _ _ _ _ _ Hb). apply elem_of_app; left. apply elem_of_app; right. left. }
  destruct Hcd as [bc Hbc].
  destruct (bi_walk _ _ _ _ _ Hb cur (mk_is_Some _ _ Hbc)) as [Hc0 _].
  pose proof (bi_size _ _ _ _ _ Hb cur (mk_is_Some _ _ Hbc)) as Hcs.
  pose proof (binv_length _ _ _ _ _ Hb) as Hlen.
  pose proof (size_int32_keys ns (wf_range _ _ Hwf)) as Hsz.
  rewrite (dep_lookup B cur bc Hbc) in Hc0, Hcs.
  rewrite Hbc. simpl. rewrite int_small by lia.
  assert (Hne : y ≠ cur) by (intros ->; congruence).
  intros x b [[<- <-]|[Hxy Hx]]%lookup_insert_Some.
  - right. exists cur, pc, bc. simpl. split_and!; [done..| | |done].
    + exists pc, ndc. eauto.
    + by rewrite lookup_insert_ne.
  - destruct (Ht x b Hx) as [?|(y0 & py & bp & Hpar & Hy0 & He & Hbp & Hd)]; [by left|].
    right. exists y0, py, bp. split_and!; [done..| |done].
    rewrite lookup_insert_ne; [done|]. intros <-. congruence.
Qed.

Lemma visits_parentTree (h : store) (ns : gmap nodeID ptr) (s : nodeID) (ps : ptr)
    (dn : list nodeID) (cur : nodeID) (pc : ptr) (ndc : node)
    (L : list (nodeID * ptr)) : ∀ qi q B,
  wf h ns → ns !! cur = Some pc → h !! pc = Some ndc →
  (∀ y m, (y, m) ∈ L → adj ndc !! y = Some m) →
  iinv h ns s dn cur qi B → holds ns qi q → parentTree h ns s ps B →
  parentTree h ns s ps (foldl (visit pc cur) (B, q) L).1.
Proof.
  induction L as [|[y m] L IH]; intros qi q B Hwf Hcur Hpc HL Hi Hq Ht; [done|].
  destruct (visit_inv h ns Hwf s dn cur pc ndc qi q B y m)
    as (B1 & new1 & newp1 & Hv & Hi1 & Hn1 & _); [done|done|apply HL; left|done|done|].
  pose proof (visit_parentTree h ns s ps dn cur pc ndc qi q B y m Hwf Hcur Hpc
                (HL y m (list_elem_of_here _ _)) Hi Ht) as Ht1.
  change (foldl (visit pc cur) (B, q) ((y, m) :: L))
    with (foldl (visit pc cur) (visit pc cur (B, q) (y, m)) L).
  rewrite Hv in Ht1 |- *. simpl in Ht1.
  apply (IH (qi ++ new1) (q ++ newp1) B1); try done.
  - intros y' m' Hin. apply HL. by right.
  - by apply Forall2_app.
Qed.

Lemma bfsLoop_parentTree (h : store) (ns : gmap nodeID ptr) (s : nodeID) (ps : ptr)
    (ord : nat → rangeOrder) (fuel : nat) : ∀ k dn qi q B n n' B',
  wf h ns → oinv h ns s dn qi B → holds ns qi q → parentTree h ns s ps B →
  bfsLoop ord fuel k h q B n = Some (n', B') → parentTree h ns s ps B'.
Proof.
  induction fuel as [|fuel IH]; intros k dn qi q B n n' B' Hwf Ho Hq Ht Hloop.
  - destruct q as [|p q]; [|done]. simpl in Hloop. by injection Hloop as _ <-.
  - destruct Hq as [|x p qi q Hx Hq].
    { simpl in Hloop. by injection Hloop as _ <-. }
    destruct (bfsIter_inv h ns Hwf s (ord k) dn x p qi q B Ho Hx Hq)
      as (B1 & new & newp & Hit & Ho1 & Hn1 & _).
    simpl in Hloop. rewrite Hit in Hloop. simpl in Hloop.
    apply (IH (S k) (dn ++ [x]) (qi ++ new) (q ++ newp) B1 p n' B'); try done.
    + by apply Forall2_app.
    + destruct (wf_node _ _ Hwf x p Hx) as (nd & Hnd & Hid).
      unfold bfsIter in Hit. rewrite Hnd in Hit. simpl in Hit. rewrite Hid in Hit.
      injection Hit as Hit.
      pose proof (visits_parentTree h ns s ps dn x p nd (mapRange (ord k) (adj nd))
                    qi q B Hwf Hx Hnd) as Hv.
      rewrite Hit in Hv. apply Hv; [|by apply oinv_dequeue|done..].
      intros y m Hin. unfold mapRange in Hin. rewrite (pick_perm (ord k)) in Hin.
      by apply elem_of_map_to_list in Hin.
Qed.

(** X12: a search from a node of the graph returns, given fuel for one
    dequeue per node, and the parents it has recorded form a tree rooted at
    the start: the start is its own parent at depth 0, and the parent of any
    other recorded node is a recorded node that holds it in its [adj] map, at
    the depth just above. *)
Theorem bfs_parents_form_a_tree (e : list (nodeName * nodeName))
    (h : store) (g : Graph) (v : nodeID) (pv : ptr)
    (ord : nat → rangeOrder) (fuel : nat) :
  build New e = Some (h, g) → nodes g !! v = Some pv → size (nodes g) ≤ fuel →
  ∃ n' bfsData',
    bfsLoop ord fuel 0 h [pv] (bfsInit pv v) pv = Some (n', bfsData') ∧
    parentTree h (nodes g) v pv bfsData'.
Proof.
  intros Hb Hv Hf. pose proof (build_New_wf e h g Hb) as Hwf.
  destruct (bfsLoop_final h (nodes g) ord fuel v pv Hwf Hv Hf) as (n' & B' & Hloop & _).
  exists n', B'. split; [done|].
  apply (bfsLoop_parentTree h (nodes g) v pv ord fuel 0 [] [v] [pv] (bfsInit pv v) pv n');
    [done|by apply binv_init|by repeat constructor| |done].
  unfold bfsInit. intros x b [[<- <-]|[_ Hx]]%lookup_insert_Some; [by left|].
  by rewrite lookup_empty in Hx.
Qed.

Lemma bfs_parents_form_a_tree_witness :
  ∃ h g n' bfsData',
    build New [("a", "b"); ("b", "c")]%string = Some (h, g) ∧
    bfsLoop (λ _, revOrder) 3 0 h [0] (bfsInit 0 0) 0 = Some (n', bfsData') ∧
    parentTree h (nodes g) 0 0 bfsData'.
Proof.
  destruct (build New [("a", "b"); ("b", "c")]%string) as [[h g]|] eqn:Hb;
    [|by vm_compute in Hb].
  destruct (bfs_parents_form_a_tree _ h g 0%Z 0 (λ _, revOrder) 3 Hb)
    as (n' & B' & Hloop & Htree).
  - vm_compute in Hb. injection Hb as <- <-. reflexivity.
  - vm_compute in Hb. injection Hb as <- <-. vm_compute. lia.
  - exists h, g, n', B'. split; [reflexivity|]. split; [exact Hloop|exact Htree].
Defined.

(** ** Diameter 0 *)

(** X13: [diameter] returns 0 exactly when no node holds another node in its
    [adj] map (the graph is empty or has self-adjacencies only). *)
Theorem diameter_zero_iff_no_proper_edge (e : list (nodeName * nodeName))
    (h : store) (g : Graph) (sch : schedule) (fuel : nat) :
  build New e = Some (h, g) → size (nodes g) ≤ fuel →
  ∃ D, diameter sch fuel h (nodes g) = Some (D, h, nodes g) ∧
       (D = 0%Z ↔ ∀ x y, edge h (nodes g) x y → x = y).
Proof.
  intros Hb Hf. pose proof (build_New_wf e h g Hb) as Hwf.
  destruct (diameter_spec h (nodes g) sch fuel Hwf Hf) as (D & Hd & [Hub Hex]).
  exists D. split; [done|]. split.
  - intros -> x y Hxy. destruct (decide (x = y)) as [|Hne]; [done|exfalso].
    destruct Hxy as (p & nd & Hp & Hnd & [m Hm]).
    assert (Hs : shortest (edge h (nodes g)) x y 1).
    { split.
      - econstructor; [constructor|]. exists p, nd. eauto.
      - intros [|k] Hk; [|lia]. by inversion Hk. }
    pose proof (Hub x y 1 (mk_is_Some _ _ Hp)
                  (mk_is_Some _ _ (wf_adj _ _ Hwf x p nd y m Hp Hnd Hm)) Hs). lia.
  - intros Hloops. destruct Hex as [(x & y & d & _ & _ & [Hw Hmin] & ->)|[_ ->]]; [|done].
    rewrite (walk_loops _ x y d Hloops Hw) in Hmin.
    pose proof (Hmin 0 (walk_nil _ x)). lia.
Qed.

Lemma diameter_zero_iff_no_proper_edge_witness :
  ∃ h g, build New [("a", "a"); ("b", "b")]%string = Some (h, g) ∧
    diameter idSchedule 2 h (nodes g) = Some (0%Z, h, nodes g) ∧
    ∀ x y, edge h (nodes g) x y → x = y.
Proof.
  destruct (build New [("a", "a"); ("b", "b")]%string) as [[h g]|] eqn:Hb;
    [|by vm_compute in Hb].
  destruct (diameter_zero_iff_no_proper_edge _ h g idSchedule 2 Hb) as (D & Hd & Hiff).
  - vm_compute in Hb. injection Hb as <- <-. vm_compute. lia.
  - assert (HD : D = 0%Z).
    { vm_compute in Hb. injection Hb as <- <-. vm_compute in Hd. congruence. }
    exists h, g. split; [reflexivity|]. rewrite HD in Hd. split; [exact Hd|].
    apply Hiff. exact HD.
Defined.

(** ** Loading edge records *)

Lemma loadEdges_well_formed (scanned : list (list string)) (stop : scanStop) : ∀ w,
  Forall wellFormed scanned →
  loadEdges w scanned stop = Loaded <$> build w (omap edgeOf scanned).
Proof.
  induction scanned as [|edge scanned IH]; intros w Hwf; [done|].
  apply Forall_cons in Hwf as [Hedge Hwf].
  destruct edge as [|a [|b [|c edge]]]; simpl.
  - by apply IH.
  - destruct Hedge as [Hl|Hl]; simpl in Hl; lia.
  - destruct (addEdge w a b) as [w'|]; [|done]. simpl. by apply IH.
  - destruct Hedge as [Hl|Hl]; simpl in Hl; lia.
Qed.

(** X14: when every line the scanner hands over has no field or two, the
    loading loop builds the graph of the two-field lines among them, in
    order; lines without fields change nothing.  The loop is left when the
    scanner stops, at the end of the input or on a failure alike: a failure
    is not reported, and the graph is that of the lines handed over before
    it. *)
Theorem loadEdges_is_build (scanned : list (list string)) (stop : scanStop) :
  Forall wellFormed scanned →
  ∃ h g, build New (omap edgeOf scanned) = Some (h, g) ∧
         loadEdges New scanned stop = Some (Loaded (h, g)).
Proof.
  intros Hwf. destruct (build_total (omap edgeOf scanned)) as (h & g & Hb).
  exists h, g. split; [done|]. by rewrite loadEdges_well_formed, Hb.
Qed.

Lemma loadEdges_is_build_witness :
  ∃ h g, build New [("a", "b"); ("b", "c")]%string = Some (h, g) ∧
    loadEdges New [["a"; "b"]; []; ["b"; "c"]; []]%string ScanFailed
      = Some (Loaded (h, g)).
Proof.
  apply (loadEdges_is_build [["a"; "b"]; []; ["b"; "c"]; []]%string ScanFailed).
  repeat (apply Forall_cons; split; [first [by left | by right]|]). constructor.
Defined.

(** X15: the first line handed over by the scanner whose number of fields is
    neither 0 nor 2 ends the loading: the lines handed over before it are
    inserted, and the scanner is not asked for another line. *)
Theorem loadEdges_stops_at_malformed (good rest : list (list string)) (bad : list string)
    (stop : scanStop) :
  Forall wellFormed good → ¬ wellFormed bad →
  ∃ h g, build New (omap edgeOf good) = Some (h, g) ∧
         loadEdges New (good ++ bad :: rest) stop = Some (Malformed (h, g)).
Proof.
  intros Hgood Hbad. destruct (build_total (omap edgeOf good)) as (h & g & Hb).
  exists h, g. split; [done|]. revert Hb. generalize New.
  induction good as [|edge good IH]; intros w Hb.
  - simpl in Hb. injection Hb as ->. simpl.
    destruct bad as [|a [|b [|c bad]]]; try done; destruct Hbad; [by left|by right].
  - apply Forall_cons in Hgood as [Hedge Hgood].
    destruct edge as [|a [|b [|c edge]]]; simpl in *.
    + by apply IH.
    + destruct Hedge as [Hl|Hl]; simpl in Hl; lia.
    + destruct (addEdge w a b) as [w'|]; [|done]. simpl in *. by apply IH.
    + destruct Hedge as [Hl|Hl]; simpl in Hl; lia.
Qed.

Lemma loadEdges_stops_at_malformed_witness :
  ∃ h g, build New [("a", "b")]%string = Some (h, g) ∧
    loadEdges New [["a"; "b"]; ["x"; "y"; "z"]; ["b"; "c"]]%string EndOfInput
      = Some (Malformed (h, g)).
Proof.
  apply (loadEdges_stops_at_malformed [["a"; "b"]]%string [["b"; "c"]]%string
           ["x"; "y"; "z"]%string EndOfInput).
  - repeat (apply Forall_cons; split; [first [by left | by right]|]). constructor.
  - intros [Hl|Hl]; discriminate Hl.
Defined.

(** ** Names, ids and nodes *)

(** X16: a name that is new when its edge is inserted gets the number of
    names seen before it as id (converted to [int32]): the first endpoint
    gets the size of the symbol table, a new and different second endpoint
    the next number; both keep these ids for good. *)
Theorem ids_in_first_seen_order (e1 e2 : list (nodeName * nodeName)) (a b : nodeName)
    (h1 : store) (g1 : Graph) (h : store) (g : Graph) :
  build New e1 = Some (h1, g1) →
  build New (e1 ++ (a, b) :: e2) = Some (h, g) →
  symbolTable g1 !! a = None →
  symbolTable g !! a = Some (int32 (Z.of_nat (size (symbolTable g1)))) ∧
  (b ≠ a → symbolTable g1 !! b = None →
   symbolTable g !! b = Some (int32 (Z.of_nat (size (symbolTable g1)) + 1))).
Proof.
  intros Hb1 Hb Ha. pose proof (build_New_ginv e1 h1 g1 Hb1) as Hg1.
  destruct (addEdge_spec h1 g1 a b Hg1)
    as (h2 & g2 & ia & ib & Hadd & Hg2 & _ & _ & Ha2 & Hb2 & Hia & Hib & _).
  rewrite build_app, Hb1 in Hb.
  change (build (h1, g1) ((a, b) :: e2) = Some (h, g)) in Hb.
  rewrite build_cons, Hadd in Hb. simpl in Hb.
  pose proof (build_tab_mono e2 h2 g2 h g Hg2 Hb) as Hsub.
  destruct Hia as [Hia|[_ ->]]; [congruence|]. split.
  - by eapply lookup_weaken.
  - intros Hne Hbn. eapply lookup_weaken; [|done]. rewrite Hb2. f_equal.
    destruct Hib as [Hib|[Hib ->]].
    + rewrite lookup_insert_ne in Hib by done. congruence.
    + rewrite map_size_insert_None by done. f_equal. lia.
Qed.

Lemma ids_in_first_seen_order_witness :
  ∃ h g, build New [("a", "b"); ("c", "d"); ("a", "c")]%string = Some (h, g) ∧
    symbolTable g !! "c"%string = Some 2%Z ∧ symbolTable g !! "d"%string = Some 3%Z.
Proof.
  destruct (build New [("a", "b")]%string) as [[h1 g1]|] eqn:Hb1; [|by vm_compute in Hb1].
  destruct (build New ([("a", "b")]%string ++ ("c", "d")%string :: [("a", "c")]%string))
    as [[h g]|] eqn:Hb; [|by vm_compute in Hb].
  assert (Hsz : size (symbolTable g1) = 2).
  { vm_compute in Hb1. injection Hb1 as <- <-. reflexivity. }
  destruct (ids_in_first_seen_order _ _ "c"%string "d"%string h1 g1 h g Hb1 Hb) as [Hc Hd].
  - vm_compute in Hb1. injection Hb1 as <- <-. reflexivity.
  - exists h, g. split; [exact Hb|]. rewrite Hsz in Hc, Hd. split; [exact Hc|].
    apply Hd; [discriminate|].
    vm_compute in Hb1. injection Hb1 as <- <-. reflexivity.
Defined.

Lemma size_le_of_injection {K1 K2 A B : Type} `{Countable K1} `{Countable K2}
    (R : K1 → K2 → Prop) (m1 : gmap K1 A) : ∀ (m2 : gmap K2 B),
  (∀ k, is_Some (m1 !! k) → ∃ k', R k k' ∧ is_Some (m2 !! k')) →
  (∀ k1 k2 k', is_Some (m1 !! k1) → is_Some (m1 !! k2) → R k1 k' → R k2 k' → k1 = k2) →
  size m1 ≤ size m2.
Proof.
  induction m1 as [|k x m Hk IH] using map_ind; intros m2 Htot Hinj.
  { rewrite map_size_empty. lia. }
  rewrite map_size_insert_None by done.
  destruct (Htot k) as (k' & Hkk' & [y Hy]); [rewrite lookup_insert_eq; eauto|].
  assert (size m ≤ size (delete k' m2)).
  { apply IH.
    - intros j Hj. assert (j ≠ k) by (intros ->; rewrite Hk in Hj; by destruct Hj).
      destruct (Htot j) as (j' & Hjj' & Hj'); [rewrite lookup_insert_ne by done; done|].
      exists j'. split; [done|]. rewrite lookup_delete_ne; [done|].
      intros <-. assert (k = j); [|done].
      apply (Hinj k j k'); [rewrite lookup_insert_eq; eauto| |done..].
      by rewrite lookup_insert_ne.
    - intros k1 k2 j' H1 H2. apply Hinj.
      + rewrite lookup_insert_ne; [done|]. intros <-. rewrite Hk in H1. by destruct H1.
      + rewrite lookup_insert_ne; [done|]. intros <-. rewrite Hk in H2. by destruct H2. }
  pose proof (map_size_delete_Some k' m2 (mk_is_Some _ _ Hy)) as Hdel.
  assert (size m2 ≠ 0); [|lia].
  intros Hz. apply map_size_empty_inv in Hz. subst m2. by rewrite lookup_empty in Hy.
Qed.

(** X17: a built graph never has more nodes than names, and has exactly as
    many as long as there are at most 2^32 names. *)
Theorem node_count_is_name_count (e : list (nodeName * nodeName))
    (h : store) (g : Graph) :
  build New e = Some (h, g) →
  size (nodes g) ≤ size (symbolTable g) ∧
  ((Z.of_nat (size (symbolTable g)) ≤ 4294967296)%Z →
   size (nodes g) = size (symbolTable g)).
Proof.
  intros Hb. pose proof (build_New_ginv e h g Hb) as Hg.
  assert (Hle : size (nodes g) ≤ size (symbolTable g)).
  { apply (size_le_of_injection (λ i a, symbolTable g !! a = Some i)).
    - intros i Hi. destruct (gi_named _ _ Hg i Hi) as (a & Ha). exists a. eauto.
    - intros i1 i2 a _ _ H1 H2. congruence. }
  split; [done|]. intros Hsz.
  pose proof (build_named e [] New.1 New.2 h g named_New Hb Hsz) as [_ [_ Hinj] _ _].
  simpl in Hinj.
  assert (size (symbolTable g) ≤ size (nodes g)); [|lia].
  apply (size_le_of_injection (λ a i, symbolTable g !! a = Some i)).
  - intros a [i Ha]. exists i. split; [done|]. by apply (gi_tab _ _ Hg a).
  - intros a1 a2 i _ _ H1 H2. by apply (Hinj a1 a2 i).
Qed.

Lemma node_count_is_name_count_witness :
  ∃ h g, build New [("a", "b"); ("b", "c"); ("a", "b")]%string = Some (h, g) ∧
    size (nodes g) = size (symbolTable g).
Proof.
  destruct (build New [("a", "b"); ("b", "c"); ("a", "b")]%string) as [[h g]|] eqn:Hb;
    [|by vm_compute in Hb].
  exists h, g. split; [reflexivity|].
  apply (node_count_is_name_count _ h g Hb).
  vm_compute in Hb. injection Hb as <- <-. vm_compute. discriminate.
Defined.

(** X18: as long as there are at most 2^32 names, the nodes of two names are
    adjacent exactly when an edge between the two names was inserted, in
    either direction. *)
Theorem adjacent_iff_inserted (e : list (nodeName * nodeName))
    (h : store) (g : Graph) (a b : nodeName) (ia ib : nodeID) :
  build New e = Some (h, g) →
  (Z.of_nat (size (symbolTable g)) ≤ 4294967296)%Z →
  symbolTable g !! a = Some ia → symbolTable g !! b = Some ib →
  edge h (nodes g) ia ib ↔ (a, b) ∈ e ∨ (b, a) ∈ e.
Proof.
  intros Hb Hsz Ha Hb'. symmetry.
  apply (iso_edge _ _ _ _ _ (build_giso e h g Hb Hsz) a b ia ib Ha Hb').
Qed.

Lemma adjacent_iff_inserted_witness :
  ∃ h g, build New [("a", "b"); ("b", "c")]%string = Some (h, g) ∧
    edge h (nodes g) 2 1 ∧ ¬ edge h (nodes g) 0 2.
Proof.
  destruct (build New [("a", "b"); ("b", "c")]%string) as [[h g]|] eqn:Hb;
    [|by vm_compute in Hb].
  assert (Hsz : (Z.of_nat (size (symbolTable g)) ≤ 4294967296)%Z).
  { vm_compute in Hb. injection Hb as <- <-. vm_compute. discriminate. }
  assert (Ha : symbolTable g !! "a"%string = Some 0%Z)
    by (vm_compute in Hb; injection Hb as <- <-; reflexivity).
  assert (Hb' : symbolTable g !! "b"%string = Some 1%Z)
    by (vm_compute in Hb; injection Hb as <- <-; reflexivity).
  assert (Hc : symbolTable g !! "c"%string = Some 2%Z)
    by (vm_compute in Hb; injection Hb as <- <-; reflexivity).
  exists h, g. split; [reflexivity|]. split.
  - apply (adjacent_iff_inserted _ h g "c"%string "b"%string 2%Z 1%Z Hb Hsz Hc Hb').
    right. apply list_elem_of_In. right. left. reflexivity.
  - intros He.
    apply (adjacent_iff_inserted _ h g "a"%string "c"%string 0%Z 2%Z Hb Hsz Ha Hc) in He.
    destruct He as [He|He]; apply list_elem_of_In in He;
      repeat (destruct He as [He|He]; [discriminate He|]); destruct He.
Defined.

(** X19: two edge lists that describe the same undirected edges (in any
    order, with any repetitions, with the endpoints of an edge in either
    order) give the same diameter, as long as there are at most 2^32 names. *)
Theorem diameter_depends_on_edge_set_only (e e' : list (nodeName * nodeName))
    (h : store) (g : Graph) :
  (∀ a b, (a, b) ∈ e ∨ (b, a) ∈ e ↔ (a, b) ∈ e' ∨ (b, a) ∈ e') →
  build New e = Some (h, g) →
  (Z.of_nat (size (symbolTable g)) ≤ 4294967296)%Z →
  ∃ h' g', build New e' = Some (h', g') ∧
    ∀ sch sch' fuel fuel', size (nodes g) ≤ fuel → size (nodes g') ≤ fuel' →
      ∃ D, diameter sch fuel h (nodes g) = Some (D, h, nodes g) ∧
           diameter sch' fuel' h' (nodes g') = Some (D, h', nodes g').
Proof.
  intros Hsame Hb Hsz.
  assert (HE : ∀ a b, nameE e a b ↔ nameE e' a b) by apply Hsame.
  assert (HV : ∀ a, nameV e a ↔ nameV e' a).
  { intros a. unfold nameV. by setoid_rewrite HE. }
  destruct (build_total e') as (h' & g' & Hb'). exists h', g'. split; [done|].
  pose proof (build_New_names e h g Hb) as Hdom.
  pose proof (build_New_names e' h' g' Hb') as Hdom'.
  assert (Hsz' : (Z.of_nat (size (symbolTable g')) ≤ 4294967296)%Z).
  { rewrite <-(size_dom (D := gset string)) in Hsz |- *.
    replace (dom (symbolTable g')) with (dom (symbolTable g)); [done|].
    apply set_eq. intros c. by rewrite !elem_of_dom, Hdom, Hdom'. }
  pose proof (build_giso e h g Hb Hsz) as Hiso.
  pose proof (build_giso e' h' g' Hb' Hsz') as Hiso'.
  intros sch sch' fuel fuel' Hf Hf'.
  destruct (diameter_spec h (nodes g) sch fuel (build_New_wf e h g Hb) Hf) as (D & Hd & HD).
  destruct (diameter_spec h' (nodes g') sch' fuel' (build_New_wf e' h' g' Hb') Hf')
    as (D' & Hd' & HD').
  exists D. split; [done|]. rewrite Hd'. do 3 f_equal.
  eapply diam_unique; [exact HD'|].
  eapply iso_diam; [exact Hiso'|].
  eapply diam_ext; [exact HV| |eapply iso_diam; [apply giso_sym, Hiso|exact HD]].
  intros c d k. unfold shortest.
  assert (Hw : ∀ k, walk (nameE e) c k d ↔ walk (nameE e') c k d).
  { intros k'. split; apply walk_mono; intros u v; by apply HE. }
  rewrite Hw. by setoid_rewrite Hw.
Qed.

Lemma diameter_depends_on_edge_set_only_witness :
  ∃ D,
    buildDiameter idSchedule 3 [("a", "b"); ("b", "c")]%string = Some D ∧
    buildDiameter revSchedule 3 [("c", "b"); ("a", "b"); ("b", "a")]%string = Some D.
Proof.
  destruct (build New [("a", "b"); ("b", "c")]%string) as [[h g]|] eqn:Hb;
    [|by vm_compute in Hb].
  destruct (diameter_depends_on_edge_set_only [("a", "b"); ("b", "c")]%string
              [("c", "b"); ("a", "b"); ("b", "a")]%string h g)
    as (h' & g' & Hb' & Hd).
  - intros a b. rewrite !list_elem_of_In. simpl. naive_solver.
  - exact Hb.
  - vm_compute in Hb. injection Hb as <- <-. vm_compute. discriminate.
  - destruct (Hd idSchedule revSchedule 3 3) as (D & Hd1 & Hd2).
    + vm_compute in Hb. injection Hb as <- <-. vm_compute. lia.
    + vm_compute in Hb'. injection Hb' as <- <-. vm_compute. lia.
    + exists D. unfold buildDiameter. rewrite Hb, Hb'. simpl.
      rewrite Hd1, Hd2. split; reflexivity.
Defined.

(** ** Iteration order *)

(** X20: the values returned do not depend on the order in which Go ranges
    over the maps: [longestShortestPath] from a node of the graph and
    [diameter] return the same for any two choices of orders. *)
Theorem results_do_not_depend_on_range_order (e : list (nodeName * nodeName))
    (h : store) (g : Graph) (sch sch' : schedule) (fuel fuel' : nat) :
  build New e = Some (h, g) → size (nodes g) ≤ fuel → size (nodes g) ≤ fuel' →
  diameter sch fuel h (nodes g) = diameter sch' fuel' h (nodes g) ∧
  ∀ v ord ord', registered (nodes g) v →
    longestShortestPath ord fuel h (nodes g) v
      = longestShortestPath ord' fuel' h (nodes g) v.
Proof.
  intros Hb Hf Hf'. pose proof (build_New_wf e h g Hb) as Hwf. split.
  - destruct (diameter_spec h (nodes g) sch fuel Hwf Hf) as (D & Hd & HD).
    rewrite Hd. symmetry. by apply (diameter_order_irrelevant h (nodes g) sch sch' fuel fuel').
  - intros v ord ord' [pv Hv].
    destruct (longestShortestPath_run h (nodes g) ord fuel v pv Hwf Hv Hf)
      as (n1 & B1 & nd1 & _ & _ & Hl1 & _ & _ & _ & He1 & _).
    destruct (longestShortestPath_run h (nodes g) ord' fuel' v pv Hwf Hv Hf')
      as (n2 & B2 & nd2 & _ & _ & Hl2 & _ & _ & _ & He2 & _).
    by rewrite Hl1, Hl2, (eccentricity_unique _ _ _ _ _ He1 He2).
Qed.

Lemma results_do_not_depend_on_range_order_witness :
  ∃ h g, build New [("a", "b"); ("b", "c")]%string = Some (h, g) ∧
    diameter idSchedule 3 h (nodes g) = diameter revSchedule 4 h (nodes g).
Proof.
  destruct (build New [("a", "b"); ("b", "c")]%string) as [[h g]|] eqn:Hb;
    [|by vm_compute in Hb].
  exists h, g. split; [reflexivity|].
  apply (results_do_not_depend_on_range_order _ h g idSchedule revSchedule 3 4 Hb).
  - vm_compute in Hb. injection Hb as <- <-. vm_compute. lia.
  - vm_compute in Hb. injection Hb as <- <-. vm_compute. lia.
Defined.

(** ** The order of the queue *)

Lemma StronglySorted_lookup_lt {A} (R : relation A) (l : list A) : ∀ i j a b,
  StronglySorted R l → i < j → l !! i = Some a → l !! j = Some b → R a b.
Proof.
  induction l as [|x l IH]; intros i j a b Hs Hij Hi Hj; [done|].
  apply StronglySorted_cons in Hs as [Hf Hs].
  destruct j as [|j]; [lia|]. simpl in Hj. destruct i as [|i].
  - simpl in Hi. injection Hi as <-.
    eapply Forall_forall in Hf; [done|]. by eapply list_elem_of_lookup_2.
  - simpl in Hi. apply (IH i j); [done|lia|done..].
Qed.

(** X21: a search dequeues the nodes in the order of their depth: a node
    dequeued later never has a smaller recorded depth. *)
Theorem bfs_dequeues_by_depth (e : list (nodeName * nodeName))
    (h : store) (g : Graph) (v : nodeID) (pv : ptr)
    (ord : nat → rangeOrder) (fuel : nat) :
  build New e = Some (h, g) → nodes g !! v = Some pv → size (nodes g) ≤ fuel →
  ∃ n' bfsData',
    bfsLoop ord fuel 0 h [pv] (bfsInit pv v) pv = Some (n', bfsData') ∧
    ∀ i j pi pj ni nj, i ≤ j →
      dequeued ord fuel h pv v !! i = Some pi → dequeued ord fuel h pv v !! j = Some pj →
      h !! pi = Some ni → h !! pj = Some nj →
      (depth (bfsGet bfsData' (id ni)) ≤ depth (bfsGet bfsData' (id nj)))%Z.
Proof.
  intros Hb Hv Hf. pose proof (build_New_wf e h g Hb) as Hwf.
  destruct (bfsLoop_inv h (nodes g) Hwf v ord fuel 0 [] [v] [pv] (bfsInit pv v) pv)
    as (n' & B' & tl & c & Hloop & Ho & _ & _ & Htl & _);
    [by apply binv_init|by repeat constructor|done|simpl; lia|].
  simpl in Ho. pose proof (oi_binv _ _ _ _ _ _ Ho) as Hbi. rewrite app_nil_r in Hbi.
  exists n', B'. split; [done|].
  intros i j pi pj ni nj Hij Hi Hj Hni Hnj. unfold dequeued in Hi, Hj.
  destruct (Forall2_lookup_r _ _ _ _ _ Htl Hi) as (x & Hx & Hxp).
  destruct (Forall2_lookup_r _ _ _ _ _ Htl Hj) as (y & Hy & Hyp).
  destruct (wf_node _ _ Hwf x pi Hxp) as (ni' & Hni' & <-).
  destruct (wf_node _ _ Hwf y pj Hyp) as (nj' & Hnj' & <-).
  assert (ni' = ni) as -> by congruence. assert (nj' = nj) as -> by congruence.
  fold (dep B' (id ni)). fold (dep B' (id nj)).
  destruct (decide (i = j)) as [->|Hne]; [assert (id ni = id nj) as -> by congruence; lia|].
  apply (StronglySorted_lookup_lt _ tl i j (id ni) (id nj) (bi_sorted _ _ _ _ _ Hbi));
    [lia|done..].
Qed.

Lemma bfs_dequeues_by_depth_witness :
  ∃ h g n' bfsData',
    build New [("a", "b"); ("b", "c")]%string = Some (h, g) ∧
    bfsLoop (λ _, idOrder) 3 0 h [1] (bfsInit 1 1) 1 = Some (n', bfsData') ∧
    ∀ i j pi pj ni nj, i ≤ j →
      dequeued (λ _, idOrder) 3 h 1 1 !! i = Some pi →
      dequeued (λ _, idOrder) 3 h 1 1 !! j = Some pj →
      h !! pi = Some ni → h !! pj = Some nj →
      (depth (bfsGet bfsData' (id ni)) ≤ depth (bfsGet bfsData' (id nj)))%Z.
Proof.
  destruct (build New [("a", "b"); ("b", "c")]%string) as [[h g]|] eqn:Hb;
    [|by vm_compute in Hb].
  destruct (bfs_dequeues_by_depth _ h g 1%Z 1 (λ _, idOrder) 3 Hb) as (n' & B' & Hloop & H).
  - vm_compute in Hb. injection Hb as <- <-. reflexivity.
  - vm_compute in Hb. injection Hb as <- <-. vm_compute. lia.
  - exists h, g, n', B'. split; [reflexivity|]. split; [exact Hloop|exact H].
Defined.
